(** * bf: a brainfuck interpreter on a doubly linked tape

    Shallow embedding of the [interpret] function of the three copies of
    the interpreter kept in the repository:
      - [src/bf.c], which has a status for I/O errors,
      - [src/brainfuck.c], which has not,
      - [src/brainfuck/brainfuck.c], called the subdirectory copy below,
        whose scans test their bounds differently.

    The C function walks the program text with a [size_t] index [i], keeps
    a bracket balance [bal], mutates a doubly linked list of byte cells
    through the cursor [ptr], and talks to the C library through
    [getchar], [putchar] and [malloc].  Here the list of cells is a
    zipper, the C library is an explicit [world] value threaded through
    the run, and the [for] loop is a function with fuel. *)

From Stdlib Require Import Ascii String.
From Stdlib Require Import ZArith List Lia Bool.
Import ListNotations.
Open Scope Z_scope.

(** ** Machine integers *)

(** [#define SIZE_MAX ((size_t) -1)], on a platform with a 64-bit
    [size_t]. *)
Definition SIZE_MAX : Z := 18446744073709551615.

(** Conversion to [size_t]: arithmetic on [i] is modulo [SIZE_MAX + 1]. *)
Definition size_t (x : Z) : Z := x mod (SIZE_MAX + 1).

(** Conversion to [unsigned char], the type of a cell. *)
Definition uchar (x : Z) : Z := x mod 256.

(** Modelled from the spec: the [EOF] macro of <stdio.h>, which [getchar]
    returns at end of input and [putchar] returns when the write fails;
    the header is not part of the repository, the value is the sentinel
    -1 the spec speaks of. *)
Definition EOF : Z := -1.

(** A character constant such as ['+']. *)
Definition byte (a : ascii) : Z := Z.of_N (N_of_ascii a).
Arguments byte a%_char.

(** The bytes of a program text given as a string literal. *)
Definition bytes (s : string) : list Z := map byte (list_ascii_of_string s).
Arguments bytes s%_string.

(** ** The three copies and where they differ *)

Inductive copy : Set :=
| bf_c                    (* src/bf.c *)
| brainfuck_c             (* src/brainfuck.c *)
| brainfuck_brainfuck_c.  (* src/brainfuck/brainfuck.c *)

(** [typedef enum { INT_SUCC, INT_INVL, INT_MEMERR, INT_IOERR } INT_STAT;]
    The two other copies return the plain integers 0, 1 and 2. *)
Inductive INT_STAT : Set := INT_SUCC | INT_INVL | INT_MEMERR | INT_IOERR.

Definition status_code (r : INT_STAT) : Z :=
  match r with INT_SUCC => 0 | INT_INVL => 1 | INT_MEMERR => 2 | INT_IOERR => 3 end.

(** Only bf.c looks at the result of [putchar]. *)
Definition checks_putchar (v : copy) : bool :=
  match v with bf_c => true | _ => false end.

(** The loop condition of the forward scan, after [bal &&]:
    [i < fsize - 1] in bf.c and brainfuck.c, [i < fsize] in the subdirectory
    copy.  [fsize - 1] is [size_t] arithmetic. *)
Definition forward_more (v : copy) (fsize k : Z) : bool :=
  match v with
  | brainfuck_brainfuck_c => k <? fsize
  | _ => k <? size_t (fsize - 1)
  end.

(** The underflow test of the backward scan: [i >= fsize] in bf.c and
    brainfuck.c, [i > fsize] in the subdirectory copy. *)
Definition underflowed (v : copy) (fsize k : Z) : bool :=
  match v with
  | brainfuck_brainfuck_c => k >? fsize
  | _ => k >=? fsize
  end.

(** [bal] is a [long] in bf.c and brainfuck.c and a [size_t] in the subdirectory
    copy.  A scan changes [bal] by one per byte read at most, so the
    [long] is taken as an integer without bound; the [size_t] wraps. *)
Definition bal_t (v : copy) (x : Z) : Z :=
  match v with
  | brainfuck_brainfuck_c => size_t x
  | _ => x
  end.

(** ** The tape *)

(** [struct node { unsigned char c; struct node *prev; struct node *next; }]
    seen from the cursor [ptr]: the value of the current node, the chain
    reached through [prev] (nearest node first) and the chain reached
    through [next].  A [NULL] link is an empty chain. *)
Record node : Set := mknode { prev : list Z; c : Z; next : list Z }.

Definition set_c (x : Z) (t : node) : node :=
  {| prev := prev t; c := x; next := next t |}.

(** The node with [c = 0] and no neighbour that [main] allocates. *)
Definition fresh : node := {| prev := []; c := 0; next := [] |}.

(** ** The C library *)

(** How many more requests a resource grants. *)
Inductive supply : Set := Unlimited | Limited (n : nat).

Definition take (q : supply) : option supply :=
  match q with
  | Unlimited => Some Unlimited
  | Limited O => None
  | Limited (S n) => Some (Limited n)
  end.

(** What the run sees of its environment: the bytes still to be read from
    standard input, the bytes written to standard output so far, how many
    more bytes standard output accepts, and how many more nodes [malloc]
    can hand out. *)
Record world : Set := mkworld {
  stdin : list Z;
  stdout : list Z;
  wcap : supply;
  heap : supply
}.

(** [getchar()]: the next byte as an [int], or [EOF]. *)
Definition getchar (w : world) : Z * world :=
  match stdin w with
  | [] => (EOF, w)
  | b :: rest =>
      (b, {| stdin := rest; stdout := stdout w; wcap := wcap w; heap := heap w |})
  end.

(** [putchar(x)]: writes [x] converted to [unsigned char] and returns it,
    or returns [EOF] when the write is rejected. *)
Definition putchar (x : Z) (w : world) : Z * world :=
  match take (wcap w) with
  | None => (EOF, w)
  | Some q =>
      (uchar x,
       {| stdin := stdin w; stdout := stdout w ++ [uchar x]; wcap := q;
          heap := heap w |})
  end.

(** [malloc(sizeof(struct node))]: [None] is the [NULL] result. *)
Definition malloc (w : world) : option world :=
  match take (heap w) with
  | None => None
  | Some q =>
      Some {| stdin := stdin w; stdout := stdout w; wcap := wcap w; heap := q |}
  end.

(** ** The interpreter *)

(** The local variables of [interpret] together with the environment. *)
Record state : Set := mkstate { i : Z; bal : Z; ptr : node; env : world }.

Definition set_i (k : Z) (s : state) : state :=
  {| i := k; bal := bal s; ptr := ptr s; env := env s |}.

(** What one pass through the [switch] does: fall out of it ([Next]),
    leave the function ([Return]), or never come back from a scan
    ([Spin], reachable only with a program of [SIZE_MAX] bytes). *)
Inductive outcome : Set :=
| Next (s : state)
| Return (r : INT_STAT) (s : state)
| Spin.

Section Interpret.

(** Which copy is run. *)
Variable v : copy.
(** The program text [str]; [fsize] is its length. *)
Variable str : list Z.
(** The byte found at [str[fsize]], just past the end of the buffer. *)
Variable past : Z.

Definition fsize : Z := Z.of_nat (length str).

(** The expression [str[k]]. *)
Definition str_at (k : Z) : Z :=
  if k <? fsize then nth (Z.to_nat k) str 0 else past.

(** The forward scan:
<<
    do {
            ++i;
            if (str[i] == '[') ++bal;
            if (str[i] == ']') --bal;
    } while (bal && i < fsize - 1);
>>
    [k] and [b] are the values of [i] and [bal] before the iteration;
    the third component collects the indices at which [str] is read.
    [n] bounds the number of further iterations. *)
Fixpoint scan_forward (n : nat) (k b : Z) (reads : list Z)
  : option (Z * Z * list Z) :=
  let k := size_t (k + 1) in
  let b := if str_at k =? byte "[" then bal_t v (b + 1) else b in
  let b := if str_at k =? byte "]" then bal_t v (b - 1) else b in
  let reads := reads ++ [k] in
  if negb (b =? 0) && forward_more v fsize k then
    match n with
    | O => None
    | S n' => scan_forward n' k b reads
    end
  else Some (k, b, reads).

(** The backward scan:
<<
    do {
            --i;
            if (i >= fsize) return INT_INVL;
            if (str[i] == ']') ++bal;
            if (str[i] == '[') --bal;
    } while (bal);
>>
    [inl] is the [return INT_INVL], [inr] the end of the loop; both carry
    the values of [i] and [bal] at that point. *)
Fixpoint scan_backward (n : nat) (k b : Z) : option (Z * Z + Z * Z) :=
  let k := size_t (k - 1) in
  if underflowed v fsize k then Some (inl (k, b))
  else
    let b := if str_at k =? byte "]" then bal_t v (b + 1) else b in
    let b := if str_at k =? byte "[" then bal_t v (b - 1) else b in
    if negb (b =? 0) then
      match n with
      | O => None
      | S n' => scan_backward n' k b
      end
    else Some (inr (k, b)).

(** Iterations granted to a scan: more than either scan can use on a
    program shorter than [SIZE_MAX] bytes. *)
Definition scan_fuel : nat := S (S (length str)).

(** [case '<'] *)
Definition move_left (s : state) : outcome :=
  let t := ptr s in
  match prev t with
  | [] =>
      match malloc (env s) with
      | None => Return INT_MEMERR s
      | Some w =>
          Next {| i := i s; bal := bal s;
                  ptr := {| prev := []; c := 0; next := c t :: next t |};
                  env := w |}
      end
  | x :: l =>
      Next {| i := i s; bal := bal s;
              ptr := {| prev := l; c := x; next := c t :: next t |};
              env := env s |}
  end.

(** [case '>'] *)
Definition move_right (s : state) : outcome :=
  let t := ptr s in
  match next t with
  | [] =>
      match malloc (env s) with
      | None => Return INT_MEMERR s
      | Some w =>
          Next {| i := i s; bal := bal s;
                  ptr := {| prev := c t :: prev t; c := 0; next := [] |};
                  env := w |}
      end
  | x :: r =>
      Next {| i := i s; bal := bal s;
              ptr := {| prev := c t :: prev t; c := x; next := r |};
              env := env s |}
  end.

(** The body of the [for] loop: [switch (str[i]) { ... }]. *)
Definition switch (s : state) : outcome :=
  let ch := str_at (i s) in
  let t := ptr s in
  if ch =? byte "+" then
    Next {| i := i s; bal := bal s; ptr := set_c (uchar (c t + 1)) t; env := env s |}
  else if ch =? byte "-" then
    Next {| i := i s; bal := bal s; ptr := set_c (uchar (c t - 1)) t; env := env s |}
  else if ch =? byte "<" then move_left s
  else if ch =? byte ">" then move_right s
  else if ch =? byte "." then
    let (r, w) := putchar (c t) (env s) in
    if checks_putchar v && (r =? EOF) then Return INT_IOERR s
    else Next {| i := i s; bal := bal s; ptr := t; env := w |}
  else if ch =? byte "," then
    let (r, w) := getchar (env s) in
    Next {| i := i s; bal := bal s; ptr := set_c (uchar r) t; env := w |}
  else if ch =? byte "[" then
    if c t =? 0 then
      match scan_forward scan_fuel (i s) 1 [] with
      | Some (k, b, _) => Next {| i := k; bal := b; ptr := t; env := env s |}
      | None => Spin
      end
    else Next s
  else if ch =? byte "]" then
    if negb (c t =? 0) then
      match scan_backward scan_fuel (i s) 1 with
      | Some (inr (k, b)) => Next {| i := k; bal := b; ptr := t; env := env s |}
      | Some (inl (k, b)) =>
          Return INT_INVL {| i := k; bal := b; ptr := t; env := env s |}
      | None => Spin
      end
    else Next s
  else Next s.

(** One iteration of [for (i = 0; i < fsize; ++i)]: the body, then
    [++i]. *)
Definition step (s : state) : outcome :=
  match switch s with
  | Next s' => Next (set_i (size_t (i s' + 1)) s')
  | o => o
  end.

(** The [for] loop followed by [return bal ? INT_INVL : INT_SUCC].
    [None]: the run is still going after [fuel] iterations. *)
Fixpoint loop (fuel : nat) (s : state) : option (INT_STAT * state) :=
  if i s <? fsize then
    match fuel with
    | O => None
    | S fuel' =>
        match step s with
        | Next s' => loop fuel' s'
        | Return r s' => Some (r, s')
        | Spin => None
        end
    end
  else Some (if bal s =? 0 then INT_SUCC else INT_INVL, s).

(** [interpret(ptr, str, fsize)], run in the environment [w]. *)
Definition interpret (fuel : nat) (p : node) (w : world)
  : option (INT_STAT * state) :=
  loop fuel {| i := 0; bal := 0; ptr := p; env := w |}.

End Interpret.

(** ** Notions used to state the properties *)

(** Increments minus decrements in a run of '+' and '-'. *)
Fixpoint net (p : list Z) : Z :=
  match p with
  | [] => 0
  | x :: r =>
      (if x =? byte "+" then 1 else if x =? byte "-" then -1 else 0) + net r
  end.

(** *** Bracket matching as the spec words it

    The two functions below are written from the spec's description of
    the scans, by recursion on the text that lies ahead of (or behind) the
    bracket, with no index arithmetic, bound test or fuel; the scans of
    the C code are compared with them. *)

(** Forward: the counter starts at 1, every '[' scanned adds one, every
    ']' takes one away, other bytes are skipped; the scan stops on the
    byte that brings the counter to 0, and fails when it runs past the end
    of the program.  [pos] is the index of the first byte of [ahead]. *)
Fixpoint spec_forward (ahead : list Z) (pos counter : Z) : option Z :=
  match ahead with
  | [] => None
  | x :: ahead' =>
      let counter :=
        if x =? byte "[" then counter + 1
        else if x =? byte "]" then counter - 1
        else counter in
      if counter =? 0 then Some pos else spec_forward ahead' (pos + 1) counter
  end.

(** The closing bracket that matches the opening bracket at index [k],
    if any. *)
Definition matching_close (str : list Z) (k : Z) : option Z :=
  spec_forward (skipn (Z.to_nat (k + 1)) str) (k + 1) 1.

(** Backward: the same with the roles of the brackets exchanged, over the
    bytes before the bracket, nearest first; it fails when it runs below
    the start of the program.  [pos] is the index of the first byte of
    [behind]. *)
Fixpoint spec_backward (behind : list Z) (pos counter : Z) : option Z :=
  match behind with
  | [] => None
  | x :: behind' =>
      let counter :=
        if x =? byte "]" then counter + 1
        else if x =? byte "[" then counter - 1
        else counter in
      if counter =? 0 then Some pos else spec_backward behind' (pos - 1) counter
  end.

(** The opening bracket that matches the closing bracket at index [k],
    if any. *)
Definition matching_open (str : list Z) (k : Z) : option Z :=
  spec_backward (rev (firstn (Z.to_nat k) str)) (k - 1) 1.

(** Every index at which [str] was read lies inside the buffer. *)
Definition in_bounds (str : list Z) (ks : list Z) : Prop :=
  Forall (fun k => 0 <= k < fsize str) ks.

(** *** Cells seen from the pointer *)

(** The value of the node [k] links away from [ptr] ([k > 0] through
    [next], [k < 0] through [prev]); [None] when the chain is shorter. *)
Definition cell (t : node) (k : Z) : option Z :=
  if k =? 0 then Some (c t)
  else if 0 <? k then nth_error (next t) (Z.to_nat (k - 1))
  else nth_error (prev t) (Z.to_nat (- k - 1)).

(** By how many nodes an instruction moves [ptr]. *)
Definition shift (x : Z) : Z :=
  if x =? byte "<" then -1 else if x =? byte ">" then 1 else 0.

(** The instructions that assign to [ptr->c]. *)
Definition writes (x : Z) : bool :=
  (x =? byte "+") || (x =? byte "-") || (x =? byte ",").

(** [n] iterations of the [for] loop, none of which leaves the function. *)
Fixpoint steps (v : copy) (str : list Z) (past : Z) (n : nat) (s : state)
  : option state :=
  match n with
  | O => Some s
  | S n' =>
      if i s <? fsize str then
        match step v str past s with
        | Next s' => steps v str past n' s'
        | _ => None
        end
      else None
  end.

(** The bytes dispatched by these iterations, in order. *)
Fixpoint dispatched (v : copy) (str : list Z) (past : Z) (n : nat) (s : state)
  : list Z :=
  match n with
  | O => []
  | S n' =>
      str_at str past (i s) ::
      match step v str past s with
      | Next s' => dispatched v str past n' s'
      | _ => []
      end
  end.

(** Where [ptr] ends up, relative to where it started, after the
    instructions [tr]. *)
Fixpoint drift (tr : list Z) : Z :=
  match tr with
  | [] => 0
  | x :: tr' => shift x + drift tr'
  end.

(** Whether one of the instructions [tr] assigns to the node that is [k]
    links away from [ptr] when [tr] starts. *)
Fixpoint assigned (k : Z) (tr : list Z) : bool :=
  match tr with
  | [] => false
  | x :: tr' => ((k =? 0) && writes x) || assigned (k - shift x) tr'
  end.

(** Every opening bracket of the program has its closing bracket. *)
Definition every_open_matched (str : list Z) : bool :=
  forallb
    (fun k => negb (nth k str 0 =? byte "[")
              || match matching_close str (Z.of_nat k) with
                 | Some _ => true
                 | None => false
                 end)
    (seq 0 (length str)).

(** A state of a run of the echo program on the tape [t]: [i = k],
    [bal = b], [x] in the cell under the pointer, [inp] left to read,
    [out] written, [q] writes left. *)
Definition echo_state (t : node) (h q : supply) (k b x : Z) (inp out : list Z)
  : state :=
  {| i := k; bal := b; ptr := set_c x t;
     env := {| stdin := inp; stdout := out; wcap := q; heap := h |} |}.

(** An environment for examples: [inp] on standard input, nothing written
    yet, every write accepted and every allocation granted. *)
Definition console (inp : list Z) : world :=
  {| stdin := inp; stdout := []; wcap := Unlimited; heap := Unlimited |}.

(** ** Notions for the rest of the code *)

(** The number of nodes of the list [ptr] points into. *)
Definition nodes (t : node) : nat := S (length (prev t) + length (next t)).

(** A supply to which [k] requests are handed back. *)
Definition give (q : supply) (k : nat) : supply :=
  match q with
  | Unlimited => Unlimited
  | Limited n => Limited (n + k)
  end.

(** Every node holds a value an [unsigned char] can hold. *)
Definition byte_cells (t : node) : Prop :=
  0 <= c t < 256
  /\ Forall (fun x => 0 <= x < 256) (prev t)
  /\ Forall (fun x => 0 <= x < 256) (next t).

(** The eight bytes the switch has a case for. *)
Definition is_instruction (x : Z) : bool :=
  (x =? byte "+") || (x =? byte "-") || (x =? byte "<") || (x =? byte ">")
  || (x =? byte ".") || (x =? byte ",") || (x =? byte "[") || (x =? byte "]").

(** The program text without the bytes the switch ignores. *)
Definition strip (str : list Z) : list Z := filter is_instruction str.

(** Every closing bracket of the program has its opening bracket. *)
Definition every_close_matched (str : list Z) : bool :=
  forallb
    (fun k => negb (nth k str 0 =? byte "]")
              || match matching_open str (Z.of_nat k) with
                 | Some _ => true
                 | None => false
                 end)
    (seq 0 (length str)).

(** What the switch can do to the tape and the environment: one of the
    assignments, moves, reads and writes below, or nothing. *)
Inductive effect (s : state) : outcome -> Prop :=
| effect_assign (x : Z) (k b : Z) :
    effect s (Next {| i := k; bal := b; ptr := set_c (uchar x) (ptr s); env := env s |})
| effect_read (k b : Z) :
    effect s (Next {| i := k; bal := b;
                      ptr := set_c (uchar (fst (getchar (env s)))) (ptr s);
                      env := snd (getchar (env s)) |})
| effect_write (k b : Z) :
    effect s (Next {| i := k; bal := b; ptr := ptr s;
                      env := snd (putchar (c (ptr s)) (env s)) |})
| effect_left_new (k b : Z) (w : world) :
    prev (ptr s) = [] -> malloc (env s) = Some w ->
    effect s (Next {| i := k; bal := b;
                      ptr := {| prev := []; c := 0; next := c (ptr s) :: next (ptr s) |};
                      env := w |})
| effect_left (k b : Z) (x : Z) (l : list Z) :
    prev (ptr s) = x :: l ->
    effect s (Next {| i := k; bal := b;
                      ptr := {| prev := l; c := x; next := c (ptr s) :: next (ptr s) |};
                      env := env s |})
| effect_right_new (k b : Z) (w : world) :
    next (ptr s) = [] -> malloc (env s) = Some w ->
    effect s (Next {| i := k; bal := b;
                      ptr := {| prev := c (ptr s) :: prev (ptr s); c := 0; next := [] |};
                      env := w |})
| effect_right (k b : Z) (x : Z) (r : list Z) :
    next (ptr s) = x :: r ->
    effect s (Next {| i := k; bal := b;
                      ptr := {| prev := c (ptr s) :: prev (ptr s); c := x; next := r |};
                      env := env s |})
| effect_none (k b : Z) :
    effect s (Next {| i := k; bal := b; ptr := ptr s; env := env s |})
| effect_return (r : INT_STAT) (k b : Z) :
    effect s (Return r {| i := k; bal := b; ptr := ptr s; env := env s |})
| effect_spin : effect s Spin.

(** The index, in the stripped program, of the byte that stands at index
    [k] of [str]: the number of instruction bytes before it. *)
Definition code_index (str : list Z) (k : Z) : Z :=
  Z.of_nat (length (strip (firstn (Z.to_nat k) str))).

(** [s'] is, in a run of the stripped program, the state that goes with
    the state [s] of a run of [str]: same tape, same environment, [i] at
    the same instruction, [bal] zero in both or in neither. *)
Definition stripped_state (str : list Z) (s s' : state) : Prop :=
  ptr s' = ptr s /\ env s' = env s
  /\ i s' = code_index str (i s) /\ 0 <= i s <= fsize str
  /\ (bal s = 0 <-> bal s' = 0).

(** ** [main] *)

(** [EXIT_SUCCESS] and [EXIT_FAILURE] of <stdlib.h>. *)
Inductive exit_status : Set := EXIT_SUCCESS | EXIT_FAILURE.

(** What the C library answers to [main]: the arguments of the program,
    the results of [setvbuf], [fopen], the two [fseek] and [ftell],
    whether [malloc(fsize)] returns a buffer for the text, and the bytes
    [fread] finds in the file. *)
Record libc : Set := mklibc {
  argc : Z;
  argv0 : list Z;
  setvbuf : Z;
  fopen : bool;
  fseek_end : Z;
  ftell : Z;
  fseek_set : Z;
  buffer : bool;
  content : list Z
}.

(** How [main] ends.  It returns: [w] is the environment once the
    process has exited, every stream flushed.  Or it dereferences a null
    pointer: [w] is the environment at that point, and [pending] the bytes
    [printf] was given while standard output was still buffered.  The
    program has not flushed them and never will; what the C library wrote
    of them on its own before that point is not decided by the code, and
    is not in [w]. *)
Inductive ended : Set :=
| Exited (ret : exit_status) (w : world)
| Crashed (w : world) (pending : list Z).

(** [printf] of a line without conversions left, on a standard output
    that is unbuffered or that is flushed before the environment is looked
    at again: the bytes go to standard output one by one, the result is
    not looked at.  bf.c and brainfuck.c unbuffer the stream before they
    print an error line; where the stream is buffered ([setvbuf] failed,
    or the subdirectory copy, which never calls it), the bytes are written
    when [main] returns at the latest, and this function stands for the
    stream only on the paths on which [main] returns. *)
Definition printf (line : list Z) (w : world) : world :=
  fold_left (fun w x => snd (putchar x w)) line w.

(** The line [printf("%s: error: %s\n", argv[0], msg)] prints. *)
Definition error_line (a0 msg : list Z) : list Z :=
  a0 ++ bytes ": error: " ++ msg ++ [10].

(** [free] of a node: one more node [malloc] can hand out. *)
Definition free (w : world) : world :=
  {| stdin := stdin w; stdout := stdout w; wcap := wcap w;
     heap := give (heap w) 1 |}.

(** [while (ptr->prev) ptr = ptr->prev;] on the list around the node
    holding [x], with [l] before it and [r] after it. *)
Fixpoint rewind_from (l : list Z) (x : Z) (r : list Z) : node :=
  match l with
  | [] => {| prev := []; c := x; next := r |}
  | y :: l' => rewind_from l' y (x :: r)
  end.

Definition rewind (t : node) : node := rewind_from (prev t) (c t) (next t).

(** [while (ptr) { tmp = ptr->next; free(ptr); ptr = tmp; }] started on a
    node followed by the nodes [r]. *)
Fixpoint release (r : list Z) (w : world) : world :=
  match r with
  | [] => free w
  | _ :: r' => release r' (free w)
  end.

(** The code after the label [cleanup], [ptr] being [NULL] ([None]) or a
    node of the list [t]; [free(str)] and [fclose(fp)] leave the
    environment modelled here as it is. *)
Definition cleanup (ret : exit_status) (p : option node) (w : world) : ended :=
  match p with
  | None => Crashed w []
  | Some t => Exited ret (release (next (rewind t)) w)
  end.

(** bf.c and brainfuck.c unbuffer standard output, test [ftell] for -1 and
    test the size of the file; the subdirectory copy does none of it. *)
Definition checks_file (v : copy) : bool :=
  match v with brainfuck_brainfuck_c => false | _ => true end.

(** The macro [ERROR(msg)], used after the first tests of [main]: the
    line is given to [printf], then the code after [cleanup] runs.  With
    a node in [ptr] that code returns.  With [ptr == NULL] it does not:
    in bf.c and brainfuck.c, where [setvbuf] has made standard output
    unbuffered, the line has been written by then; in the subdirectory
    copy the stream is still buffered and the line is pending. *)
Definition ERROR (v : copy) (a0 msg : list Z) (p : option node) (w : world)
  : ended :=
  match p with
  | Some _ => cleanup EXIT_FAILURE p (printf (error_line a0 msg) w)
  | None =>
      if checks_file v then
        cleanup EXIT_FAILURE None (printf (error_line a0 msg) w)
      else Crashed w (error_line a0 msg)
  end.

(** [main].  [None]: [interpret] is still running after [fuel]
    iterations.  The list is handed to [cleanup] through the node
    [interpret] returned on; [main] itself starts from the first node, and
    rewinding from either reaches the same end of the same list. *)
Definition main (v : copy) (past : Z) (fuel : nat) (L : libc) (w : world)
  : option ended :=
  if checks_file v && negb (setvbuf L =? 0) then
    Some (Exited EXIT_FAILURE
            (printf (error_line (argv0 L) (bytes "could not unbuffer stdout")) w))
  else if negb (argc L =? 2) then
    Some (Exited EXIT_FAILURE
            (printf (bytes "usage: " ++ argv0 L ++ bytes " SOURCEFILE" ++ [10]) w))
  else if negb (fopen L) then
    Some (Exited EXIT_FAILURE
            (printf (error_line (argv0 L) (bytes "could not open file")) w))
  else
    match malloc w with
    | None => Some (ERROR v (argv0 L) (bytes "bad memory allocation") None w)
    | Some w1 =>
        let p := Some fresh in
        let n := size_t (ftell L) in
        if negb (fseek_end L =? 0) then
          Some (ERROR v (argv0 L) (bytes "cannot read file") p w1)
        else if checks_file v && (ftell L =? -1) then
          Some (ERROR v (argv0 L) (bytes "cannot read file") p w1)
        else if negb (fseek_set L =? 0) then
          Some (ERROR v (argv0 L) (bytes "cannot read file") p w1)
        else if checks_file v && (n >? SIZE_MAX) then
          Some (ERROR v (argv0 L) (bytes "file too large") p w1)
        else if negb (buffer L) then
          Some (ERROR v (argv0 L) (bytes "bad memory allocation") p w1)
        else
          let str := firstn (Z.to_nat n) (content L) in
          if negb (Z.of_nat (length str) =? n) then
            Some (ERROR v (argv0 L) (bytes "cannot read file") p w1)
          else
            match interpret v str past fuel fresh w1 with
            | None => None
            | Some (INT_SUCC, s) =>
                Some (cleanup EXIT_SUCCESS (Some (ptr s)) (env s))
            | Some (INT_INVL, s) =>
                Some (ERROR v (argv0 L) (bytes "unmatched brackets")
                        (Some (ptr s)) (env s))
            | Some (INT_MEMERR, s) =>
                Some (ERROR v (argv0 L) (bytes "bad memory allocation")
                        (Some (ptr s)) (env s))
            | Some (INT_IOERR, s) =>
                if checks_putchar v then
                  Some (ERROR v (argv0 L) (bytes "input/output error")
                          (Some (ptr s)) (env s))
                else Some (cleanup EXIT_SUCCESS (Some (ptr s)) (env s))
            end
    end.

(** The cells of the list around the node [t], from its first node to its
    last. *)
Definition list_of (t : node) : list Z := rev (prev t) ++ c t :: next t.

(** ** Basic facts *)

Ltac norm_bytes :=
  change (byte "+") with 43 in *; change (byte "-") with 45 in *;
  change (byte "<") with 60 in *; change (byte ">") with 62 in *;
  change (byte ".") with 46 in *; change (byte ",") with 44 in *;
  change (byte "[") with 91 in *; change (byte "]") with 93 in *.

Lemma size_t_small (x : Z) : 0 <= x <= SIZE_MAX -> size_t x = x.
Proof. intros H. unfold size_t. apply Z.mod_small. unfold SIZE_MAX in *. lia. Qed.

Lemma size_t_range (x : Z) : 0 <= size_t x <= SIZE_MAX.
Proof.
  unfold size_t. assert (H := Z.mod_pos_bound x (SIZE_MAX + 1)).
  unfold SIZE_MAX in *. lia.
Qed.

Lemma size_t_underflow : size_t (0 - 1) = SIZE_MAX.
Proof. reflexivity. Qed.

Lemma fsize_nonneg (str : list Z) : 0 <= fsize str.
Proof. unfold fsize. lia. Qed.

Lemma loop_exit (v : copy) (str : list Z) (past : Z) (fuel : nat) (s : state) :
  fsize str <= i s ->
  loop v str past fuel s = Some (if bal s =? 0 then INT_SUCC else INT_INVL, s).
Proof.
  intros H. destruct fuel; simpl; destruct (Z.ltb_spec (i s) (fsize str)); auto; lia.
Qed.

Lemma loop_next (v : copy) (str : list Z) (past : Z) (fuel : nat) (s s' : state) :
  i s < fsize str -> step v str past s = Next s' ->
  loop v str past (S fuel) s = loop v str past fuel s'.
Proof.
  intros H E. simpl. destruct (Z.ltb_spec (i s) (fsize str)); [|lia]. now rewrite E.
Qed.

Lemma loop_return (v : copy) (str : list Z) (past : Z) (fuel : nat) (s s' : state)
  (r : INT_STAT) :
  i s < fsize str -> step v str past s = Return r s' ->
  loop v str past (S fuel) s = Some (r, s').
Proof.
  intros H E. simpl. destruct (Z.ltb_spec (i s) (fsize str)); [|lia]. now rewrite E.
Qed.

(** More fuel never changes a result. *)
Lemma loop_more_fuel (v : copy) (str : list Z) (past : Z) (f : nat) :
  forall (g : nat) (s : state) (r : INT_STAT * state),
    loop v str past f s = Some r -> (f <= g)%nat -> loop v str past g s = Some r.
Proof.
  induction f as [|f IH]; intros g s r E L.
  - simpl in E. destruct (Z.ltb_spec (i s) (fsize str)); [discriminate|].
    rewrite loop_exit by lia. exact E.
  - destruct g as [|g]; [lia|]. simpl in *.
    destruct (i s <? fsize str); [|exact E].
    destruct (step v str past s); try discriminate; auto.
    apply IH; [exact E|lia].
Qed.

Lemma skipn_cons_inv {A : Type} (d : A) (l : list A) :
  forall (n : nat) (x : A) (r : list A),
    skipn n l = x :: r ->
    nth n l d = x /\ skipn (S n) l = r /\ (n < length l)%nat.
Proof.
  induction l as [|y l IH]; intros n x r E.
  - destruct n; discriminate.
  - destruct n as [|n].
    + simpl in E. injection E as -> ->. simpl. repeat split; lia.
    + simpl in E. destruct (IH n x r E) as (H1 & H2 & H3).
      simpl nth. simpl length. repeat split; [exact H1|exact H2|lia].
Qed.

Lemma skipn_nil_inv {A : Type} (l : list A) (n : nat) :
  skipn n l = [] -> (length l <= n)%nat.
Proof.
  intros E. assert (H := length_skipn n l). rewrite E in H. simpl in H. lia.
Qed.

Lemma str_at_skipn (str : list Z) (past : Z) (k : Z) (x : Z) (r : list Z) :
  0 <= k -> skipn (Z.to_nat k) str = x :: r ->
  str_at str past k = x /\ k < fsize str /\ skipn (Z.to_nat (k + 1)) str = r.
Proof.
  intros Hk E. destruct (skipn_cons_inv 0 str _ _ _ E) as (H1 & H2 & H3).
  unfold str_at, fsize.
  destruct (Z.ltb_spec k (Z.of_nat (length str))); [|lia].
  repeat split; [exact H1|lia|].
  replace (Z.to_nat (k + 1)) with (S (Z.to_nat k)) by lia. exact H2.
Qed.

Lemma uchar_uchar_add (x d : Z) : uchar (uchar x + d) = uchar (x + d).
Proof. unfold uchar. apply Zplus_mod_idemp_l. Qed.

(** A run of '+' and '-' from index [k] to the end of the program. *)
Lemma loop_plus_minus (v : copy) (str : list Z) (past : Z) (rest : list Z) :
  forall (k x0 : Z) (t : node) (w : world),
    fsize str <= SIZE_MAX -> 0 <= k <= fsize str ->
    skipn (Z.to_nat k) str = rest ->
    Forall (fun x => x = byte "+" \/ x = byte "-") rest ->
    loop v str past (length rest)
         {| i := k; bal := 0; ptr := set_c (uchar x0) t; env := w |}
    = Some (INT_SUCC,
            {| i := fsize str; bal := 0;
               ptr := set_c (uchar (x0 + net rest)) t; env := w |}).
Proof.
  induction rest as [|x rest IH]; intros k x0 t w Hs Hk E F.
  - apply skipn_nil_inv in E.
    assert (k = fsize str) as -> by (unfold fsize in *; lia).
    rewrite loop_exit by (simpl; lia). simpl. now rewrite Z.add_0_r.
  - destruct (str_at_skipn str past k x rest (proj1 Hk) E) as (Hat & Hlt & E').
    pose proof (Forall_inv F) as Hx; pose proof (Forall_inv_tail F) as F'.
    simpl in Hx.
    assert (Hi : size_t (k + 1) = k + 1) by (apply size_t_small; lia).
    simpl length. 
    destruct Hx as [Hx|Hx].
    + rewrite (loop_next v str past _ _
        {| i := k + 1; bal := 0; ptr := set_c (uchar (x0 + 1)) t; env := w |}).
      * rewrite IH by (assumption || reflexivity || lia).
        simpl net. rewrite Hx. norm_bytes. simpl Z.eqb. cbv iota.
        now rewrite Z.add_assoc.
      * simpl. lia.
      * unfold step, switch. simpl. rewrite Hat, Hx. norm_bytes. simpl.
        unfold set_i. simpl. rewrite Hi. unfold set_c. simpl.
        now rewrite uchar_uchar_add.
    + rewrite (loop_next v str past _ _
        {| i := k + 1; bal := 0; ptr := set_c (uchar (x0 - 1)) t; env := w |}).
      * rewrite IH by (assumption || reflexivity || lia).
        simpl net. rewrite Hx. norm_bytes. simpl Z.eqb. cbv iota.
        now rewrite Z.add_assoc.
      * simpl. lia.
      * unfold step, switch. simpl. rewrite Hat, Hx. norm_bytes. simpl.
        unfold set_i. simpl. rewrite Hi. unfold set_c. simpl.
        unfold Z.sub. now rewrite uchar_uchar_add.
Qed.

(** C6. A program made only of '+' and '-', run on a cell holding [c t],
    returns [INT_SUCC] and leaves [(c t + n) mod 256] in the cell, [n]
    being the number of '+' minus the number of '-': the cell is an
    unsigned 8-bit value that wraps in both directions.  Nothing else
    changes: the function is still on the same node, with the same
    neighbours, and the environment is as it was. *)
Theorem plus_minus_mod_256 (v : copy) (str : list Z) (past : Z) (t : node) (w : world) :
  fsize str <= SIZE_MAX ->
  Forall (fun x => x = byte "+" \/ x = byte "-") str ->
  0 <= c t < 256 ->
  exists s' : state,
    interpret v str past (length str) t w = Some (INT_SUCC, s')
    /\ c (ptr s') = (c t + net str) mod 256
    /\ prev (ptr s') = prev t /\ next (ptr s') = next t
    /\ env s' = w /\ i s' = fsize str /\ bal s' = 0.
Proof.
  intros Hs F Hc. unfold interpret.
  assert (E : t = set_c (uchar (c t)) t).
  { destruct t as [l x r]. unfold set_c, uchar. simpl in *.
    now rewrite Z.mod_small by lia. }
  assert (L := loop_plus_minus v str past str 0 (c t) t w Hs
                 ltac:(pose proof (fsize_nonneg str); lia) eq_refl F).
  rewrite <- E in L.
  eexists. split; [exact L|]. unfold set_c, uchar. cbn [i bal ptr env c prev next].
  repeat split; reflexivity.
Qed.

Lemma plus_minus_mod_256_witness :
  exists s' : state,
    interpret bf_c (bytes "+-++") 0 4 (set_c 255 fresh) (console [])
    = Some (INT_SUCC, s')
    /\ c (ptr s') = 1
    /\ prev (ptr s') = [] /\ next (ptr s') = []
    /\ env s' = console [] /\ i s' = 4 /\ bal s' = 0.
Proof.
  apply (plus_minus_mod_256 bf_c (bytes "+-++") 0 (set_c 255 fresh) (console [])).
  - unfold fsize, SIZE_MAX. simpl. lia.
  - repeat (apply Forall_cons; [(left; reflexivity) || (right; reflexivity)|]).
    apply Forall_nil.
  - simpl. lia.
Defined.

(** ** Input and output *)

(** C5. When ',' is executed and standard input is exhausted, the cell
    under the pointer becomes 255, which is [EOF] (-1) converted to
    [unsigned char]; it is neither kept nor cleared.  The switch falls
    through to [++i] and the loop goes on, in every copy. *)
Theorem comma_at_eof_stores_255 (v : copy) (str : list Z) (past : Z) (s : state) :
  i s < fsize str ->
  str_at str past (i s) = byte "," ->
  stdin (env s) = [] ->
  let s' := {| i := size_t (i s + 1); bal := bal s;
               ptr := set_c 255 (ptr s); env := env s |} in
  step v str past s = Next s'
  /\ c (ptr s') = 255
  /\ forall fuel, loop v str past (S fuel) s = loop v str past fuel s'.
Proof.
  intros Hlt Hat Hin s'.
  assert (E : step v str past s = Next s').
  { unfold step, switch. rewrite Hat. norm_bytes. simpl.
    unfold getchar. rewrite Hin. reflexivity. }
  split; [exact E|]. split; [reflexivity|].
  intros fuel. now apply loop_next.
Qed.

Lemma comma_at_eof_stores_255_witness :
  step bf_c (bytes ",") 0
    {| i := 0; bal := 0; ptr := set_c 7 fresh; env := console [] |}
  = Next {| i := 1; bal := 0; ptr := set_c 255 fresh; env := console [] |}.
Proof.
  apply (comma_at_eof_stores_255 bf_c (bytes ",") 0
           {| i := 0; bal := 0; ptr := set_c 7 fresh; env := console [] |});
    reflexivity.
Defined.

(** C7, as stated, fails on brainfuck.c.  With standard output rejecting
    every write, the program ".+" run by brainfuck.c on a fresh node
    returns success with 1 in the cell: the '+' that follows the rejected
    write has been executed, and there is no I/O error. *)
Lemma brainfuck_c_goes_on_after_rejected_write :
  fst (putchar (c fresh)
         {| stdin := []; stdout := []; wcap := Limited 0; heap := Unlimited |})
  = EOF
  /\ interpret brainfuck_c (bytes ".+") 0 2 fresh
       {| stdin := []; stdout := []; wcap := Limited 0; heap := Unlimited |}
     = Some (INT_SUCC,
             {| i := 2; bal := 0; ptr := set_c 1 fresh;
                env := {| stdin := []; stdout := []; wcap := Limited 0;
                          heap := Unlimited |} |}).
Proof. split; reflexivity. Qed.

(** C7, amended.  In bf.c, when '.' is executed and [putchar] reports
    [EOF], the function returns [INT_IOERR] at once: the state returned is
    the state in which '.' was dispatched, so no later instruction has run
    and nothing was added to the output.  brainfuck.c, which has no such
    status, does not look at what [putchar] returns: nothing has been
    written, and the loop goes on with the next instruction. *)
Theorem rejected_write_returns_ioerr (str : list Z) (past : Z) (s : state)
  (fuel : nat) :
  i s < fsize str ->
  str_at str past (i s) = byte "." ->
  fst (putchar (c (ptr s)) (env s)) = EOF ->
  loop bf_c str past (S fuel) s = Some (INT_IOERR, s)
  /\ loop brainfuck_c str past (S fuel) s
     = loop brainfuck_c str past fuel
         {| i := size_t (i s + 1); bal := bal s; ptr := ptr s; env := env s |}.
Proof.
  intros Hlt Hat Hw. split.
  - apply loop_return; [exact Hlt|].
    unfold step, switch. rewrite Hat. norm_bytes. simpl.
    destruct (putchar (c (ptr s)) (env s)) as [r w]. simpl in Hw. subst r.
    reflexivity.
  - apply loop_next; [exact Hlt|].
    unfold step, switch. rewrite Hat. norm_bytes.
    cbn [Z.eqb Pos.eqb andb checks_putchar].
    unfold putchar in *. destruct (take (wcap (env s))); cbn [fst snd] in *.
    + assert (R := Z.mod_pos_bound (c (ptr s)) 256 ltac:(lia)).
      unfold uchar, EOF in Hw. lia.
    + reflexivity.
Qed.

Lemma rejected_write_returns_ioerr_witness :
  loop bf_c (bytes ".+") 0 2
    {| i := 0; bal := 0; ptr := fresh;
       env := {| stdin := []; stdout := []; wcap := Limited 0; heap := Unlimited |} |}
  = Some (INT_IOERR,
          {| i := 0; bal := 0; ptr := fresh;
             env := {| stdin := []; stdout := []; wcap := Limited 0;
                       heap := Unlimited |} |})
  /\ loop brainfuck_c (bytes ".+") 0 2
       {| i := 0; bal := 0; ptr := fresh;
          env := {| stdin := []; stdout := []; wcap := Limited 0;
                    heap := Unlimited |} |}
     = loop brainfuck_c (bytes ".+") 0 1
         {| i := 1; bal := 0; ptr := fresh;
            env := {| stdin := []; stdout := []; wcap := Limited 0;
                      heap := Unlimited |} |}.
Proof.
  apply (rejected_write_returns_ioerr (bytes ".+") 0
           {| i := 0; bal := 0; ptr := fresh;
              env := {| stdin := []; stdout := []; wcap := Limited 0;
                        heap := Unlimited |} |} 1);
    reflexivity.
Defined.

(** ** The bracket scans *)

Lemma scan_forward_eq (v : copy) (str : list Z) (past : Z) (n : nat)
  (k b : Z) (reads : list Z) :
  scan_forward v str past n k b reads =
  let k' := size_t (k + 1) in
  let b1 := if str_at str past k' =? byte "[" then bal_t v (b + 1) else b in
  let b2 := if str_at str past k' =? byte "]" then bal_t v (b1 - 1) else b1 in
  if negb (b2 =? 0) && forward_more v (fsize str) k' then
    match n with
    | O => None
    | S n' => scan_forward v str past n' k' b2 (reads ++ [k'])
    end
  else Some (k', b2, reads ++ [k']).
Proof. destruct n; reflexivity. Qed.

Lemma scan_backward_eq (v : copy) (str : list Z) (past : Z) (n : nat) (k b : Z) :
  scan_backward v str past n k b =
  let k' := size_t (k - 1) in
  if underflowed v (fsize str) k' then Some (inl (k', b))
  else
    let b1 := if str_at str past k' =? byte "]" then bal_t v (b + 1) else b in
    let b2 := if str_at str past k' =? byte "[" then bal_t v (b1 - 1) else b1 in
    if negb (b2 =? 0) then
      match n with
      | O => None
      | S n' => scan_backward v str past n' k' b2
      end
    else Some (inr (k', b2)).
Proof. destruct n; reflexivity. Qed.

Lemma bal_t_small (v : copy) (x : Z) : 0 <= x <= SIZE_MAX -> bal_t v x = x.
Proof. intros H. destruct v; simpl; auto using size_t_small. Qed.

(** The two [if]s of the forward scan make the one update of the spec. *)
Lemma forward_update (v : copy) (x b : Z) :
  1 <= b < SIZE_MAX ->
  (if x =? byte "]"
   then bal_t v ((if x =? byte "[" then bal_t v (b + 1) else b) - 1)
   else if x =? byte "[" then bal_t v (b + 1) else b)
  = (if x =? byte "[" then b + 1 else if x =? byte "]" then b - 1 else b).
Proof.
  intros Hb. norm_bytes.
  destruct (Z.eqb_spec x 91) as [->|N1]; simpl.
  - apply bal_t_small. lia.
  - destruct (x =? 93); [apply bal_t_small; lia|reflexivity].
Qed.

Lemma backward_update (v : copy) (x b : Z) :
  1 <= b < SIZE_MAX ->
  (if x =? byte "["
   then bal_t v ((if x =? byte "]" then bal_t v (b + 1) else b) - 1)
   else if x =? byte "]" then bal_t v (b + 1) else b)
  = (if x =? byte "]" then b + 1 else if x =? byte "[" then b - 1 else b).
Proof.
  intros Hb. norm_bytes.
  destruct (Z.eqb_spec x 93) as [->|N1]; simpl.
  - apply bal_t_small. lia.
  - destruct (x =? 91); [apply bal_t_small; lia|reflexivity].
Qed.

(** The forward scan of the code against the scan of the spec, started
    anywhere but on the last byte.  When the spec finds the closing
    bracket at [j], every copy stops there with balance 0.  When the spec
    runs off the end, bf.c and brainfuck.c stop on the last byte with a
    balance that is not 0.  Either way every read is inside the buffer. *)
Lemma scan_forward_spec (v : copy) (str : list Z) (past : Z) (ahead : list Z) :
  forall (n : nat) (k b : Z) (reads : list Z),
    fsize str < SIZE_MAX -> 0 <= k ->
    skipn (Z.to_nat (k + 1)) str = ahead -> ahead <> [] ->
    1 <= b -> b + Z.of_nat (length ahead) <= SIZE_MAX ->
    (length ahead <= n)%nat ->
    match spec_forward ahead (k + 1) b with
    | Some j =>
        exists rs, scan_forward v str past n k b reads = Some (j, 0, reads ++ rs)
                   /\ k < j < fsize str /\ str_at str past j = byte "]"
                   /\ in_bounds str rs
    | None =>
        v <> brainfuck_brainfuck_c ->
        exists b' rs, scan_forward v str past n k b reads
                      = Some (fsize str - 1, b', reads ++ rs)
                      /\ b' <> 0 /\ in_bounds str rs
    end.
Proof.
  induction ahead as [|x ahead IH]; intros n k b reads Hs Hk E Hne Hb Hbl Hn;
    [congruence|].
  simpl length in Hbl, Hn.
  assert (Hk1 : 0 <= k + 1) by lia.
  destruct (str_at_skipn str past (k + 1) x ahead Hk1 E) as (Hat & Hlt & E').
  assert (Hi : size_t (k + 1) = k + 1) by (apply size_t_small; lia).
  rewrite scan_forward_eq. cbv zeta. rewrite Hi, Hat.
  rewrite (forward_update v x b) by lia.
  simpl spec_forward.
  set (b' := if x =? byte "[" then b + 1 else if x =? byte "]" then b - 1 else b).
  assert (Hb' : b - 1 <= b' <= b + 1).
  { subst b'. destruct (x =? byte "["), (x =? byte "]"); lia. }
  assert (Hin : 0 <= k + 1 < fsize str) by lia.
  destruct (Z.eqb_spec b' 0) as [Hz|Hnz]; simpl negb; simpl andb.
  - exists [k + 1]. rewrite Hz. repeat split; try lia.
    + rewrite Hat. subst b'. norm_bytes.
      destruct (Z.eqb_spec x 91); [lia|]. destruct (Z.eqb_spec x 93); [auto|lia].
    + constructor; [exact Hin|constructor].
  - destruct ahead as [|y ahead'].
    + (* the byte just read was the last one *)
      simpl spec_forward. intros Hv.
      apply skipn_nil_inv in E'.
      assert (Hlast : k + 1 = fsize str - 1) by (unfold fsize in *; lia).
      assert (G : forward_more v (fsize str) (k + 1) = false).
      { destruct v; try congruence; simpl;
          rewrite size_t_small by lia; apply Z.ltb_ge; lia. }
      rewrite G. exists b', [k + 1]. rewrite Hlast.
      repeat split; auto. constructor; [lia|constructor].
    + assert (Hmore : k + 1 < fsize str - 1).
      { apply skipn_cons_inv with (d := 0) in E'. unfold fsize. lia. }
      assert (G : forward_more v (fsize str) (k + 1) = true).
      { destruct v; simpl; try rewrite size_t_small by lia; apply Z.ltb_lt; lia. }
      rewrite G. destruct n as [|n]; [simpl in Hn; lia|].
      assert (Hl : (length (y :: ahead') <= n)%nat) by (simpl in *; lia).
      assert (Hbl' : b' + Z.of_nat (length (y :: ahead')) <= SIZE_MAX).
      { simpl length in *. lia. }
      assert (Hk2 : 0 <= k + 1) by lia.
      assert (Hy : y :: ahead' <> []) by discriminate.
      assert (Hb1 : 1 <= b') by lia.
      specialize (IH n (k + 1) b' (reads ++ [k + 1]) Hs Hk2 E' Hy Hb1 Hbl' Hl).
      destruct (spec_forward (y :: ahead') (k + 1 + 1) b') as [j|].
      * destruct IH as (rs & R & Hj & Hc & Hrs).
        exists ((k + 1) :: rs). rewrite R, <- app_assoc. simpl.
        repeat split; try lia; auto. constructor; auto.
      * intros Hv. destruct (IH Hv) as (b2 & rs & R & Hb2 & Hrs).
        exists b2, ((k + 1) :: rs). rewrite R, <- app_assoc. simpl.
        repeat split; auto. constructor; auto.
Qed.

Lemma rev_firstn_succ {A : Type} (d : A) (l : list A) :
  forall m : nat, (m < length l)%nat ->
    rev (firstn (S m) l) = nth m l d :: rev (firstn m l).
Proof.
  induction l as [|y l IH]; intros m Hm; simpl in Hm; [lia|].
  destruct m as [|m]; [reflexivity|].
  rewrite (firstn_cons (S m)), (firstn_cons m).
  change (rev (y :: firstn (S m) l)) with (rev (firstn (S m) l) ++ [y]).
  change (rev (y :: firstn m l)) with (rev (firstn m l) ++ [y]).
  rewrite IH by lia. reflexivity.
Qed.

Lemma str_at_behind (str : list Z) (past : Z) (k : Z) (x : Z) (r : list Z) :
  0 <= k <= fsize str ->
  rev (firstn (Z.to_nat k) str) = x :: r ->
  1 <= k /\ str_at str past (k - 1) = x /\ rev (firstn (Z.to_nat (k - 1)) str) = r.
Proof.
  intros Hk E.
  assert (H1 : 1 <= k).
  { destruct (Z.eq_dec k 0) as [->|]; [discriminate E|lia]. }
  assert (Hm : (Z.to_nat (k - 1) < length str)%nat) by (unfold fsize in Hk; lia).
  replace (Z.to_nat k) with (S (Z.to_nat (k - 1))) in E by lia.
  rewrite (rev_firstn_succ 0 str _ Hm) in E. injection E as E1 E2.
  repeat split; auto. unfold str_at.
  destruct (Z.ltb_spec (k - 1) (fsize str)); [exact E1|lia].
Qed.

(** The backward scan of the code against the scan of the spec.  When the
    spec finds the opening bracket at [j], every copy stops there with
    balance 0.  When the spec runs below the start, [i] wraps around to
    [SIZE_MAX] and every copy leaves through [return INT_INVL] (written
    [return 1] in the two other copies). *)
Lemma scan_backward_spec (v : copy) (str : list Z) (past : Z) (behind : list Z) :
  forall (n : nat) (k b : Z),
    fsize str < SIZE_MAX -> 0 <= k <= fsize str ->
    rev (firstn (Z.to_nat k) str) = behind ->
    1 <= b -> b + Z.of_nat (length behind) <= SIZE_MAX ->
    (length behind <= n)%nat ->
    match spec_backward behind (k - 1) b with
    | Some j =>
        scan_backward v str past n k b = Some (inr (j, 0))
        /\ 0 <= j < k /\ str_at str past j = byte "["
    | None => exists b', scan_backward v str past n k b = Some (inl (SIZE_MAX, b'))
    end.
Proof.
  induction behind as [|x behind IH]; intros n k b Hs Hk E Hb Hbl Hn.
  - assert (k = 0) as ->.
    { apply (f_equal (@length Z)) in E. rewrite length_rev, length_firstn in E.
      simpl in E. unfold fsize in Hk. lia. }
    simpl spec_forward. rewrite scan_backward_eq. cbv zeta.
    rewrite size_t_underflow.
    assert (G : underflowed v (fsize str) SIZE_MAX = true).
    { destruct v; simpl; [apply Z.geb_le|apply Z.geb_le|apply Z.gtb_lt]; lia. }
    rewrite G. now exists b.
  - simpl length in Hbl, Hn.
    destruct (str_at_behind str past k x behind Hk E) as (H1 & Hat & E').
    assert (Hi : size_t (k - 1) = k - 1) by (apply size_t_small; lia).
    rewrite scan_backward_eq. cbv zeta. rewrite Hi, Hat.
    assert (G : underflowed v (fsize str) (k - 1) = false).
    { destruct v; simpl; rewrite ?Z.geb_leb, ?Z.gtb_ltb;
        (apply Z.leb_gt || apply Z.ltb_ge); lia. }
    rewrite G, (backward_update v x b) by lia.
    simpl spec_backward.
    set (b' := if x =? byte "]" then b + 1 else if x =? byte "[" then b - 1 else b).
    assert (Hb' : b - 1 <= b' <= b + 1).
    { subst b'. destruct (x =? byte "]"), (x =? byte "["); lia. }
    destruct (Z.eqb_spec b' 0) as [Hz|Hnz]; simpl negb; cbv iota.
    + rewrite Hz. repeat split; try lia.
      rewrite Hat. subst b'. norm_bytes.
      destruct (Z.eqb_spec x 93); [lia|]. destruct (Z.eqb_spec x 91); [auto|lia].
    + destruct n as [|n]; [lia|].
      assert (Hk' : 0 <= k - 1 <= fsize str) by lia.
      assert (Hb1 : 1 <= b') by lia.
      assert (Hbl' : b' + Z.of_nat (length behind) <= SIZE_MAX) by lia.
      assert (Hl : (length behind <= n)%nat) by lia.
      specialize (IH n (k - 1) b' Hs Hk' E' Hb1 Hbl' Hl).
      destruct (spec_backward behind (k - 1 - 1) b') as [j|]; [|exact IH].
      destruct IH as (R & Hj & Hc). repeat split; auto; lia.
Qed.

(** *** The scans come to an end

    The fuel given to the scans in [switch] is never used up: [Spin] does
    not occur on a program shorter than [SIZE_MAX] bytes. *)

Lemma scan_forward_returns (v : copy) (str : list Z) (past : Z) (n : nat) :
  forall (k b : Z) (reads : list Z),
    fsize str <= SIZE_MAX -> 0 <= k < fsize str ->
    fsize str - k - 1 <= Z.of_nat n ->
    scan_forward v str past n k b reads <> None.
Proof.
  induction n as [|n IH]; intros k b reads Hs Hk Hn;
    rewrite scan_forward_eq; cbv zeta; rewrite size_t_small by lia;
    destruct (forward_more v (fsize str) (k + 1)) eqn:G;
    try (rewrite andb_false_r; discriminate);
    (assert (Hlt : k + 1 < fsize str)
      by (destruct v; simpl in G; try rewrite size_t_small in G by lia;
          apply Z.ltb_lt in G; lia)).
  - lia.
  - rewrite andb_true_r.
    match goal with |- context [negb ?x] => destruct x end; simpl;
      [discriminate|].
    apply IH; lia.
Qed.

Lemma scan_backward_returns (v : copy) (str : list Z) (past : Z) (n : nat) :
  forall k b : Z,
    fsize str < SIZE_MAX -> 0 <= k < fsize str -> k <= Z.of_nat n ->
    scan_backward v str past n k b <> None.
Proof.
  induction n as [|n IH]; intros k b Hs Hk Hn;
    rewrite scan_backward_eq; cbv zeta;
    (destruct (Z.eq_dec k 0) as [->|Nk];
     [rewrite size_t_underflow;
      replace (underflowed v (fsize str) SIZE_MAX) with true
        by (symmetry; destruct v; simpl;
            [apply Z.geb_le|apply Z.geb_le|apply Z.gtb_lt]; lia);
      discriminate|]).
  - lia.
  - rewrite size_t_small by lia.
    destruct (underflowed v (fsize str) (k - 1)); [discriminate|].
    match goal with |- context [negb ?x] => destruct x end; simpl;
      [discriminate|].
    apply IH; lia.
Qed.

Lemma switch_returns (v : copy) (str : list Z) (past : Z) (s : state) :
  fsize str < SIZE_MAX -> 0 <= i s < fsize str ->
  switch v str past s <> Spin.
Proof.
  intros Hs Hi.
  assert (F : scan_forward v str past (scan_fuel str) (i s) 1 [] <> None).
  { apply scan_forward_returns; unfold scan_fuel, fsize in *; lia. }
  assert (B : scan_backward v str past (scan_fuel str) (i s) 1 <> None).
  { apply scan_backward_returns; unfold scan_fuel, fsize in *; lia. }
  unfold switch, move_left, move_right.
  destruct (scan_forward v str past (scan_fuel str) (i s) 1 [])
    as [[[? ?] ?]|]; [|congruence].
  destruct (scan_backward v str past (scan_fuel str) (i s) 1)
    as [[[? ?]|[? ?]]|]; [| |congruence];
    repeat match goal with
           | |- context [if ?x then _ else _] => destruct x
           | |- context [match ?x with _ => _ end] => destruct x
           end; discriminate.
Qed.

(** ** What a taken jump does to the loop *)

Lemma length_skipn_le {A : Type} (l : list A) (n : nat) :
  (length (skipn n l) <= length l)%nat.
Proof. rewrite length_skipn. lia. Qed.

Lemma length_behind_le {A : Type} (l : list A) (n : nat) :
  (length (rev (firstn n l)) <= length l)%nat.
Proof. rewrite length_rev, length_firstn. lia. Qed.

(** '[' with a zero cell, not on the last byte, and a closing bracket at
    [j]: the switch leaves [i] on [j] and [++i] moves on to [j + 1]. *)
Lemma open_jump (v : copy) (str : list Z) (past : Z) (s : state) (j : Z) :
  fsize str < SIZE_MAX -> 0 <= i s -> i s + 1 < fsize str ->
  str_at str past (i s) = byte "[" -> c (ptr s) = 0 ->
  matching_close str (i s) = Some j ->
  switch v str past s = Next {| i := j; bal := 0; ptr := ptr s; env := env s |}
  /\ step v str past s = Next {| i := j + 1; bal := 0; ptr := ptr s; env := env s |}
  /\ i s < j < fsize str /\ str_at str past j = byte "]".
Proof.
  intros Hs H0 H1 Hat Hc M. unfold matching_close in M.
  assert (Hne : skipn (Z.to_nat (i s + 1)) str <> []).
  { intros E. apply skipn_nil_inv in E. unfold fsize in H1. lia. }
  assert (Hl := length_skipn_le str (Z.to_nat (i s + 1))).
  assert (Hbl : 1 + Z.of_nat (length (skipn (Z.to_nat (i s + 1)) str)) <= SIZE_MAX).
  { unfold fsize in Hs. lia. }
  assert (Hn : (length (skipn (Z.to_nat (i s + 1)) str) <= scan_fuel str)%nat).
  { unfold scan_fuel. lia. }
  pose proof (scan_forward_spec v str past _ (scan_fuel str) (i s) 1 []
                Hs H0 eq_refl Hne (Z.le_refl 1) Hbl Hn) as P.
  rewrite M in P. destruct P as (rs & R & Hj & Hcl & _).
  assert (Sw : switch v str past s
               = Next {| i := j; bal := 0; ptr := ptr s; env := env s |}).
  { unfold switch. rewrite Hat, Hc, R. norm_bytes. reflexivity. }
  split; [exact Sw|]. split; [|split; assumption].
  unfold step. rewrite Sw. unfold set_i. simpl.
  rewrite size_t_small by lia. reflexivity.
Qed.

(** '[' with a zero cell, not on the last byte, and no closing bracket:
    in bf.c and brainfuck.c the scan stops on the last byte with a balance
    that is not 0, [++i] ends the loop and the function returns
    [INT_INVL]; the tape and the environment are those of the moment the
    '[' was dispatched. *)
Lemma open_unmatched (v : copy) (str : list Z) (past : Z) (s : state) (fuel : nat) :
  v <> brainfuck_brainfuck_c ->
  fsize str < SIZE_MAX -> 0 <= i s -> i s + 1 < fsize str ->
  str_at str past (i s) = byte "[" -> c (ptr s) = 0 ->
  matching_close str (i s) = None ->
  exists b, b <> 0 /\
    loop v str past (S fuel) s
    = Some (INT_INVL, {| i := fsize str; bal := b; ptr := ptr s; env := env s |}).
Proof.
  intros Hv Hs H0 H1 Hat Hc M. unfold matching_close in M.
  assert (Hne : skipn (Z.to_nat (i s + 1)) str <> []).
  { intros E. apply skipn_nil_inv in E. unfold fsize in H1. lia. }
  assert (Hl := length_skipn_le str (Z.to_nat (i s + 1))).
  assert (Hbl : 1 + Z.of_nat (length (skipn (Z.to_nat (i s + 1)) str)) <= SIZE_MAX).
  { unfold fsize in Hs. lia. }
  assert (Hn : (length (skipn (Z.to_nat (i s + 1)) str) <= scan_fuel str)%nat).
  { unfold scan_fuel. lia. }
  pose proof (scan_forward_spec v str past _ (scan_fuel str) (i s) 1 []
                Hs H0 eq_refl Hne (Z.le_refl 1) Hbl Hn) as P.
  rewrite M in P. destruct (P Hv) as (b & rs & R & Hb & _).
  exists b. split; [exact Hb|].
  rewrite (loop_next v str past fuel s
             {| i := fsize str; bal := b; ptr := ptr s; env := env s |}).
  - rewrite loop_exit by (simpl; lia). simpl.
    destruct (Z.eqb_spec b 0); [contradiction|reflexivity].
  - lia.
  - unfold step, switch. rewrite Hat, Hc, R. norm_bytes. simpl.
    unfold set_i. simpl. rewrite size_t_small by lia.
    now replace (fsize str - 1 + 1) with (fsize str) by lia.
Qed.

(** ']' with a nonzero cell and an opening bracket at [j]: the switch
    leaves [i] on [j] itself, and [++i] moves on to [j + 1], the first
    byte of the loop body. *)
Lemma close_jump (v : copy) (str : list Z) (past : Z) (s : state) (j : Z) :
  fsize str < SIZE_MAX -> 0 <= i s < fsize str ->
  str_at str past (i s) = byte "]" -> c (ptr s) <> 0 ->
  matching_open str (i s) = Some j ->
  switch v str past s = Next {| i := j; bal := 0; ptr := ptr s; env := env s |}
  /\ step v str past s = Next {| i := j + 1; bal := 0; ptr := ptr s; env := env s |}
  /\ 0 <= j < i s /\ str_at str past j = byte "[".
Proof.
  intros Hs Hi Hat Hc M. unfold matching_open in M.
  assert (Hl := length_behind_le str (Z.to_nat (i s))).
  assert (Hbl : 1 + Z.of_nat (length (rev (firstn (Z.to_nat (i s)) str))) <= SIZE_MAX).
  { unfold fsize in Hs. lia. }
  assert (Hn : (length (rev (firstn (Z.to_nat (i s)) str)) <= scan_fuel str)%nat).
  { unfold scan_fuel. lia. }
  assert (Hi' : 0 <= i s <= fsize str) by lia.
  pose proof (scan_backward_spec v str past _ (scan_fuel str) (i s) 1
                Hs Hi' eq_refl (Z.le_refl 1) Hbl Hn) as P.
  rewrite M in P. destruct P as (R & Hj & Hop).
  assert (Hnz : (c (ptr s) =? 0) = false) by (apply Z.eqb_neq; exact Hc).
  assert (Sw : switch v str past s
               = Next {| i := j; bal := 0; ptr := ptr s; env := env s |}).
  { unfold switch. rewrite Hat, Hnz, R. norm_bytes. reflexivity. }
  split; [exact Sw|]. split; [|split; assumption].
  unfold step. rewrite Sw. unfold set_i. simpl.
  rewrite size_t_small by lia. reflexivity.
Qed.

(** ']' with a nonzero cell and no opening bracket: [i] wraps around and
    the function returns [INT_INVL] from inside the scan. *)
Lemma close_unmatched (v : copy) (str : list Z) (past : Z) (s : state) (fuel : nat) :
  fsize str < SIZE_MAX -> 0 <= i s < fsize str ->
  str_at str past (i s) = byte "]" -> c (ptr s) <> 0 ->
  matching_open str (i s) = None ->
  exists b,
    loop v str past (S fuel) s
    = Some (INT_INVL, {| i := SIZE_MAX; bal := b; ptr := ptr s; env := env s |}).
Proof.
  intros Hs Hi Hat Hc M. unfold matching_open in M.
  assert (Hl := length_behind_le str (Z.to_nat (i s))).
  assert (Hbl : 1 + Z.of_nat (length (rev (firstn (Z.to_nat (i s)) str))) <= SIZE_MAX).
  { unfold fsize in Hs. lia. }
  assert (Hn : (length (rev (firstn (Z.to_nat (i s)) str)) <= scan_fuel str)%nat).
  { unfold scan_fuel. lia. }
  assert (Hi' : 0 <= i s <= fsize str) by lia.
  pose proof (scan_backward_spec v str past _ (scan_fuel str) (i s) 1
                Hs Hi' eq_refl (Z.le_refl 1) Hbl Hn) as P.
  rewrite M in P. destruct P as (b & P). exists b.
  assert (Hnz : (c (ptr s) =? 0) = false) by (apply Z.eqb_neq; exact Hc).
  apply loop_return; [lia|].
  unfold step, switch. rewrite Hat, Hnz, P. norm_bytes. reflexivity.
Qed.

(** ** Running a given program text *)

(** Evaluates [str[i]] in a [step] on a program that is given as a
    literal, and then the tests on that byte. *)
Ltac dispatch :=
  unfold step, switch; cbn [i bal ptr env];
  match goal with
  | |- context [str_at ?p ?q ?k] =>
      let x := eval vm_compute in (str_at p q k) in
      change (str_at p q k) with x
  end;
  norm_bytes; cbn [Z.eqb Pos.eqb].

Ltac known_length :=
  match goal with
  | |- context [fsize ?p] =>
      let x := eval vm_compute in (fsize p) in change (fsize p) with x
  end.

Lemma test_zero (x : Z) : x = 0 -> (x =? 0) = true.
Proof. intros ->. reflexivity. Qed.

Lemma test_nonzero (x : Z) : x <> 0 -> (x =? 0) = false.
Proof. apply Z.eqb_neq. Qed.

Section FourPrograms.

Variable past : Z.
Variable t : node.
Variable w : world.

(** ']' alone, zero cell: the bracket is passed over, the run succeeds. *)
Lemma close_alone_zero (fuel : nat) :
  c t = 0 ->
  interpret bf_c (bytes "]") past (S fuel) t w
  = Some (INT_SUCC, {| i := 1; bal := 0; ptr := t; env := w |}).
Proof.
  intros Hc. unfold interpret.
  rewrite (loop_next _ _ _ _ _ {| i := 1; bal := 0; ptr := t; env := w |}).
  - now rewrite loop_exit by (known_length; simpl; lia).
  - known_length. simpl. lia.
  - dispatch. now rewrite (test_zero _ Hc).
Qed.

(** ']' alone, nonzero cell: the backward scan underflows. *)
Lemma close_alone_nonzero (fuel : nat) :
  c t <> 0 ->
  interpret bf_c (bytes "]") past (S fuel) t w
  = Some (INT_INVL, {| i := SIZE_MAX; bal := 1; ptr := t; env := w |}).
Proof.
  intros Hc. unfold interpret. apply loop_return.
  - known_length. simpl. lia.
  - dispatch. now rewrite (test_nonzero _ Hc).
Qed.

(** '[' alone, nonzero cell: the bracket is passed over, the run
    succeeds. *)
Lemma open_alone_nonzero (fuel : nat) :
  c t <> 0 ->
  interpret bf_c (bytes "[") past (S fuel) t w
  = Some (INT_SUCC, {| i := 1; bal := 0; ptr := t; env := w |}).
Proof.
  intros Hc. unfold interpret.
  rewrite (loop_next _ _ _ _ _ {| i := 1; bal := 0; ptr := t; env := w |}).
  - now rewrite loop_exit by (known_length; simpl; lia).
  - known_length. simpl. lia.
  - dispatch. now rewrite (test_nonzero _ Hc).
Qed.

(** "[[]", zero cell: the forward scan from the first bracket stops on
    the last byte with balance 1. *)
Lemma open_open_close_zero (fuel : nat) :
  c t = 0 ->
  interpret bf_c (bytes "[[]") past (S fuel) t w
  = Some (INT_INVL, {| i := 3; bal := 1; ptr := t; env := w |}).
Proof.
  intros Hc. unfold interpret.
  rewrite (loop_next _ _ _ _ _ {| i := 3; bal := 1; ptr := t; env := w |}).
  - now rewrite loop_exit by (known_length; simpl; lia).
  - known_length. simpl. lia.
  - dispatch. now rewrite (test_zero _ Hc).
Qed.

(** "[]]", zero cell: the first bracket jumps over its partner, the last
    bracket is passed over, the run succeeds. *)
Lemma open_close_close_zero (fuel : nat) :
  c t = 0 ->
  interpret bf_c (bytes "[]]") past (S (S fuel)) t w
  = Some (INT_SUCC, {| i := 3; bal := 0; ptr := t; env := w |}).
Proof.
  intros Hc. unfold interpret.
  rewrite (loop_next _ _ _ _ _ {| i := 2; bal := 0; ptr := t; env := w |}).
  - rewrite (loop_next _ _ _ _ _ {| i := 3; bal := 0; ptr := t; env := w |}).
    + now rewrite loop_exit by (known_length; simpl; lia).
    + known_length. simpl. lia.
    + dispatch. now rewrite (test_zero _ Hc).
  - known_length. simpl. lia.
  - dispatch. now rewrite (test_zero _ Hc).
Qed.

(** "[[]", nonzero cell: both opening brackets are passed over and the
    closing one jumps back onto itself for ever. *)
Lemma open_open_close_spins (b : Z) :
  c t <> 0 ->
  forall fuel, loop bf_c (bytes "[[]") past fuel
                 {| i := 2; bal := b; ptr := t; env := w |} = None.
Proof.
  intros Hc fuel. revert b. induction fuel as [|fuel IH]; intros b; [reflexivity|].
  rewrite (loop_next _ _ _ _ _ {| i := 2; bal := 0; ptr := t; env := w |}).
  - apply IH.
  - known_length. simpl. lia.
  - dispatch. now rewrite (test_nonzero _ Hc).
Qed.

Lemma open_open_close_nonzero (fuel : nat) :
  c t <> 0 -> interpret bf_c (bytes "[[]") past fuel t w = None.
Proof.
  intros Hc. unfold interpret.
  destruct fuel as [|fuel]; [reflexivity|].
  rewrite (loop_next _ _ _ _ _ {| i := 1; bal := 0; ptr := t; env := w |}).
  - destruct fuel as [|fuel]; [reflexivity|].
    rewrite (loop_next _ _ _ _ _ {| i := 2; bal := 0; ptr := t; env := w |}).
    + now apply open_open_close_spins.
    + known_length. simpl. lia.
    + dispatch. now rewrite (test_nonzero _ Hc).
  - known_length. simpl. lia.
  - dispatch. now rewrite (test_nonzero _ Hc).
Qed.

(** "[]]", nonzero cell: the first closing bracket jumps back onto itself
    for ever. *)
Lemma open_close_close_spins (b : Z) :
  c t <> 0 ->
  forall fuel, loop bf_c (bytes "[]]") past fuel
                 {| i := 1; bal := b; ptr := t; env := w |} = None.
Proof.
  intros Hc fuel. revert b. induction fuel as [|fuel IH]; intros b; [reflexivity|].
  rewrite (loop_next _ _ _ _ _ {| i := 1; bal := 0; ptr := t; env := w |}).
  - apply IH.
  - known_length. simpl. lia.
  - dispatch. now rewrite (test_nonzero _ Hc).
Qed.

Lemma open_close_close_nonzero (fuel : nat) :
  c t <> 0 -> interpret bf_c (bytes "[]]") past fuel t w = None.
Proof.
  intros Hc. unfold interpret.
  destruct fuel as [|fuel]; [reflexivity|].
  rewrite (loop_next _ _ _ _ _ {| i := 1; bal := 0; ptr := t; env := w |}).
  - now apply open_close_close_spins.
  - known_length. simpl. lia.
  - dispatch. now rewrite (test_nonzero _ Hc).
Qed.

End FourPrograms.

(** ** Unmatched brackets *)

(** C1 at its failing inputs.  [main] calls [interpret] on a fresh node,
    whose cell is 0.  On the program ']' the bracket is passed over
    because the cell is 0: no scan is made, [bal] is still 0 after the
    loop and bf.c returns [INT_SUCC], whatever the input and whatever lies
    after the buffer.  On "[]]" the first bracket jumps over its partner
    and the last one is passed over in the same way.  Neither program
    returns [INT_INVL], however long it is run, although the comment
    before [interpret] promises 1 for an invalid program and the comment
    on its last line calls a program invalid if all brackets do not match
    at the end. *)
Theorem unmatched_close_bracket_is_accepted (past : Z) (w : world) :
  (forall fuel,
      interpret bf_c (bytes "]") past (S fuel) fresh w
      = Some (INT_SUCC, {| i := 1; bal := 0; ptr := fresh; env := w |}))
  /\ (forall fuel,
         interpret bf_c (bytes "[]]") past (S (S fuel)) fresh w
         = Some (INT_SUCC, {| i := 3; bal := 0; ptr := fresh; env := w |}))
  /\ (forall fuel s,
         interpret bf_c (bytes "]") past fuel fresh w <> Some (INT_INVL, s)
         /\ interpret bf_c (bytes "[]]") past fuel fresh w <> Some (INT_INVL, s)).
Proof.
  assert (H1 : forall fuel,
             interpret bf_c (bytes "]") past (S fuel) fresh w
             = Some (INT_SUCC, {| i := 1; bal := 0; ptr := fresh; env := w |}))
    by (intros fuel; now apply close_alone_zero).
  assert (H2 : forall fuel,
             interpret bf_c (bytes "[]]") past (S (S fuel)) fresh w
             = Some (INT_SUCC, {| i := 3; bal := 0; ptr := fresh; env := w |}))
    by (intros fuel; now apply open_close_close_zero).
  split; [exact H1|]. split; [exact H2|].
  intros fuel s. split; intros E; unfold interpret in *.
  - apply (loop_more_fuel _ _ _ _ (S fuel)) in E; [|lia].
    rewrite H1 in E. discriminate E.
  - apply (loop_more_fuel _ _ _ _ (S (S fuel))) in E; [|lia].
    rewrite H2 in E. discriminate E.
Qed.

(** When bf.c does reject a program.  For every program and every state
    of the loop: a ']' dispatched on a nonzero cell with no '[' to match
    it makes the function return [INT_INVL]; so does a '[', not the last
    byte, dispatched on a zero cell with no ']' to match it.  For the four
    programs, with any input and any byte after the buffer:
    ']' returns [INT_INVL] on a nonzero cell and [INT_SUCC] on a zero one;
    "[[]" returns [INT_INVL] on a zero cell and never returns on a nonzero
    one; "[]]" returns [INT_SUCC] on a zero cell and never returns on a
    nonzero one; '[' returns [INT_SUCC] on a nonzero cell. *)
Theorem unmatched_bracket_rejected_when_its_jump_is_taken :
  (forall str past s fuel,
      fsize str < SIZE_MAX -> 0 <= i s < fsize str ->
      str_at str past (i s) = byte "]" -> c (ptr s) <> 0 ->
      matching_open str (i s) = None ->
      exists b,
        loop bf_c str past (S fuel) s
        = Some (INT_INVL, {| i := SIZE_MAX; bal := b; ptr := ptr s; env := env s |}))
  /\ (forall str past s fuel,
      fsize str < SIZE_MAX -> 0 <= i s -> i s + 1 < fsize str ->
      str_at str past (i s) = byte "[" -> c (ptr s) = 0 ->
      matching_close str (i s) = None ->
      exists b, b <> 0 /\
        loop bf_c str past (S fuel) s
        = Some (INT_INVL, {| i := fsize str; bal := b; ptr := ptr s; env := env s |}))
  /\ (forall past t w fuel,
      (c t <> 0 ->
       interpret bf_c (bytes "]") past (S fuel) t w
       = Some (INT_INVL, {| i := SIZE_MAX; bal := 1; ptr := t; env := w |}))
      /\ (c t = 0 ->
          interpret bf_c (bytes "]") past (S fuel) t w
          = Some (INT_SUCC, {| i := 1; bal := 0; ptr := t; env := w |}))
      /\ (c t = 0 ->
          interpret bf_c (bytes "[[]") past (S fuel) t w
          = Some (INT_INVL, {| i := 3; bal := 1; ptr := t; env := w |}))
      /\ (c t <> 0 -> interpret bf_c (bytes "[[]") past fuel t w = None)
      /\ (c t = 0 ->
          interpret bf_c (bytes "[]]") past (S (S fuel)) t w
          = Some (INT_SUCC, {| i := 3; bal := 0; ptr := t; env := w |}))
      /\ (c t <> 0 -> interpret bf_c (bytes "[]]") past fuel t w = None)
      /\ (c t <> 0 ->
          interpret bf_c (bytes "[") past (S fuel) t w
          = Some (INT_SUCC, {| i := 1; bal := 0; ptr := t; env := w |}))).
Proof.
  split; [|split].
  - intros. now apply close_unmatched.
  - intros. apply open_unmatched; auto. discriminate.
  - intros past t w fuel. repeat split; intros Hc.
    + now apply close_alone_nonzero.
    + now apply close_alone_zero.
    + now apply open_open_close_zero.
    + now apply open_open_close_nonzero.
    + now apply open_close_close_zero.
    + now apply open_close_close_nonzero.
    + now apply open_alone_nonzero.
Qed.

Lemma unmatched_bracket_rejected_when_its_jump_is_taken_witness :
  (exists b,
     loop bf_c (bytes "+]") 0 1
       {| i := 1; bal := 0; ptr := set_c 1 fresh; env := console [] |}
     = Some (INT_INVL,
             {| i := SIZE_MAX; bal := b; ptr := set_c 1 fresh; env := console [] |}))
  /\ interpret bf_c (bytes "[[]") 0 1 fresh (console [])
     = Some (INT_INVL, {| i := 3; bal := 1; ptr := fresh; env := console [] |}).
Proof.
  split.
  - apply (proj1 unmatched_bracket_rejected_when_its_jump_is_taken
             (bytes "+]") 0
             {| i := 1; bal := 0; ptr := set_c 1 fresh; env := console [] |} 0%nat).
    + unfold fsize, SIZE_MAX. simpl. lia.
    + unfold fsize. simpl. lia.
    + reflexivity.
    + simpl. lia.
    + reflexivity.
  - apply (proj2 (proj2 unmatched_bracket_rejected_when_its_jump_is_taken)
             0 fresh (console []) 0%nat).
    reflexivity.
Defined.

(** C2 at its failing input.  In bf.c a '[' on the last byte of the
    program, dispatched on a zero cell, has no closing bracket, and the
    scan runs past the end at once; but the scan reads [str[i]] before it
    tests [i < fsize - 1], so it reads [str[fsize]], outside the buffer.
    When a ']' happens to lie there the balance drops to 0 and the
    function returns [INT_SUCC]; with any other byte there it returns
    [INT_INVL]. *)
Theorem open_on_last_byte_matches_byte_past_end :
  matching_close (bytes "[") 0 = None
  /\ interpret bf_c (bytes "[") (byte "]") 1 fresh (console [])
     = Some (INT_SUCC, {| i := 2; bal := 0; ptr := fresh; env := console [] |})
  /\ forall past, exists b,
       interpret bf_c (bytes "[") past 1 fresh (console [])
       = Some (if past =? byte "]" then INT_SUCC else INT_INVL,
               {| i := 2; bal := b; ptr := fresh; env := console [] |}).
Proof.
  split; [reflexivity|]. split; [reflexivity|].
  intros past.
  assert (E : exists b,
             step bf_c (bytes "[") past
               {| i := 0; bal := 0; ptr := fresh; env := console [] |}
             = Next {| i := 2; bal := b; ptr := fresh; env := console [] |}
             /\ (b =? 0) = (past =? byte "]")).
  { unfold step, switch, scan_fuel. cbn -[Z.eqb]. rewrite andb_false_r.
    eexists. split; [reflexivity|]. norm_bytes.
    destruct (Z.eqb_spec past 93) as [->|N]; [reflexivity|].
    destruct (Z.eqb_spec past 91) as [->|N']; reflexivity. }
  destruct E as (b & E & Hb). exists b. unfold interpret.
  rewrite (loop_next bf_c (bytes "[") past 0
             {| i := 0; bal := 0; ptr := fresh; env := console [] |}
             {| i := 2; bal := b; ptr := fresh; env := console [] |}
             (eq_refl : 0 < 1) E).
  rewrite loop_exit by (simpl; unfold fsize; simpl; lia).
  simpl bal. now rewrite Hb.
Qed.

(** C3, as stated, fails: after a backward jump the next instruction
    dispatched is not the '['.  In "[-]", with 2 in the cell, the ']' at
    index 2 has its '[' at index 0; one iteration of the loop later [i]
    is 1 and the byte dispatched next is '-'. *)
Lemma backward_jump_does_not_dispatch_open :
  matching_open (bytes "[-]") 2 = Some 0
  /\ step bf_c (bytes "[-]") 0
       {| i := 2; bal := 0; ptr := set_c 2 fresh; env := console [] |}
     = Next {| i := 1; bal := 0; ptr := set_c 2 fresh; env := console [] |}
  /\ str_at (bytes "[-]") 0 1 = byte "-"
  /\ str_at (bytes "[-]") 0 1 <> byte "[".
Proof. repeat split; try reflexivity. vm_compute. discriminate. Qed.

(** C3, amended.  When ']' is dispatched on a nonzero cell and the '['
    that matches it is at [j], the backward scan leaves [i] on [j] itself
    with balance 0, and the [++i] of the [for] loop then moves [i] to
    [j + 1]: the next instruction dispatched is the first byte of the loop
    body, the '[' is not dispatched again.  Tape and environment are
    untouched.  This holds in every copy. *)
Theorem backward_jump_resumes_after_open (v : copy) (str : list Z) (past : Z)
  (s : state) (j : Z) :
  fsize str < SIZE_MAX -> 0 <= i s < fsize str ->
  str_at str past (i s) = byte "]" -> c (ptr s) <> 0 ->
  matching_open str (i s) = Some j ->
  switch v str past s = Next {| i := j; bal := 0; ptr := ptr s; env := env s |}
  /\ 0 <= j < i s /\ str_at str past j = byte "["
  /\ forall fuel,
       loop v str past (S fuel) s
       = loop v str past fuel {| i := j + 1; bal := 0; ptr := ptr s; env := env s |}.
Proof.
  intros Hs Hi Hat Hc M.
  destruct (close_jump v str past s j Hs Hi Hat Hc M) as (Sw & St & Hj & Hop).
  repeat split; try assumption; try lia.
  intros fuel. apply loop_next; [lia|exact St].
Qed.

Lemma backward_jump_resumes_after_open_witness :
  switch bf_c (bytes "[-]") 0
    {| i := 2; bal := 0; ptr := set_c 2 fresh; env := console [] |}
  = Next {| i := 0; bal := 0; ptr := set_c 2 fresh; env := console [] |}.
Proof.
  apply (backward_jump_resumes_after_open bf_c (bytes "[-]") 0
           {| i := 2; bal := 0; ptr := set_c 2 fresh; env := console [] |} 0).
  - unfold fsize, SIZE_MAX. simpl. lia.
  - unfold fsize. simpl. lia.
  - reflexivity.
  - simpl. lia.
  - reflexivity.
Defined.

(** ** Reads of the program text by the forward scan *)

(** In bf.c and brainfuck.c a forward scan that does not start on the
    last byte reads inside the buffer only. *)
Lemma forward_reads_in_bounds (v : copy) (str : list Z) (past : Z) (k : Z) :
  v <> brainfuck_brainfuck_c ->
  fsize str < SIZE_MAX -> 0 <= k -> k + 1 < fsize str ->
  exists j b rs,
    scan_forward v str past (scan_fuel str) k 1 [] = Some (j, b, rs)
    /\ in_bounds str rs.
Proof.
  intros Hv Hs H0 H1.
  assert (Hne : skipn (Z.to_nat (k + 1)) str <> []).
  { intros E. apply skipn_nil_inv in E. unfold fsize in H1. lia. }
  assert (Hl := length_skipn_le str (Z.to_nat (k + 1))).
  assert (Hbl : 1 + Z.of_nat (length (skipn (Z.to_nat (k + 1)) str)) <= SIZE_MAX).
  { unfold fsize in Hs. lia. }
  assert (Hn : (length (skipn (Z.to_nat (k + 1)) str) <= scan_fuel str)%nat).
  { unfold scan_fuel. lia. }
  pose proof (scan_forward_spec v str past _ (scan_fuel str) k 1 []
                Hs H0 eq_refl Hne (Z.le_refl 1) Hbl Hn) as P.
  destruct (spec_forward _ _ _) as [j|].
  - destruct P as (rs & R & _ & _ & Hrs). now exists j, 0, rs.
  - destruct (P Hv) as (b & rs & R & _ & Hrs). now exists (fsize str - 1), b, rs.
Qed.

(** In every copy a forward scan that starts on the last byte makes one
    read, at index [fsize], and stops. *)
Lemma forward_reads_from_last_byte (v : copy) (str : list Z) (past : Z) (k : Z) :
  fsize str < SIZE_MAX -> 0 <= k -> k + 1 = fsize str ->
  exists b,
    scan_forward v str past (scan_fuel str) k 1 [] = Some (fsize str, b, [fsize str])
    /\ ~ in_bounds str [fsize str].
Proof.
  intros Hs H0 H1. rewrite scan_forward_eq. cbv zeta.
  rewrite size_t_small by lia. rewrite H1.
  assert (G : forward_more v (fsize str) (fsize str) = false).
  { destruct v; simpl; try rewrite size_t_small by lia; apply Z.ltb_ge; lia. }
  rewrite G, andb_false_r. eexists. split; [reflexivity|].
  intros F. apply Forall_inv in F. lia.
Qed.

(** C8 at its failing input.  bf.c: for the program '[', dispatched on a
    zero cell, the scan reads index 1 of a buffer of 1 byte.
    brainfuck/brainfuck.c, whose loop condition is [i < fsize]: for "[+"
    the scan reads index 1 and then index 2 of a buffer of 2 bytes. *)
Theorem forward_scan_reads_past_the_end (past : Z) :
  (exists b,
     scan_forward bf_c (bytes "[") past (scan_fuel (bytes "[")) 0 1 []
     = Some (1, b, [1]))
  /\ ~ in_bounds (bytes "[") [1]
  /\ (exists b,
       scan_forward brainfuck_brainfuck_c (bytes "[+") past
         (scan_fuel (bytes "[+")) 0 1 []
       = Some (2, b, [1; 2]))
  /\ ~ in_bounds (bytes "[+") [1; 2].
Proof.
  repeat split.
  - eexists. cbn -[Z.eqb]. rewrite andb_false_r. reflexivity.
  - intros F. apply Forall_inv in F. vm_compute in F. destruct F as [_ F].
    discriminate F.
  - eexists. cbn -[Z.eqb]. rewrite andb_false_r. reflexivity.
  - intros F. apply Forall_inv_tail, Forall_inv in F. vm_compute in F.
    destruct F as [_ F]. discriminate F.
Qed.

(** ** The tape keeps what was written *)

Lemma cell_set_c (t : node) (y k : Z) : k <> 0 -> cell (set_c y t) k = cell t k.
Proof.
  intros H. unfold cell, set_c. simpl.
  destruct (Z.eqb_spec k 0); [contradiction|reflexivity].
Qed.

(** Stepping to [prev]: the node that was [k] links away is now [k + 1]
    links away. *)
Lemma cell_left (l r : list Z) (x y k v : Z) :
  cell {| prev := y :: l; c := x; next := r |} k = Some v ->
  cell {| prev := l; c := y; next := x :: r |} (k + 1) = Some v.
Proof.
  unfold cell. simpl.
  destruct (Z.eqb_spec k 0) as [->|N0]; [auto|].
  destruct (Z.eqb_spec (k + 1) 0) as [E1|N1].
  - replace k with (-1) by lia. simpl. auto.
  - destruct (Z.ltb_spec 0 k) as [P|P].
    + destruct (Z.ltb_spec 0 (k + 1)); [|lia].
      replace (Z.to_nat (k + 1 - 1)) with (S (Z.to_nat (k - 1))) by lia. auto.
    + destruct (Z.ltb_spec 0 (k + 1)); [lia|].
      replace (Z.to_nat (- k - 1)) with (S (Z.to_nat (- (k + 1) - 1))) by lia. auto.
Qed.

(** Stepping to a new node allocated on the left. *)
Lemma cell_left_new (r : list Z) (x k v : Z) :
  cell {| prev := []; c := x; next := r |} k = Some v ->
  cell {| prev := []; c := 0; next := x :: r |} (k + 1) = Some v.
Proof.
  unfold cell. simpl.
  destruct (Z.eqb_spec k 0) as [->|N0]; [auto|].
  destruct (Z.ltb_spec 0 k) as [P|P].
  - destruct (Z.eqb_spec (k + 1) 0); [lia|].
    destruct (Z.ltb_spec 0 (k + 1)); [|lia].
    replace (Z.to_nat (k + 1 - 1)) with (S (Z.to_nat (k - 1))) by lia. auto.
  - destruct (Z.to_nat (- k - 1)); discriminate.
Qed.

(** Stepping to [next]. *)
Lemma cell_right (l r : list Z) (x y k v : Z) :
  cell {| prev := l; c := x; next := y :: r |} k = Some v ->
  cell {| prev := x :: l; c := y; next := r |} (k - 1) = Some v.
Proof.
  unfold cell. simpl.
  destruct (Z.eqb_spec k 0) as [->|N0]; [auto|].
  destruct (Z.eqb_spec (k - 1) 0) as [E1|N1].
  - replace k with 1 by lia. simpl. auto.
  - destruct (Z.ltb_spec 0 k) as [P|P].
    + destruct (Z.ltb_spec 0 (k - 1)); [|lia].
      replace (Z.to_nat (k - 1)) with (S (Z.to_nat (k - 1 - 1))) by lia. auto.
    + destruct (Z.ltb_spec 0 (k - 1)); [lia|].
      replace (Z.to_nat (- (k - 1) - 1)) with (S (Z.to_nat (- k - 1))) by lia. auto.
Qed.

(** Stepping to a new node allocated on the right. *)
Lemma cell_right_new (l : list Z) (x k v : Z) :
  cell {| prev := l; c := x; next := [] |} k = Some v ->
  cell {| prev := x :: l; c := 0; next := [] |} (k - 1) = Some v.
Proof.
  unfold cell. simpl.
  destruct (Z.eqb_spec k 0) as [->|N0]; [auto|].
  destruct (Z.ltb_spec 0 k) as [P|P].
  - destruct (Z.to_nat (k - 1)); discriminate.
  - destruct (Z.eqb_spec (k - 1) 0); [lia|].
    destruct (Z.ltb_spec 0 (k - 1)); [lia|].
    replace (Z.to_nat (- (k - 1) - 1)) with (S (Z.to_nat (- k - 1))) by lia. auto.
Qed.

(** One pass through the switch: every node of the list keeps its value,
    at its place relative to the moved pointer, except the node under the
    pointer when the instruction assigns to it. *)
Lemma switch_keeps_cells (v : copy) (str : list Z) (past : Z) (s s' : state)
  (k x : Z) :
  switch v str past s = Next s' ->
  cell (ptr s) k = Some x ->
  (k =? 0) && writes (str_at str past (i s)) = false ->
  cell (ptr s') (k - shift (str_at str past (i s))) = Some x.
Proof.
  unfold switch, shift, writes.
  set (ch := str_at str past (i s)). clearbody ch. norm_bytes.
  generalize (scan_forward v str past (scan_fuel str) (i s) 1 []) as fw.
  generalize (scan_backward v str past (scan_fuel str) (i s) 1) as bw.
  intros bw fw. destruct s as [pc b [l y r] w]. simpl.
  destruct (Z.eqb_spec ch 43) as [->|N1].
  { simpl. rewrite andb_true_r. intros E C K. injection E as <-. simpl.
    rewrite Z.sub_0_r.
    change {| prev := l; c := uchar (y + 1); next := r |}
      with (set_c (uchar (y + 1)) {| prev := l; c := y; next := r |}).
    rewrite cell_set_c; [exact C|]. now apply Z.eqb_neq. }
  destruct (Z.eqb_spec ch 45) as [->|N2].
  { simpl. rewrite andb_true_r. intros E C K. injection E as <-. simpl.
    rewrite Z.sub_0_r.
    change {| prev := l; c := uchar (y - 1); next := r |}
      with (set_c (uchar (y - 1)) {| prev := l; c := y; next := r |}).
    rewrite cell_set_c; [exact C|]. now apply Z.eqb_neq. }
  destruct (Z.eqb_spec ch 60) as [->|N3].
  { simpl. intros E C _. replace (k - -1) with (k + 1) by lia.
    unfold move_left in E. simpl in E. destruct l as [|z l].
    - destruct (malloc w); [|discriminate]. injection E as <-. simpl.
      now apply cell_left_new.
    - injection E as <-. simpl. now apply cell_left. }
  destruct (Z.eqb_spec ch 62) as [->|N4].
  { simpl. intros E C _.
    unfold move_right in E. simpl in E. destruct r as [|z r].
    - destruct (malloc w); [|discriminate]. injection E as <-. simpl.
      now apply cell_right_new.
    - injection E as <-. simpl. now apply cell_right. }
  destruct (Z.eqb_spec ch 46) as [->|N5].
  { simpl. intros E C _. rewrite Z.sub_0_r.
    destruct (putchar y w) as [q w'].
    destruct (checks_putchar v && (q =? EOF)); [discriminate|].
    injection E as <-. exact C. }
  destruct (Z.eqb_spec ch 44) as [->|N6].
  { simpl. rewrite andb_true_r. intros E C K. rewrite Z.sub_0_r.
    destruct (getchar w) as [q w']. injection E as <-. simpl.
    change {| prev := l; c := uchar q; next := r |}
      with (set_c (uchar q) {| prev := l; c := y; next := r |}).
    rewrite cell_set_c; [exact C|]. now apply Z.eqb_neq. }
  destruct (Z.eqb_spec ch 91) as [->|N7].
  { simpl. intros E C _. rewrite Z.sub_0_r.
    destruct (y =? 0).
    - destruct fw as [[[j b'] rs]|]; [|discriminate].
      injection E as <-. exact C.
    - injection E as <-. exact C. }
  destruct (Z.eqb_spec ch 93) as [->|N8].
  { simpl. intros E C _. rewrite Z.sub_0_r.
    destruct (negb (y =? 0)).
    - destruct bw as [[[j b']|[j b']]|]; try discriminate.
      injection E as <-. exact C.
    - injection E as <-. exact C. }
  simpl. intros E C _. rewrite Z.sub_0_r. injection E as <-. exact C.
Qed.

Lemma step_keeps_cells (v : copy) (str : list Z) (past : Z) (s s' : state)
  (k x : Z) :
  step v str past s = Next s' ->
  cell (ptr s) k = Some x ->
  (k =? 0) && writes (str_at str past (i s)) = false ->
  cell (ptr s') (k - shift (str_at str past (i s))) = Some x.
Proof.
  unfold step. destruct (switch v str past s) as [s1| |] eqn:Sw; try discriminate.
  intros E. injection E as <-. unfold set_i. simpl.
  now apply (switch_keeps_cells v).
Qed.

(** C9. Over any number of iterations of the loop, a node of the list
    keeps the value it holds for as long as no '+', '-' or ',' is
    dispatched while the pointer is on it: it is found again, with that
    value, at the distance given by the moves made since.  No instruction
    drops a node or resets one, and coming back to a node after any
    sequence of moves finds in it the value last written. *)
Theorem tape_persistence (v : copy) (str : list Z) (past : Z) (n : nat) :
  forall (s s' : state) (k x : Z),
    steps v str past n s = Some s' ->
    cell (ptr s) k = Some x ->
    assigned k (dispatched v str past n s) = false ->
    cell (ptr s') (k - drift (dispatched v str past n s)) = Some x.
Proof.
  induction n as [|n IH]; intros s s' k x R C A.
  - simpl in *. injection R as <-. now rewrite Z.sub_0_r.
  - simpl in R, A |- *.
    destruct (i s <? fsize str); [|discriminate].
    destruct (step v str past s) as [s1| |] eqn:St; try discriminate.
    apply orb_false_elim in A. destruct A as [A1 A2].
    replace (k - (shift (str_at str past (i s)) + drift (dispatched v str past n s1)))
      with (k - shift (str_at str past (i s)) - drift (dispatched v str past n s1))
      by lia.
    apply (IH s1 s' _ x R); [|exact A2].
    now apply (step_keeps_cells v str past s s1).
Qed.

Lemma tape_persistence_witness :
  cell {| prev := [1]; c := 5; next := [] |} 0 = Some 5.
Proof.
  apply (tape_persistence bf_c (bytes "<+>") 0 3
           {| i := 0; bal := 0; ptr := set_c 5 fresh; env := console [] |}
           {| i := 3; bal := 0; ptr := {| prev := [1]; c := 5; next := [] |};
              env := console [] |} 0 5);
    reflexivity.
Defined.

(** ** The echo program *)

Lemma uchar_small (x : Z) : 0 <= x <= 255 -> uchar x = x.
Proof. intros H. unfold uchar. apply Z.mod_small. lia. Qed.

Section Echo.

Variable past : Z.
Variable t : node.
Variable h : supply.

Local Abbreviation echo := (bytes ",[.,]").
Local Abbreviation at_ := (echo_state t h).
Local Abbreviation U := Unlimited.

Lemma echo_dot (q q' : supply) (b x : Z) (inp out : list Z) :
  1 <= x <= 255 -> take q = Some q' ->
  step bf_c echo past (at_ q 2 b x inp out) = Next (at_ q' 3 b x inp (out ++ [x])).
Proof.
  intros Hx Hq. unfold echo_state. dispatch. unfold putchar. cbn.
  rewrite Hq, (uchar_small x) by lia. cbn.
  destruct (Z.eqb_spec x EOF) as [E|_]; [unfold EOF in E; lia|]. reflexivity.
Qed.

Lemma echo_dot_rejected (b x : Z) (inp out : list Z) :
  step bf_c echo past (at_ (Limited 0) 2 b x inp out)
  = Return INT_IOERR (at_ (Limited 0) 2 b x inp out).
Proof. unfold echo_state. dispatch. reflexivity. Qed.

Lemma echo_comma (q : supply) (k b x y : Z) (inp out : list Z) :
  k = 0 \/ k = 3 -> 0 <= y <= 255 ->
  step bf_c echo past (at_ q k b x (y :: inp) out) = Next (at_ q (k + 1) b y inp out).
Proof.
  intros [->| ->] Hy; unfold echo_state; dispatch; cbn;
    rewrite (uchar_small y) by lia; reflexivity.
Qed.

Lemma echo_comma_eof (q : supply) (k b x : Z) (out : list Z) :
  k = 0 \/ k = 3 ->
  step bf_c echo past (at_ q k b x [] out) = Next (at_ q (k + 1) b 255 [] out).
Proof. intros [->| ->]; unfold echo_state; dispatch; reflexivity. Qed.

Lemma echo_open_enter (q : supply) (b x : Z) (inp out : list Z) :
  x <> 0 ->
  step bf_c echo past (at_ q 1 b x inp out) = Next (at_ q 2 b x inp out).
Proof.
  intros Hx. unfold echo_state. dispatch. cbn [c set_c].
  now rewrite (test_nonzero _ Hx).
Qed.

Lemma echo_open_skip (q : supply) (b : Z) (inp out : list Z) :
  step bf_c echo past (at_ q 1 b 0 inp out) = Next (at_ q 5 0 0 inp out).
Proof. unfold echo_state. dispatch. reflexivity. Qed.

Lemma echo_close_back (q : supply) (b x : Z) (inp out : list Z) :
  x <> 0 ->
  step bf_c echo past (at_ q 4 b x inp out) = Next (at_ q 2 0 x inp out).
Proof.
  intros Hx. unfold echo_state. dispatch. cbn [c set_c].
  now rewrite (test_nonzero _ Hx).
Qed.

Lemma echo_close_leave (q : supply) (b : Z) (inp out : list Z) :
  step bf_c echo past (at_ q 4 b 0 inp out) = Next (at_ q 5 b 0 inp out).
Proof. unfold echo_state. dispatch. reflexivity. Qed.

Lemma loop_next_echo (fuel : nat) (s s' : state) :
  step bf_c echo past s = Next s' -> (i s <? fsize echo) = true ->
  loop bf_c echo past (S fuel) s = loop bf_c echo past fuel s'.
Proof. intros E H. apply loop_next; [now apply Z.ltb_lt|exact E]. Qed.

Ltac go L := rewrite (loop_next_echo _ _ _ L) by reflexivity.

(** From the '.' with a nonzero byte in the cell, a zero byte ahead in
    the input: the bytes before it are written, in order, and the loop
    is left. *)
Lemma echo_until_zero (bs : list Z) :
  forall (x : Z) (out rest : list Z),
    1 <= x <= 255 -> Forall (fun y => 1 <= y <= 255) bs ->
    loop bf_c echo past (3 * length bs + 3) (at_ U 2 0 x (bs ++ 0 :: rest) out)
    = Some (INT_SUCC, at_ U 5 0 0 rest (out ++ x :: bs)).
Proof.
  induction bs as [|y bs IH]; intros x out rest Hx F.
  - simpl length. simpl Nat.add. simpl app.
    go (echo_dot U U 0 x (0 :: rest) out Hx eq_refl).
    go (echo_comma U 3 0 x 0 rest (out ++ [x]) (or_intror eq_refl) ltac:(lia)).
    go (echo_close_leave U 0 rest (out ++ [x])).
    reflexivity.
  - pose proof (Forall_inv F) as Hy. pose proof (Forall_inv_tail F) as F'.
    simpl in Hy.
    replace (3 * length (y :: bs) + 3)%nat
      with (S (S (S (3 * length bs + 3)))) by (simpl length; lia).
    simpl app.
    go (echo_dot U U 0 x (y :: bs ++ 0 :: rest) out Hx eq_refl).
    go (echo_comma U 3 0 x y (bs ++ 0 :: rest) (out ++ [x])
          (or_intror eq_refl) ltac:(lia)).
    go (echo_close_back U 0 y (bs ++ 0 :: rest) (out ++ [x]) ltac:(lia)).
    rewrite (IH y _ rest Hy F'). now rewrite <- app_assoc.
Qed.

Lemma echo_start (q : supply) (inp out : list Z) :
  {| i := 0; bal := 0; ptr := t;
     env := {| stdin := inp; stdout := out; wcap := q; heap := h |} |}
  = at_ q 0 0 (c t) inp out.
Proof. unfold echo_state, set_c. now destruct t. Qed.

(** The whole run on an input with a zero byte in it. *)
Lemma echo_stops_at_zero (bs rest out : list Z) :
  Forall (fun y => 1 <= y <= 255) bs ->
  interpret bf_c echo past (3 * length bs + 2) t
    {| stdin := bs ++ 0 :: rest; stdout := out; wcap := Unlimited; heap := h |}
  = Some (INT_SUCC,
          {| i := 5; bal := 0; ptr := set_c 0 t;
             env := {| stdin := rest; stdout := out ++ bs;
                       wcap := Unlimited; heap := h |} |}).
Proof.
  intros F. unfold interpret. rewrite echo_start. destruct bs as [|y bs].
  - simpl length. simpl Nat.add. simpl app.
    go (echo_comma U 0 0 (c t) 0 rest out (or_introl eq_refl) ltac:(lia)).
    go (echo_open_skip U 0 rest out).
    simpl. now rewrite app_nil_r.
  - pose proof (Forall_inv F) as Hy. pose proof (Forall_inv_tail F) as F'.
    simpl in Hy.
    replace (3 * length (y :: bs) + 2)%nat
      with (S (S (3 * length bs + 3))) by (simpl length; lia).
    simpl app.
    go (echo_comma U 0 0 (c t) y (bs ++ 0 :: rest) out
          (or_introl eq_refl) ltac:(lia)).
    go (echo_open_enter U 0 y (bs ++ 0 :: rest) out ltac:(lia)).
    now rewrite (echo_until_zero bs y out rest Hy F').
Qed.

(** With no zero byte left in the input the loop is never left: at the
    end of the input every ',' stores 255, which is not 0. *)
Lemma echo_spins (fuel : nat) :
  forall (b x : Z) (inp out : list Z),
    Forall (fun y => 1 <= y <= 255) inp ->
    (1 <= x <= 255 -> loop bf_c echo past fuel (at_ U 2 b x inp out) = None)
    /\ loop bf_c echo past fuel (at_ U 3 b x inp out) = None
    /\ (1 <= x <= 255 -> loop bf_c echo past fuel (at_ U 4 b x inp out) = None).
Proof.
  induction fuel as [|fuel IH]; intros b x inp out F;
    [repeat split; reflexivity|].
  split; [|split].
  - intros Hx. go (echo_dot U U b x inp out Hx eq_refl). now apply IH.
  - destruct inp as [|y inp].
    + go (echo_comma_eof U 3 b x out (or_intror eq_refl)).
      apply IH; [constructor|lia].
    + pose proof (Forall_inv F) as Hy. pose proof (Forall_inv_tail F) as F'.
      simpl in Hy.
      go (echo_comma U 3 b x y inp out (or_intror eq_refl) ltac:(lia)).
      now apply IH.
  - intros Hx. go (echo_close_back U b x inp out ltac:(lia)). now apply IH.
Qed.

(** The whole run on an input without a zero byte, every write being
    accepted. *)
Lemma echo_never_returns (bs out : list Z) (fuel : nat) :
  Forall (fun y => 1 <= y <= 255) bs ->
  interpret bf_c echo past fuel t
    {| stdin := bs; stdout := out; wcap := Unlimited; heap := h |}
  = None.
Proof.
  intros F. unfold interpret. rewrite echo_start.
  destruct fuel as [|fuel]; [reflexivity|].
  destruct bs as [|y bs].
  - go (echo_comma_eof U 0 0 (c t) out (or_introl eq_refl)).
    destruct fuel as [|fuel]; [reflexivity|].
    go (echo_open_enter U 0 255 [] out ltac:(lia)).
    apply (echo_spins fuel 0 255 [] out); [constructor|lia].
  - pose proof (Forall_inv F) as Hy. pose proof (Forall_inv_tail F) as F'.
    simpl in Hy.
    go (echo_comma U 0 0 (c t) y bs out (or_introl eq_refl) ltac:(lia)).
    destruct fuel as [|fuel]; [reflexivity|].
    go (echo_open_enter U 0 y bs out ltac:(lia)).
    now apply (echo_spins fuel 0 y bs out).
Qed.

(** At the end of the input, with [S m] writes left: the byte in the
    cell and then [m] bytes 255 are written before a write is
    rejected. *)
Lemma echo_after_eof (m : nat) :
  forall (x : Z) (out : list Z),
    1 <= x <= 255 ->
    loop bf_c echo past (3 * m + 4) (at_ (Limited (S m)) 2 0 x [] out)
    = Some (INT_IOERR, at_ (Limited 0) 2 0 255 [] (out ++ x :: repeat 255 m)).
Proof.
  induction m as [|m IH]; intros x out Hx.
  - simpl Nat.add.
    go (echo_dot (Limited 1) (Limited 0) 0 x [] out Hx eq_refl).
    go (echo_comma_eof (Limited 0) 3 0 x (out ++ [x]) (or_intror eq_refl)).
    go (echo_close_back (Limited 0) 0 255 [] (out ++ [x]) ltac:(lia)).
    apply loop_return; [reflexivity|]. apply echo_dot_rejected.
  - replace (3 * S m + 4)%nat with (S (S (S (3 * m + 4)))) by lia.
    go (echo_dot (Limited (S (S m))) (Limited (S m)) 0 x [] out Hx eq_refl).
    go (echo_comma_eof (Limited (S m)) 3 0 x (out ++ [x]) (or_intror eq_refl)).
    go (echo_close_back (Limited (S m)) 0 255 [] (out ++ [x]) ltac:(lia)).
    rewrite IH by lia. simpl repeat. now rewrite <- app_assoc.
Qed.

(** From the '.', no zero byte in the input and [m] more writes left
    than there are bytes to copy. *)
Lemma echo_until_rejected (m : nat) (bs : list Z) :
  forall (x : Z) (out : list Z),
    1 <= x <= 255 -> Forall (fun y => 1 <= y <= 255) bs ->
    loop bf_c echo past (3 * (length bs + m) + 4)
      (at_ (Limited (S (length bs + m))) 2 0 x bs out)
    = Some (INT_IOERR,
            at_ (Limited 0) 2 0 255 [] (out ++ x :: bs ++ repeat 255 m)).
Proof.
  induction bs as [|y bs IH]; intros x out Hx F.
  - now apply echo_after_eof.
  - pose proof (Forall_inv F) as Hy. pose proof (Forall_inv_tail F) as F'.
    simpl in Hy. simpl length.
    replace (3 * (S (length bs) + m) + 4)%nat
      with (S (S (S (3 * (length bs + m) + 4)))) by lia.
    go (echo_dot (Limited (S (S (length bs) + m))) (Limited (S (length bs + m)))
          0 x (y :: bs) out Hx eq_refl).
    go (echo_comma (Limited (S (length bs + m))) 3 0 x y bs (out ++ [x])
          (or_intror eq_refl) ltac:(lia)).
    go (echo_close_back (Limited (S (length bs + m))) 0 y bs (out ++ [x])
          ltac:(lia)).
    rewrite (IH y _ Hy F'). now rewrite <- app_assoc.
Qed.

(** The whole run on a nonempty input without a zero byte, with [m]
    more writes accepted than the input has bytes. *)
Lemma echo_then_255 (m : nat) (y : Z) (bs out : list Z) :
  Forall (fun y => 1 <= y <= 255) (y :: bs) ->
  interpret bf_c echo past (3 * (length bs + m) + 6) t
    {| stdin := y :: bs; stdout := out;
       wcap := Limited (S (length bs + m)); heap := h |}
  = Some (INT_IOERR,
          {| i := 2; bal := 0; ptr := set_c 255 t;
             env := {| stdin := []; stdout := out ++ y :: bs ++ repeat 255 m;
                       wcap := Limited 0; heap := h |} |}).
Proof.
  intros F. unfold interpret. rewrite echo_start.
  pose proof (Forall_inv F) as Hy. pose proof (Forall_inv_tail F) as F'.
  simpl in Hy.
  replace (3 * (length bs + m) + 6)%nat
    with (S (S (3 * (length bs + m) + 4))) by lia.
  go (echo_comma (Limited (S (length bs + m))) 0 0 (c t) y bs out
        (or_introl eq_refl) ltac:(lia)).
  go (echo_open_enter (Limited (S (length bs + m))) 0 y bs out ltac:(lia)).
  now rewrite (echo_until_rejected m bs y out Hy F').
Qed.

End Echo.




(** ** The three copies compared *)

(** bf.c and brainfuck.c differ in one place, the test of the result of
    [putchar]: an iteration of the loop is the same in both unless bf.c
    leaves with [INT_IOERR]. *)
Lemma step_bf_brainfuck (str : list Z) (past : Z) (s : state) :
  step bf_c str past s = Return INT_IOERR s
  \/ step brainfuck_c str past s = step bf_c str past s.
Proof.
  unfold step, switch.
  set (ch := str_at str past (i s)). clearbody ch.
  destruct (ch =? byte "+"); [now right|].
  destruct (ch =? byte "-"); [now right|].
  destruct (ch =? byte "<"); [now right|].
  destruct (ch =? byte ">"); [now right|].
  destruct (ch =? byte ".").
  - destruct (putchar (c (ptr s)) (env s)) as [r w]. simpl.
    destruct (r =? EOF); [now left|now right].
  - now right.
Qed.

Lemma loop_bf_brainfuck (str : list Z) (past : Z) (fuel : nat) :
  forall s : state,
    (forall s', loop bf_c str past fuel s <> Some (INT_IOERR, s')) ->
    loop brainfuck_c str past fuel s = loop bf_c str past fuel s.
Proof.
  induction fuel as [|fuel IH]; intros s H; [reflexivity|].
  simpl in H |- *. destruct (i s <? fsize str); [|reflexivity].
  destruct (step_bf_brainfuck str past s) as [E|E].
  - rewrite E in H. now contradiction (H s).
  - rewrite E. destruct (step bf_c str past s); auto.
Qed.

(** The backward scan of the subdirectory copy does what the backward scan of
    brainfuck.c does: the two tests [i > fsize] and [i >= fsize] differ
    for [i = fsize] only, which a scan that starts inside the program
    never reaches. *)
Lemma scan_backward_subdirectory_copy (str : list Z) (past : Z) (n : nat) :
  forall k b : Z,
    fsize str < SIZE_MAX -> 0 <= k <= fsize str ->
    1 <= b -> b + k <= SIZE_MAX ->
    scan_backward brainfuck_brainfuck_c str past n k b
    = scan_backward brainfuck_c str past n k b.
Proof.
  induction n as [|n IH]; intros k b Hs Hk Hb Hbk;
    rewrite !scan_backward_eq; cbv zeta.
  - destruct (Z.eq_dec k 0) as [->|Nk].
    + rewrite size_t_underflow. simpl.
      replace (SIZE_MAX >? fsize str) with true by (symmetry; apply Z.gtb_lt; lia).
      replace (SIZE_MAX >=? fsize str) with true by (symmetry; apply Z.geb_le; lia).
      reflexivity.
    + rewrite size_t_small by lia. simpl underflowed.
      rewrite Z.gtb_ltb, Z.geb_leb.
      replace (fsize str <? k - 1) with false by (symmetry; apply Z.ltb_ge; lia).
      replace (fsize str <=? k - 1) with false by (symmetry; apply Z.leb_gt; lia).
      rewrite (backward_update brainfuck_brainfuck_c), (backward_update brainfuck_c)
        by lia.
      reflexivity.
  - destruct (Z.eq_dec k 0) as [->|Nk].
    + rewrite size_t_underflow. simpl underflowed.
      replace (SIZE_MAX >? fsize str) with true by (symmetry; apply Z.gtb_lt; lia).
      replace (SIZE_MAX >=? fsize str) with true by (symmetry; apply Z.geb_le; lia).
      reflexivity.
    + rewrite size_t_small by lia. simpl underflowed.
      rewrite Z.gtb_ltb, Z.geb_leb.
      replace (fsize str <? k - 1) with false by (symmetry; apply Z.ltb_ge; lia).
      replace (fsize str <=? k - 1) with false by (symmetry; apply Z.leb_gt; lia).
      rewrite (backward_update brainfuck_brainfuck_c), (backward_update brainfuck_c)
        by lia.
      set (b' := if str_at str past (k - 1) =? byte "]" then b + 1
                 else if str_at str past (k - 1) =? byte "[" then b - 1 else b).
      assert (Hb' : b - 1 <= b' <= b + 1).
      { subst b'. destruct (str_at str past (k - 1) =? byte "]"),
          (str_at str past (k - 1) =? byte "["); lia. }
      destruct (Z.eqb_spec b' 0); simpl negb; cbv iota; [reflexivity|].
      apply IH; lia.
Qed.

Lemma every_open_matched_spec (str : list Z) (past : Z) :
  every_open_matched str = true ->
  forall k, 0 <= k < fsize str -> str_at str past k = byte "[" ->
            matching_close str k <> None.
Proof.
  intros H k Hk E. unfold every_open_matched in H.
  rewrite forallb_forall in H.
  assert (Hin : In (Z.to_nat k) (seq 0 (length str))).
  { apply in_seq. unfold fsize in Hk. lia. }
  specialize (H _ Hin). cbv beta in H. rewrite Z2Nat.id in H by lia.
  unfold str_at in E. destruct (Z.ltb_spec k (fsize str)); [|lia].
  rewrite E, Z.eqb_refl in H. simpl in H.
  destruct (matching_close str k); [discriminate|discriminate H].
Qed.

(** On a program in which every '[' has its ']', the switch of the subdirectory
    copy does what the switch of brainfuck.c does. *)
Lemma switch_subdirectory_copy (str : list Z) (past : Z) (s : state) :
  fsize str < SIZE_MAX -> every_open_matched str = true ->
  0 <= i s < fsize str ->
  switch brainfuck_brainfuck_c str past s = switch brainfuck_c str past s.
Proof.
  intros Hs Hm Hi. pose proof (every_open_matched_spec str past Hm) as Hm'.
  clear Hm. rename Hm' into Hm.
  destruct (Z.eq_dec (str_at str past (i s)) (byte "[")) as [Eo|No].
  { destruct (Z.eq_dec (c (ptr s)) 0) as [Ez|Nz].
    - specialize (Hm (i s) Hi Eo).
      destruct (matching_close str (i s)) as [j|] eqn:M; [|congruence].
      assert (H1 : i s + 1 < fsize str).
      { destruct (Z.eq_dec (i s + 1) (fsize str)) as [E|]; [|lia].
        unfold matching_close in M. rewrite E in M. unfold fsize in M.
        rewrite Nat2Z.id, skipn_all in M. discriminate M. }
      destruct (open_jump brainfuck_brainfuck_c str past s j Hs (proj1 Hi) H1 Eo Ez M)
        as (-> & _).
      destruct (open_jump brainfuck_c str past s j Hs (proj1 Hi) H1 Eo Ez M)
        as (-> & _).
      reflexivity.
    - unfold switch. rewrite Eo, (test_nonzero _ Nz). norm_bytes. reflexivity. }
  destruct (Z.eq_dec (str_at str past (i s)) (byte "]")) as [Ec|Nc].
  { destruct (Z.eq_dec (c (ptr s)) 0) as [Ez|Nz].
    - unfold switch. rewrite Ec, (test_zero _ Ez). norm_bytes. reflexivity.
    - destruct (matching_open str (i s)) as [j|] eqn:M.
      + destruct (close_jump brainfuck_brainfuck_c str past s j Hs Hi Ec Nz M)
          as (-> & _).
        destruct (close_jump brainfuck_c str past s j Hs Hi Ec Nz M) as (-> & _).
        reflexivity.
      + unfold switch. rewrite Ec. norm_bytes. cbn [Z.eqb Pos.eqb].
        rewrite scan_backward_subdirectory_copy by lia. reflexivity. }
  unfold switch. norm_bytes.
  apply Z.eqb_neq in No, Nc. norm_bytes. rewrite No, Nc. reflexivity.
Qed.

Lemma loop_subdirectory_copy (str : list Z) (past : Z) (fuel : nat) :
  fsize str < SIZE_MAX -> every_open_matched str = true ->
  forall s : state,
    0 <= i s ->
    loop brainfuck_brainfuck_c str past fuel s = loop brainfuck_c str past fuel s.
Proof.
  intros Hs Hm. induction fuel as [|fuel IH]; intros s H0; [reflexivity|].
  simpl. destruct (Z.ltb_spec (i s) (fsize str)) as [Hlt|]; [|reflexivity].
  unfold step. rewrite (switch_subdirectory_copy str past s Hs Hm (conj H0 Hlt)).
  destruct (switch brainfuck_c str past s) as [s1| |]; auto.
  apply IH. unfold set_i. simpl. apply size_t_range.
Qed.

(** C10, as stated, fails.  With standard output rejecting the write, the
    program '.' ends with [INT_IOERR] in bf.c and with success in the two
    other copies.  And for "[+", when the byte after the buffer is ']',
    bf.c returns [INT_INVL] while the subdirectory copy, whose forward scan
    goes on to read that byte, returns success. *)
Lemma copies_disagree :
  interpret bf_c (bytes ".") 0 1 fresh
    {| stdin := []; stdout := []; wcap := Limited 0; heap := Unlimited |}
  = Some (INT_IOERR,
          {| i := 0; bal := 0; ptr := fresh;
             env := {| stdin := []; stdout := []; wcap := Limited 0;
                       heap := Unlimited |} |})
  /\ interpret brainfuck_c (bytes ".") 0 1 fresh
       {| stdin := []; stdout := []; wcap := Limited 0; heap := Unlimited |}
     = Some (INT_SUCC,
             {| i := 1; bal := 0; ptr := fresh;
                env := {| stdin := []; stdout := []; wcap := Limited 0;
                          heap := Unlimited |} |})
  /\ interpret bf_c (bytes "[+") (byte "]") 1 fresh (console [])
     = Some (INT_INVL, {| i := 2; bal := 1; ptr := fresh; env := console [] |})
  /\ interpret brainfuck_brainfuck_c (bytes "[+") (byte "]") 1 fresh (console [])
     = Some (INT_SUCC, {| i := 3; bal := 0; ptr := fresh; env := console [] |}).
Proof. repeat split; reflexivity. Qed.

(** C10, amended.  brainfuck.c does what bf.c does, result and final
    state alike, on every run that bf.c does not end with [INT_IOERR];
    the subdirectory copy does what brainfuck.c does on every program,
    shorter than [SIZE_MAX] bytes, in which each '[' has its ']'. *)
Theorem copies_agree_without_rejected_write_or_open_bracket
  (str : list Z) (past : Z) (fuel : nat) (t : node) (w : world) :
  ((forall s, interpret bf_c str past fuel t w <> Some (INT_IOERR, s)) ->
   interpret brainfuck_c str past fuel t w = interpret bf_c str past fuel t w)
  /\ (fsize str < SIZE_MAX -> every_open_matched str = true ->
      interpret brainfuck_brainfuck_c str past fuel t w
      = interpret brainfuck_c str past fuel t w).
Proof.
  split.
  - intros H. now apply loop_bf_brainfuck.
  - intros Hs Hm. apply loop_subdirectory_copy; auto. simpl. lia.
Qed.

Lemma copies_agree_without_rejected_write_or_open_bracket_witness :
  interpret brainfuck_c (bytes "+[>,.<-]") 0 20 fresh (console [72])
  = interpret bf_c (bytes "+[>,.<-]") 0 20 fresh (console [72])
  /\ interpret brainfuck_brainfuck_c (bytes "+[>,.<-]") 0 20 fresh (console [72])
     = interpret brainfuck_c (bytes "+[>,.<-]") 0 20 fresh (console [72]).
Proof.
  split.
  - apply (proj1 (copies_agree_without_rejected_write_or_open_bracket
                    (bytes "+[>,.<-]") 0 20 fresh (console [72]))).
    intros s. vm_compute. discriminate.
  - apply (proj2 (copies_agree_without_rejected_write_or_open_bracket
                    (bytes "+[>,.<-]") 0 20 fresh (console [72]))).
    + unfold fsize, SIZE_MAX. simpl. lia.
    + vm_compute. reflexivity.
Defined.

(** * The rest of [interpret] *)

(** ** Properties kept by every iteration *)

(** What holds before the loop and is kept by every iteration holds of
    the state the function returns with. *)
Lemma loop_invariant (v : copy) (str : list Z) (past : Z) (P : state -> Prop) :
  (forall s s', P s -> i s < fsize str -> step v str past s = Next s' -> P s') ->
  (forall s r s', P s -> i s < fsize str -> step v str past s = Return r s' -> P s') ->
  forall (fuel : nat) (s : state) (r : INT_STAT) (s' : state),
    P s -> loop v str past fuel s = Some (r, s') -> P s'.
Proof.
  intros HN HR. induction fuel as [|fuel IH]; intros s r s' HP E; simpl in E.
  - destruct (i s <? fsize str); [discriminate|]. injection E as _ <-. exact HP.
  - destruct (Z.ltb_spec (i s) (fsize str)) as [Hlt|_].
    + destruct (step v str past s) as [s1|r1 s1|] eqn:St; [| |discriminate].
      * apply (IH s1 r s'); [|exact E]. now apply (HN s s1).
      * injection E as _ <-. now apply (HR s r1 s1).
    + injection E as _ <-. exact HP.
Qed.

Lemma switch_effect (v : copy) (str : list Z) (past : Z) (s : state) :
  effect s (switch v str past s).
Proof.
  unfold switch, move_left, move_right.
  generalize (scan_forward v str past (scan_fuel str) (i s) 1 []) as fw.
  generalize (scan_backward v str past (scan_fuel str) (i s) 1) as bw.
  intros bw fw. destruct s as [k b t w]. cbn [i bal ptr env].
  destruct (_ =? byte "+"); [apply effect_assign|].
  destruct (_ =? byte "-"); [apply effect_assign|].
  destruct (_ =? byte "<").
  { destruct (prev t) as [|x l] eqn:E.
    - destruct (malloc w) as [w'|] eqn:M.
      + now apply effect_left_new.
      + apply effect_return.
    - now apply effect_left. }
  destruct (_ =? byte ">").
  { destruct (next t) as [|x r] eqn:E.
    - destruct (malloc w) as [w'|] eqn:M.
      + now apply effect_right_new.
      + apply effect_return.
    - now apply effect_right. }
  destruct (_ =? byte ".").
  { pose proof (effect_write {| i := k; bal := b; ptr := t; env := w |} k b) as W.
    cbn [ptr env] in W. destruct (putchar (c t) w) as [q w'].
    destruct (checks_putchar v && (q =? EOF)); [apply effect_return|exact W]. }
  destruct (_ =? byte ",").
  { pose proof (effect_read {| i := k; bal := b; ptr := t; env := w |} k b) as R.
    cbn [ptr env] in R. destruct (getchar w) as [q w']. exact R. }
  destruct (_ =? byte "[").
  { destruct (c t =? 0); [|apply effect_none].
    destruct fw as [[[j b'] rs]|]; [apply effect_none|apply effect_spin]. }
  destruct (_ =? byte "]").
  { destruct (negb (c t =? 0)); [|apply effect_none].
    destruct bw as [[[j b']|[j b']]|];
      [apply effect_return|apply effect_none|apply effect_spin]. }
  apply effect_none.
Qed.

Lemma step_effect (v : copy) (str : list Z) (past : Z) (s : state) :
  effect s (step v str past s).
Proof.
  unfold step. destruct (switch_effect v str past s); unfold set_i; cbn [i bal ptr env];
    constructor; assumption.
Qed.

(** How the loop can come to return: it runs off the end of the program,
    or some iteration leaves the function. *)
Lemma loop_inversion (v : copy) (str : list Z) (past : Z) (P : state -> Prop) :
  (forall s s', P s -> i s < fsize str -> step v str past s = Next s' -> P s') ->
  forall (fuel : nat) (s : state) (r : INT_STAT) (s' : state),
    P s -> loop v str past fuel s = Some (r, s') ->
    (P s' /\ fsize str <= i s'
     /\ r = if bal s' =? 0 then INT_SUCC else INT_INVL)
    \/ (exists s0, P s0 /\ i s0 < fsize str /\ step v str past s0 = Return r s').
Proof.
  intros HN. induction fuel as [|fuel IH]; intros s r s' HP E; simpl in E.
  - destruct (Z.ltb_spec (i s) (fsize str)); [discriminate|].
    injection E as <- <-. left. auto.
  - destruct (Z.ltb_spec (i s) (fsize str)) as [Hlt|Hge].
    + destruct (step v str past s) as [s1|r1 s1|] eqn:St; [| |discriminate].
      * apply (IH s1 r s'); [|exact E]. now apply (HN s s1).
      * injection E as <- <-. right. now exists s.
    + injection E as <- <-. left. auto.
Qed.

(** ** Allocation *)

(** X1. In every copy, a move off the end of the list when [malloc]
    returns [NULL] makes the function return the status for a bad
    allocation at once; the tape, the input and the output are as they
    were when the move was dispatched. *)
Theorem move_without_memory_returns_memerr (v : copy) (str : list Z) (past : Z)
  (s : state) (fuel : nat) :
  i s < fsize str ->
  (str_at str past (i s) = byte "<" /\ prev (ptr s) = [])
  \/ (str_at str past (i s) = byte ">" /\ next (ptr s) = []) ->
  malloc (env s) = None ->
  loop v str past (S fuel) s = Some (INT_MEMERR, s).
Proof.
  intros Hlt H M. apply loop_return; [exact Hlt|].
  unfold step, switch, move_left, move_right.
  destruct H as [[Hat E]|[Hat E]]; rewrite Hat, E, M; norm_bytes; reflexivity.
Qed.

Lemma move_without_memory_returns_memerr_witness :
  loop bf_c (bytes "+>") 0 1
    {| i := 1; bal := 0; ptr := set_c 1 fresh;
       env := {| stdin := []; stdout := []; wcap := Unlimited; heap := Limited 0 |} |}
  = Some (INT_MEMERR,
          {| i := 1; bal := 0; ptr := set_c 1 fresh;
             env := {| stdin := []; stdout := []; wcap := Unlimited;
                       heap := Limited 0 |} |}).
Proof.
  apply (move_without_memory_returns_memerr bf_c (bytes "+>") 0
           {| i := 1; bal := 0; ptr := set_c 1 fresh;
              env := {| stdin := []; stdout := []; wcap := Unlimited;
                        heap := Limited 0 |} |} 0).
  - unfold fsize. simpl. lia.
  - right. split; reflexivity.
  - reflexivity.
Defined.

Lemma give_take (q q' : supply) (k : nat) :
  take q = Some q' -> give q' (S k) = give q k.
Proof.
  destruct q as [|[|n]]; simpl; intros E; try discriminate;
    injection E as <-; simpl; [reflexivity|]. f_equal. lia.
Qed.

Lemma effect_nodes (s : state) (o : outcome) :
  effect s o ->
  match o with
  | Next s' | Return _ s' =>
      give (heap (env s')) (nodes (ptr s')) = give (heap (env s)) (nodes (ptr s))
      /\ (nodes (ptr s) <= nodes (ptr s'))%nat
  | Spin => True
  end.
Proof.
  destruct s as [k0 b0 [l x r] w]. intros E.
  inversion E; subst; cbn [i bal ptr env prev c next set_c] in *; subst;
    unfold nodes; cbn [prev next length]; auto.
  - unfold getchar. destruct (stdin w); cbn; auto.
  - unfold putchar. destruct (take (wcap w)); cbn; auto.
  - unfold malloc in *. destruct (take (heap w)) as [q|] eqn:T; [|discriminate].
    match goal with H : Some _ = Some _ |- _ => injection H as <- end.
    cbn [heap]. split; [|lia].
    rewrite <- (give_take _ _ _ T); f_equal; lia.
  - split; [f_equal|]; lia.
  - unfold malloc in *. destruct (take (heap w)) as [q|] eqn:T; [|discriminate].
    match goal with H : Some _ = Some _ |- _ => injection H as <- end.
    cbn [heap]. split; [|lia].
    rewrite <- (give_take _ _ _ T); f_equal; lia.
  - split; [f_equal|]; lia.
Qed.

Lemma loop_nodes (v : copy) (str : list Z) (past : Z) (fuel : nat)
  (s : state) (r : INT_STAT) (s' : state) :
  loop v str past fuel s = Some (r, s') ->
  give (heap (env s')) (nodes (ptr s')) = give (heap (env s)) (nodes (ptr s))
  /\ (nodes (ptr s) <= nodes (ptr s'))%nat.
Proof.
  intros E.
  apply (loop_invariant v str past
           (fun s1 => give (heap (env s1)) (nodes (ptr s1))
                      = give (heap (env s)) (nodes (ptr s))
                      /\ (nodes (ptr s) <= nodes (ptr s1))%nat)) in E; auto.
  - intros s0 s1 [H1 H2] _ St.
    pose proof (effect_nodes s0 _ (step_effect v str past s0)) as N.
    rewrite St in N. destruct N as [N1 N2]. split; [congruence|lia].
  - intros s0 r1 s1 [H1 H2] _ St.
    pose proof (effect_nodes s0 _ (step_effect v str past s0)) as N.
    rewrite St in N. destruct N as [N1 N2]. split; [congruence|lia].
Qed.

(** X2. The list only grows, and it grows by the nodes [malloc] granted:
    when the function returns, the nodes of the list together with what
    is left of the supply of [malloc] make what they made at the call.
    In every copy, whatever the status returned. *)
Theorem nodes_are_the_allocations (v : copy) (str : list Z) (past : Z)
  (fuel : nat) (t : node) (w : world) (r : INT_STAT) (s' : state) :
  interpret v str past fuel t w = Some (r, s') ->
  give (heap (env s')) (nodes (ptr s')) = give (heap w) (nodes t)
  /\ (nodes t <= nodes (ptr s'))%nat.
Proof. unfold interpret. intros E. now apply loop_nodes in E. Qed.

Lemma nodes_are_the_allocations_witness :
  give (Limited 3) 3 = give (Limited 5) 1 /\ (1 <= 3)%nat.
Proof.
  apply (nodes_are_the_allocations bf_c (bytes "><<") 0 3 fresh
           {| stdin := []; stdout := []; wcap := Unlimited; heap := Limited 5 |}
           INT_SUCC
           {| i := 3; bal := 0; ptr := {| prev := []; c := 0; next := [0; 0] |};
              env := {| stdin := []; stdout := []; wcap := Unlimited;
                        heap := Limited 3 |} |}).
  reflexivity.
Defined.

(** ** Cells, input and output *)

Lemma uchar_range (x : Z) : 0 <= uchar x < 256.
Proof. unfold uchar. apply Z.mod_pos_bound. lia. Qed.

Lemma effect_byte_cells (s : state) (o : outcome) :
  effect s o -> byte_cells (ptr s) ->
  match o with
  | Next s' | Return _ s' => byte_cells (ptr s')
  | Spin => True
  end.
Proof.
  destruct s as [k0 b0 [l x r] w]. unfold byte_cells. intros E (Hc & Hl & Hr).
  inversion E; subst; cbn [i bal ptr env prev c next set_c] in *; subst;
    auto using uchar_range.
  - repeat split; auto; lia.
  - inversion Hl; subst. auto.
  - repeat split; auto; lia.
  - inversion Hr; subst. auto.
Qed.

(** X3. Every node of the list holds a value between 0 and 255 when the
    function returns, if that was so at the call: no instruction, and no
    value read from the input, puts anything wider into a cell. *)
Theorem cells_stay_bytes (v : copy) (str : list Z) (past : Z)
  (fuel : nat) (t : node) (w : world) (r : INT_STAT) (s' : state) :
  byte_cells t ->
  interpret v str past fuel t w = Some (r, s') ->
  byte_cells (ptr s').
Proof.
  unfold interpret. intros B E.
  apply (loop_invariant v str past (fun s => byte_cells (ptr s))) in E; auto.
  - intros s s1 H _ St.
    pose proof (effect_byte_cells s _ (step_effect v str past s) H) as N.
    now rewrite St in N.
  - intros s r1 s1 H _ St.
    pose proof (effect_byte_cells s _ (step_effect v str past s) H) as N.
    now rewrite St in N.
Qed.

Lemma cells_stay_bytes_witness :
  byte_cells {| prev := [255]; c := 44; next := [] |}.
Proof.
  apply (cells_stay_bytes bf_c (bytes "->,") 0 3 fresh (console [300])
           INT_SUCC
           {| i := 3; bal := 0; ptr := {| prev := [255]; c := 44; next := [] |};
              env := console [] |}).
  - repeat split; simpl; try lia; constructor.
  - reflexivity.
Defined.

(** What a run may have done to the environment [w] to make it [w']:
    read a prefix of the input, appended bytes to the output, and used as
    many writes as it appended bytes. *)
Lemma effect_streams (s : state) (o : outcome) :
  effect s o ->
  match o with
  | Next s' | Return _ s' =>
      exists inp out,
        stdin (env s) = inp ++ stdin (env s')
        /\ stdout (env s') = stdout (env s) ++ out
        /\ wcap (env s) = give (wcap (env s')) (length out)
        /\ Forall (fun x => 0 <= x < 256) out
  | Spin => True
  end.
Proof.
  assert (G0 : forall q, q = give q 0).
  { intros [|n]; simpl; [reflexivity|]. f_equal. lia. }
  assert (R : forall w : world,
             exists inp out,
               stdin w = inp ++ stdin w /\ stdout w = stdout w ++ out
               /\ wcap w = give (wcap w) (length out)
               /\ Forall (fun x => 0 <= x < 256) out).
  { intros w. exists [], []. rewrite app_nil_r. repeat split; auto. }
  destruct s as [k0 b0 t w]. intros E.
  inversion E; subst; cbn [i bal ptr env] in *; auto.
  - unfold getchar. destruct (stdin w) as [|y inp] eqn:I; cbn [snd stdin stdout wcap].
    + rewrite <- I. apply R.
    + exists [y], []. rewrite app_nil_r. repeat split; auto.
  - unfold putchar. destruct (take (wcap w)) as [q|] eqn:T; cbn [snd stdin stdout wcap].
    + exists [], [uchar (c t)]. repeat split; auto.
      * simpl length. now rewrite (give_take _ _ _ T), <- G0.
      * constructor; [apply uchar_range|constructor].
    + apply R.
  - unfold malloc in *. destruct (take (heap w)); [|discriminate].
    match goal with H : Some _ = Some _ |- _ => injection H as <- end.
    cbn [stdin stdout wcap]. apply R.
  - unfold malloc in *. destruct (take (heap w)); [|discriminate].
    match goal with H : Some _ = Some _ |- _ => injection H as <- end.
    cbn [stdin stdout wcap]. apply R.
Qed.

Lemma give_give (q : supply) (a b : nat) : give (give q a) b = give q (a + b).
Proof. destruct q; simpl; [reflexivity|]. f_equal. lia. Qed.

(** X4. When the function returns, whatever the status: what is left of
    the input is a suffix of the input at the call, the output at the
    call is a prefix of the output (what was written stays written), every
    byte added is between 0 and 255, and the run used exactly one accepted
    write for each byte it added. *)
Theorem output_is_appended_input_is_consumed (v : copy) (str : list Z) (past : Z)
  (fuel : nat) (t : node) (w : world) (r : INT_STAT) (s' : state) :
  interpret v str past fuel t w = Some (r, s') ->
  exists inp out,
    stdin w = inp ++ stdin (env s')
    /\ stdout (env s') = stdout w ++ out
    /\ wcap w = give (wcap (env s')) (length out)
    /\ Forall (fun x => 0 <= x < 256) out.
Proof.
  unfold interpret. intros E.
  set (P := fun s : state =>
              exists inp out,
                stdin w = inp ++ stdin (env s)
                /\ stdout (env s) = stdout w ++ out
                /\ wcap w = give (wcap (env s)) (length out)
                /\ Forall (fun x => 0 <= x < 256) out).
  assert (K : forall s o, P s -> effect s o ->
                match o with Next s1 | Return _ s1 => P s1 | Spin => True end).
  { intros s o (inp & out & H1 & H2 & H3 & H4) Ef.
    pose proof (effect_streams s o Ef) as N.
    destruct o as [s1|r1 s1|]; auto;
      destruct N as (inp' & out' & N1 & N2 & N3 & N4);
      exists (inp ++ inp'), (out ++ out');
      (repeat split;
       [rewrite H1, N1; now rewrite app_assoc
       |rewrite N2, H2; now rewrite app_assoc
       |rewrite H3, N3, give_give, length_app; f_equal; lia
       |now apply Forall_app]). }
  apply (loop_invariant v str past P) in E; auto.
  - intros s s1 H _ St. pose proof (K s _ H (step_effect v str past s)) as N.
    now rewrite St in N.
  - intros s r1 s1 H _ St. pose proof (K s _ H (step_effect v str past s)) as N.
    now rewrite St in N.
  - exists [], []. cbn [env]. rewrite app_nil_r. repeat split; auto.
    destruct (wcap w); simpl; [reflexivity|]. f_equal. lia.
Qed.

Lemma output_is_appended_input_is_consumed_witness :
  exists inp out,
    [104; 105] = inp ++ [105]
    /\ [33; 104; 105] = [33] ++ out
    /\ Limited 5 = give (Limited 3) (length out)
    /\ Forall (fun x => 0 <= x < 256) out.
Proof.
  apply (output_is_appended_input_is_consumed bf_c (bytes ",.+.") 0 4 fresh
           {| stdin := [104; 105]; stdout := [33]; wcap := Limited 5;
              heap := Unlimited |}
           INT_SUCC
           {| i := 4; bal := 0; ptr := set_c 105 fresh;
              env := {| stdin := [105]; stdout := [33; 104; 105];
                        wcap := Limited 3; heap := Unlimited |} |}).
  reflexivity.
Defined.

(** ** The statuses returned *)

Lemma switch_never_ioerr (v : copy) (str : list Z) (past : Z) (s s' : state) :
  checks_putchar v = false -> switch v str past s <> Return INT_IOERR s'.
Proof.
  intros Hc. unfold switch, move_left, move_right. rewrite Hc. cbn [andb].
  generalize (scan_forward v str past (scan_fuel str) (i s) 1 []) as fw.
  generalize (scan_backward v str past (scan_fuel str) (i s) 1) as bw.
  intros bw fw.
  destruct (_ =? byte "+"); [discriminate|].
  destruct (_ =? byte "-"); [discriminate|].
  destruct (_ =? byte "<").
  { destruct (prev (ptr s)); [destruct (malloc (env s))|]; discriminate. }
  destruct (_ =? byte ">").
  { destruct (next (ptr s)); [destruct (malloc (env s))|]; discriminate. }
  destruct (_ =? byte "."); [destruct (putchar _ _); discriminate|].
  destruct (_ =? byte ","); [destruct (getchar _); discriminate|].
  destruct (_ =? byte "[").
  { destruct (_ =? 0); [|discriminate].
    destruct fw as [[[? ?] ?]|]; discriminate. }
  destruct (_ =? byte "]").
  { destruct (negb _); [|discriminate].
    destruct bw as [[[? ?]|[? ?]]|]; discriminate. }
  discriminate.
Qed.

Lemma loop_never_ioerr (v : copy) (str : list Z) (past : Z) :
  checks_putchar v = false ->
  forall fuel s r s', loop v str past fuel s = Some (r, s') -> r <> INT_IOERR.
Proof.
  intros Hc fuel s r s' E.
  destruct (loop_inversion v str past (fun _ => True) (fun _ _ _ _ _ => I)
              fuel s r s' I E) as [(_ & _ & ->)|(s0 & _ & _ & St)].
  - destruct (bal s' =? 0); discriminate.
  - intros ->. unfold step in St.
    destruct (switch v str past s0) as [s1|r1 s1|] eqn:Sw; try discriminate St.
    injection St as -> ->. revert Sw. now apply switch_never_ioerr.
Qed.

(** X5. brainfuck.c and the subdirectory copy never return the status of
    an I/O error: a write that [putchar] rejects changes nothing, the
    loop goes on with the next instruction. *)
Theorem other_copies_ignore_rejected_write (v : copy) (str : list Z) (past : Z) :
  v <> bf_c ->
  (forall s,
      i s < fsize str -> str_at str past (i s) = byte "." ->
      fst (putchar (c (ptr s)) (env s)) = EOF ->
      step v str past s
      = Next {| i := size_t (i s + 1); bal := bal s; ptr := ptr s; env := env s |})
  /\ (forall fuel s r s',
         loop v str past fuel s = Some (r, s') -> r <> INT_IOERR).
Proof.
  intros Hv.
  assert (Hc : checks_putchar v = false) by (destruct v; [congruence|auto|auto]).
  split.
  - intros s _ Hat Hw. unfold step, switch. rewrite Hat, Hc. norm_bytes.
    cbn [Z.eqb Pos.eqb andb].
    unfold putchar in *. destruct (take (wcap (env s))); cbn in *.
    + pose proof (uchar_range (c (ptr s))). unfold EOF in Hw. lia.
    + reflexivity.
  - intros fuel s r s' E. now apply (loop_never_ioerr v str past Hc fuel s r s').
Qed.

Lemma other_copies_ignore_rejected_write_witness :
  step brainfuck_c (bytes ".") 0
    {| i := 0; bal := 0; ptr := fresh;
       env := {| stdin := []; stdout := []; wcap := Limited 0; heap := Unlimited |} |}
  = Next {| i := 1; bal := 0; ptr := fresh;
            env := {| stdin := []; stdout := []; wcap := Limited 0;
                      heap := Unlimited |} |}.
Proof.
  apply (proj1 (other_copies_ignore_rejected_write brainfuck_c (bytes ".") 0
                  ltac:(discriminate))
           {| i := 0; bal := 0; ptr := fresh;
              env := {| stdin := []; stdout := []; wcap := Limited 0;
                        heap := Unlimited |} |}).
  - unfold fsize. simpl. lia.
  - reflexivity.
  - reflexivity.
Defined.

Lemma every_close_matched_spec (str : list Z) (past : Z) :
  every_close_matched str = true ->
  forall k, 0 <= k < fsize str -> str_at str past k = byte "]" ->
            matching_open str k <> None.
Proof.
  intros H k Hk E. unfold every_close_matched in H.
  rewrite forallb_forall in H.
  assert (Hin : In (Z.to_nat k) (seq 0 (length str))).
  { apply in_seq. unfold fsize in Hk. lia. }
  specialize (H _ Hin). cbv beta in H. rewrite Z2Nat.id in H by lia.
  unfold str_at in E. destruct (Z.ltb_spec k (fsize str)); [|lia].
  rewrite E, Z.eqb_refl in H. simpl in H.
  destruct (matching_open str k); [discriminate|discriminate H].
Qed.

(** An instruction whose jump is not taken leaves [i] and [bal] alone and
    can only leave the function for a bad allocation or an I/O error. *)
Lemma switch_without_jump (v : copy) (str : list Z) (past : Z) (s : state) :
  (str_at str past (i s) = byte "[" -> c (ptr s) <> 0) ->
  (str_at str past (i s) = byte "]" -> c (ptr s) = 0) ->
  match switch v str past s with
  | Next s' => i s' = i s /\ bal s' = bal s
  | Return r _ => r = INT_MEMERR \/ r = INT_IOERR
  | Spin => False
  end.
Proof.
  intros Ho Hc. unfold switch, move_left, move_right.
  generalize (scan_forward v str past (scan_fuel str) (i s) 1 []) as fw.
  generalize (scan_backward v str past (scan_fuel str) (i s) 1) as bw.
  intros bw fw. revert Ho Hc. norm_bytes.
  destruct (Z.eqb_spec (str_at str past (i s)) 43); [simpl; auto|].
  destruct (Z.eqb_spec (str_at str past (i s)) 45); [simpl; auto|].
  destruct (Z.eqb_spec (str_at str past (i s)) 60).
  { intros _ _. destruct (prev (ptr s)); [destruct (malloc (env s))|]; simpl; auto. }
  destruct (Z.eqb_spec (str_at str past (i s)) 62).
  { intros _ _. destruct (next (ptr s)); [destruct (malloc (env s))|]; simpl; auto. }
  destruct (Z.eqb_spec (str_at str past (i s)) 46).
  { intros _ _. destruct (putchar (c (ptr s)) (env s)).
    destruct (checks_putchar v && (z =? EOF)); simpl; auto. }
  destruct (Z.eqb_spec (str_at str past (i s)) 44).
  { intros _ _. destruct (getchar (env s)). simpl. auto. }
  destruct (Z.eqb_spec (str_at str past (i s)) 91) as [E|_].
  { intros Ho _. rewrite (test_nonzero _ (Ho E)). auto. }
  destruct (Z.eqb_spec (str_at str past (i s)) 93) as [E|_].
  { intros _ Hc. rewrite (test_zero _ (Hc E)). simpl. auto. }
  auto.
Qed.

(** X6. A program in which every bracket has its partner is never
    rejected: whatever the tape, the input and the copy, the function
    does not return the status of an invalid program.  (It may still
    fail for memory or I/O, or run for ever.) *)
Theorem matched_program_is_never_invalid (v : copy) (str : list Z) (past : Z)
  (fuel : nat) (t : node) (w : world) (r : INT_STAT) (s' : state) :
  fsize str < SIZE_MAX ->
  every_open_matched str = true -> every_close_matched str = true ->
  interpret v str past fuel t w = Some (r, s') ->
  r <> INT_INVL.
Proof.
  intros Hs Ho Hc E. unfold interpret in E.
  pose proof (every_open_matched_spec str past Ho) as Mo.
  pose proof (every_close_matched_spec str past Hc) as Mc.
  set (P := fun s : state => bal s = 0 /\ 0 <= i s).
  (* what one pass through the switch does under [P] *)
  assert (Sw : forall s, P s -> i s < fsize str ->
                 match switch v str past s with
                 | Next s1 => bal s1 = 0 /\ 0 <= i s1
                 | Return r1 _ => r1 <> INT_INVL
                 | Spin => True
                 end).
  { intros s [Hb Hi] Hlt.
    destruct (Z.eq_dec (str_at str past (i s)) (byte "[")) as [Eo|No].
    { destruct (Z.eq_dec (c (ptr s)) 0) as [Ez|Nz].
      - specialize (Mo (i s) (conj Hi Hlt) Eo).
        destruct (matching_close str (i s)) as [j|] eqn:M; [|congruence].
        assert (H1 : i s + 1 < fsize str).
        { destruct (Z.eq_dec (i s + 1) (fsize str)) as [E1|]; [|lia].
          unfold matching_close in M. rewrite E1 in M. unfold fsize in M.
          rewrite Nat2Z.id, skipn_all in M. discriminate M. }
        destruct (open_jump v str past s j Hs Hi H1 Eo Ez M) as (-> & _ & Hj & _).
        simpl. split; [reflexivity|lia].
      - pose proof (switch_without_jump v str past s (fun _ => Nz)
                      ltac:(rewrite Eo; norm_bytes; discriminate)) as W.
        destruct (switch v str past s); auto.
        + destruct W as [-> ->]. auto.
        + destruct W as [->| ->]; discriminate. }
    destruct (Z.eq_dec (str_at str past (i s)) (byte "]")) as [Ec|Nc].
    { destruct (Z.eq_dec (c (ptr s)) 0) as [Ez|Nz].
      - pose proof (switch_without_jump v str past s
                      ltac:(intros; congruence) (fun _ => Ez)) as W.
        destruct (switch v str past s); auto.
        + destruct W as [-> ->]. auto.
        + destruct W as [->| ->]; discriminate.
      - specialize (Mc (i s) (conj Hi Hlt) Ec).
        destruct (matching_open str (i s)) as [j|] eqn:M; [|congruence].
        destruct (close_jump v str past s j Hs (conj Hi Hlt) Ec Nz M)
          as (-> & _ & Hj & _).
        simpl. split; [reflexivity|lia]. }
    pose proof (switch_without_jump v str past s
                  ltac:(intros; congruence) ltac:(intros; congruence)) as W.
    destruct (switch v str past s); auto.
    - destruct W as [-> ->]. auto.
    - destruct W as [->| ->]; discriminate. }
  assert (HN : forall s s1, P s -> i s < fsize str ->
                 step v str past s = Next s1 -> P s1).
  { intros s s1 HP Hlt St. unfold step in St. specialize (Sw s HP Hlt).
    destruct (switch v str past s) as [s2| |]; try discriminate.
    injection St as <-. unfold set_i. simpl. split; [tauto|apply size_t_range]. }
  assert (H0 : P {| i := 0; bal := 0; ptr := t; env := w |})
    by (split; simpl; lia).
  destruct (loop_inversion v str past P HN fuel _ r s' H0 E)
    as [((Hb & _) & _ & ->)|(s0 & HP & Hlt & St)].
  - rewrite Hb. discriminate.
  - unfold step in St. specialize (Sw s0 HP Hlt).
    destruct (switch v str past s0) as [s2|r2 s2|]; try discriminate.
    injection St as <- _. exact Sw.
Qed.

Lemma matched_program_is_never_invalid_witness :
  INT_SUCC <> INT_INVL.
Proof.
  apply (matched_program_is_never_invalid bf_c (bytes "+[>+<-]") 0 20 fresh
           (console []) INT_SUCC
           {| i := 7; bal := 0; ptr := {| prev := []; c := 0; next := [1] |};
              env := console [] |}).
  - unfold fsize, SIZE_MAX. simpl. lia.
  - vm_compute. reflexivity.
  - vm_compute. reflexivity.
  - vm_compute. reflexivity.
Defined.

(** ** Two loops *)

Lemma skipn_nth_cons {A : Type} (d : A) (l : list A) :
  forall n : nat, (n < length l)%nat -> skipn n l = nth n l d :: skipn (S n) l.
Proof.
  induction l as [|y l IH]; intros n Hn; simpl in Hn; [lia|].
  destruct n as [|n]; [reflexivity|]. simpl. apply IH. lia.
Qed.

Lemma skipn_at (str : list Z) (past : Z) (k : Z) :
  0 <= k < fsize str ->
  skipn (Z.to_nat k) str = str_at str past k :: skipn (Z.to_nat (k + 1)) str.
Proof.
  intros Hk. unfold str_at. destruct (Z.ltb_spec k (fsize str)); [|lia].
  replace (Z.to_nat (k + 1)) with (S (Z.to_nat k)) by lia.
  apply skipn_nth_cons. unfold fsize in Hk. lia.
Qed.

Lemma behind_at (str : list Z) (past : Z) (k : Z) :
  0 <= k < fsize str ->
  rev (firstn (Z.to_nat (k + 1)) str)
  = str_at str past k :: rev (firstn (Z.to_nat k) str).
Proof.
  intros Hk. unfold str_at. destruct (Z.ltb_spec k (fsize str)); [|lia].
  replace (Z.to_nat (k + 1)) with (S (Z.to_nat k)) by lia.
  apply rev_firstn_succ. unfold fsize in Hk. lia.
Qed.

Lemma loop_step (v : copy) (str : list Z) (past : Z) (fuel : nat) (s s' : state) :
  step v str past s = Next s' -> i s < fsize str ->
  loop v str past (S fuel) s = loop v str past fuel s'.
Proof. intros E H. now apply loop_next. Qed.

Section Idioms.

Variable v : copy.
Variable str : list Z.
Variable past : Z.
Variable k : Z.
Hypothesis Hsize : fsize str < SIZE_MAX.
Hypothesis Hk : 0 <= k.

(** An instruction that is not a taken jump, executed as one iteration. *)
Lemma step_open_not_taken (s : state) :
  str_at str past (i s) = byte "[" -> c (ptr s) <> 0 -> 0 <= i s < fsize str ->
  step v str past s = Next (set_i (i s + 1) s).
Proof.
  intros Hat Hc Hi. unfold step, switch. rewrite Hat, (test_nonzero _ Hc).
  norm_bytes. cbn [Z.eqb Pos.eqb]. now rewrite size_t_small by lia.
Qed.

Lemma step_close_not_taken (s : state) :
  str_at str past (i s) = byte "]" -> c (ptr s) = 0 -> 0 <= i s < fsize str ->
  step v str past s = Next (set_i (i s + 1) s).
Proof.
  intros Hat Hc Hi. unfold step, switch. rewrite Hat, (test_zero _ Hc).
  norm_bytes. cbn [Z.eqb Pos.eqb negb]. now rewrite size_t_small by lia.
Qed.

Lemma step_minus (s : state) :
  str_at str past (i s) = byte "-" -> 0 <= i s < fsize str ->
  step v str past s
  = Next {| i := i s + 1; bal := bal s;
            ptr := set_c (uchar (c (ptr s) - 1)) (ptr s); env := env s |}.
Proof.
  intros Hat Hi. unfold step, switch. rewrite Hat.
  norm_bytes. cbn [Z.eqb Pos.eqb]. unfold set_i. cbn [i bal ptr env].
  now rewrite size_t_small by lia.
Qed.

(** *** The empty loop *)

Hypothesis Hopen : str_at str past k = byte "[".

Section EmptyLoop.

Hypothesis Hin : k + 1 < fsize str.
Hypothesis Hclose : str_at str past (k + 1) = byte "]".

Lemma empty_loop_close : matching_close str k = Some (k + 1).
Proof.
  unfold matching_close. rewrite (skipn_at str past (k + 1)) by lia.
  simpl. rewrite Hclose. norm_bytes. reflexivity.
Qed.

Lemma empty_loop_open : matching_open str (k + 1) = Some k.
Proof.
  unfold matching_open. rewrite (behind_at str past k) by lia.
  simpl. rewrite Hopen. norm_bytes. simpl. f_equal. lia.
Qed.

Lemma empty_loop_spins_at_close (t : node) (w : world) :
  c t <> 0 ->
  forall (fuel : nat) (b : Z),
    loop v str past fuel {| i := k + 1; bal := b; ptr := t; env := w |} = None.
Proof.
  intros Hc. induction fuel as [|fuel IH]; intros b.
  - simpl. destruct (Z.ltb_spec (k + 1) (fsize str)); [reflexivity|lia].
  - assert (St : step v str past {| i := k + 1; bal := b; ptr := t; env := w |}
                 = Next {| i := k + 1; bal := 0; ptr := t; env := w |}).
    { refine (proj1 (proj2 (close_jump v str past
                              {| i := k + 1; bal := b; ptr := t; env := w |} k
                              Hsize _ _ _ _)));
        cbn [i ptr c]; auto using empty_loop_open; lia. }
    rewrite (loop_step _ _ _ _ _ _ St) by (simpl; lia). apply IH.
Qed.

End EmptyLoop.

(** *** The loop that clears a cell *)

Section ClearLoop.

Hypothesis Hin : k + 2 < fsize str.
Hypothesis Hminus : str_at str past (k + 1) = byte "-".
Hypothesis Hclose : str_at str past (k + 2) = byte "]".

Lemma clear_loop_close : matching_close str k = Some (k + 2).
Proof.
  unfold matching_close. rewrite (skipn_at str past (k + 1)) by lia.
  rewrite (skipn_at str past (k + 1 + 1)) by lia.
  replace (k + 1 + 1) with (k + 2) by lia.
  simpl. rewrite Hminus, Hclose. norm_bytes. simpl. f_equal. lia.
Qed.

Lemma clear_loop_open : matching_open str (k + 2) = Some k.
Proof.
  unfold matching_open. replace (k + 2) with (k + 1 + 1) by lia.
  rewrite (behind_at str past (k + 1)) by lia.
  rewrite (behind_at str past k) by lia.
  simpl. rewrite Hminus, Hopen. norm_bytes. simpl. f_equal. lia.
Qed.

(** From the '-' with [S n] in the cell: [2 * S n] iterations later the
    cell holds 0 and [i] is past the loop. *)
Lemma clear_loop_body (t : node) (w : world) (fuel : nat) (n : nat) :
  forall b : Z,
    Z.of_nat (S n) <= 255 ->
    exists b',
      loop v str past (2 * S n + fuel)
        {| i := k + 1; bal := b; ptr := set_c (Z.of_nat (S n)) t; env := w |}
      = loop v str past fuel
          {| i := k + 3; bal := b'; ptr := set_c 0 t; env := w |}.
Proof.
  induction n as [|n IH]; intros b Hn.
  - exists b. replace (2 * 1 + fuel)%nat with (S (S fuel)) by lia.
    assert (S1 : step v str past
                   {| i := k + 1; bal := b; ptr := set_c (Z.of_nat 1) t; env := w |}
                 = Next {| i := k + 2; bal := b; ptr := set_c 0 t; env := w |}).
    { rewrite step_minus by (cbn [i]; auto; lia). cbn [i bal ptr env].
      now replace (k + 1 + 1) with (k + 2) by lia. }
    rewrite (loop_step _ _ _ _ _ _ S1) by (simpl; lia).
    assert (S2 : step v str past
                   {| i := k + 2; bal := b; ptr := set_c 0 t; env := w |}
                 = Next {| i := k + 3; bal := b; ptr := set_c 0 t; env := w |}).
    { rewrite step_close_not_taken by (cbn [i]; auto; lia).
      unfold set_i. cbn [i bal ptr env].
      now replace (k + 2 + 1) with (k + 3) by lia. }
    now rewrite (loop_step _ _ _ _ _ _ S2) by (simpl; lia).
  - replace (2 * S (S n) + fuel)%nat with (S (S (2 * S n + fuel))) by lia.
    assert (S1 : step v str past
                   {| i := k + 1; bal := b; ptr := set_c (Z.of_nat (S (S n))) t;
                      env := w |}
                 = Next {| i := k + 2; bal := b; ptr := set_c (Z.of_nat (S n)) t;
                           env := w |}).
    { rewrite step_minus by (cbn [i]; auto; lia). cbn [i bal ptr env c set_c].
      replace (k + 1 + 1) with (k + 2) by lia.
      replace (uchar (Z.of_nat (S (S n)) - 1)) with (Z.of_nat (S n))
        by (unfold uchar; rewrite Z.mod_small; lia).
      reflexivity. }
    rewrite (loop_step _ _ _ _ _ _ S1) by (simpl; lia).
    assert (S2 : step v str past
                   {| i := k + 2; bal := b; ptr := set_c (Z.of_nat (S n)) t;
                      env := w |}
                 = Next {| i := k + 1; bal := 0; ptr := set_c (Z.of_nat (S n)) t;
                           env := w |}).
    { refine (proj1 (proj2 (close_jump v str past
                              {| i := k + 2; bal := b;
                                 ptr := set_c (Z.of_nat (S n)) t; env := w |}
                              k Hsize _ _ _ _)));
        cbn [i ptr c set_c]; auto using clear_loop_open; lia. }
    rewrite (loop_step _ _ _ _ _ _ S2) by (simpl; lia).
    apply (IH 0). lia.
Qed.

End ClearLoop.

End Idioms.

(** X7. The empty loop.  Wherever a program has '[' directly followed by
    ']': reached with a nonzero cell the function never returns (nothing
    in the loop can change the cell); reached with a zero cell the pair is
    skipped in one iteration and nothing but [i] and [bal] changes. *)
Theorem empty_loop (v : copy) (str : list Z) (past : Z) (k b : Z)
  (t : node) (w : world) :
  fsize str < SIZE_MAX -> 0 <= k -> k + 1 < fsize str ->
  str_at str past k = byte "[" -> str_at str past (k + 1) = byte "]" ->
  (c t <> 0 ->
   forall fuel,
     loop v str past fuel {| i := k; bal := b; ptr := t; env := w |} = None)
  /\ (c t = 0 ->
      forall fuel,
        loop v str past (S fuel) {| i := k; bal := b; ptr := t; env := w |}
        = loop v str past fuel {| i := k + 2; bal := 0; ptr := t; env := w |}).
Proof.
  intros Hs Hk Hin Ho Hc. split; intros Hz fuel.
  - destruct fuel as [|fuel].
    + simpl. destruct (Z.ltb_spec k (fsize str)); [reflexivity|lia].
    + rewrite (loop_step v str past fuel _ _
                 (step_open_not_taken v str past Hs
                    {| i := k; bal := b; ptr := t; env := w |} Ho Hz
                    ltac:(simpl; lia))) by (simpl; lia).
      unfold set_i. cbn [i bal ptr env].
      now apply empty_loop_spins_at_close.
  - assert (St : step v str past {| i := k; bal := b; ptr := t; env := w |}
                 = Next {| i := k + 1 + 1; bal := 0; ptr := t; env := w |}).
    { refine (proj1 (proj2 (open_jump v str past
                              {| i := k; bal := b; ptr := t; env := w |} (k + 1)
                              Hs _ _ _ _ _))); cbn [i ptr]; auto.
      now apply (empty_loop_close str past). }
    rewrite (loop_step _ _ _ _ _ _ St) by (simpl; lia).
    now replace (k + 1 + 1) with (k + 2) by lia.
Qed.

Lemma empty_loop_witness :
  loop bf_c (bytes "+[]") 0 9
    {| i := 1; bal := 0; ptr := set_c 1 fresh; env := console [] |} = None.
Proof.
  apply (proj1 (empty_loop bf_c (bytes "+[]") 0 1 0 (set_c 1 fresh) (console [])
                  ltac:(unfold fsize, SIZE_MAX; simpl; lia) ltac:(lia)
                  ltac:(unfold fsize; simpl; lia) eq_refl eq_refl)).
  simpl. lia.
Defined.

(** X8. The loop that clears a cell.  Wherever a program has the three
    bytes '[', '-', ']' in a row: reached with [x] in the cell, the
    function is, [2 * x + 1] iterations later, just past the loop with 0
    in the cell; the rest of the tape, the input and the output are
    untouched. *)
Theorem clear_loop (v : copy) (str : list Z) (past : Z) (k b x : Z)
  (t : node) (w : world) (fuel : nat) :
  fsize str < SIZE_MAX -> 0 <= k -> k + 2 < fsize str ->
  str_at str past k = byte "[" -> str_at str past (k + 1) = byte "-" ->
  str_at str past (k + 2) = byte "]" ->
  0 <= x <= 255 ->
  exists b',
    loop v str past (2 * Z.to_nat x + 1 + fuel)
      {| i := k; bal := b; ptr := set_c x t; env := w |}
    = loop v str past fuel
        {| i := k + 3; bal := b'; ptr := set_c 0 t; env := w |}.
Proof.
  intros Hs Hk Hin Ho Hm Hc Hx.
  destruct (Z.eq_dec x 0) as [->|Nz].
  - exists 0. simpl Nat.add.
    assert (St : step v str past {| i := k; bal := b; ptr := set_c 0 t; env := w |}
                 = Next {| i := k + 2 + 1; bal := 0; ptr := set_c 0 t; env := w |}).
    { refine (proj1 (proj2 (open_jump v str past
                              {| i := k; bal := b; ptr := set_c 0 t; env := w |}
                              (k + 2) Hs _ _ _ _ _))); cbn [i ptr c set_c]; auto;
        try lia.
      now apply (clear_loop_close str past). }
    rewrite (loop_step _ _ _ _ _ _ St) by (simpl; lia).
    now replace (k + 2 + 1) with (k + 3) by lia.
  - destruct (Z.to_nat x) as [|n] eqn:En; [lia|].
    assert (Ex : x = Z.of_nat (S n)) by lia. subst x.
    replace (2 * S n + 1 + fuel)%nat with (S (2 * S n + fuel)) by lia.
    rewrite (loop_step v str past _ _ _
               (step_open_not_taken v str past Hs
                  {| i := k; bal := b; ptr := set_c (Z.of_nat (S n)) t; env := w |}
                  Ho ltac:(simpl; lia) ltac:(simpl; lia))) by (simpl; lia).
    unfold set_i. cbn [i bal ptr env].
    apply clear_loop_body; auto; lia.
Qed.

Lemma clear_loop_witness :
  exists b',
    loop bf_c (bytes ">[-]+") 0 (2 * Z.to_nat 200 + 1 + 2)
      {| i := 1; bal := 0; ptr := set_c 200 fresh; env := console [] |}
    = loop bf_c (bytes ">[-]+") 0 2
        {| i := 1 + 3; bal := b'; ptr := set_c 0 fresh; env := console [] |}.
Proof.
  apply (clear_loop bf_c (bytes ">[-]+") 0 1 0 200 fresh (console []) 2).
  - unfold fsize, SIZE_MAX. simpl. lia.
  - lia.
  - unfold fsize. simpl. lia.
  - reflexivity.
  - reflexivity.
  - reflexivity.
  - lia.
Defined.

(** ** Bytes that are not instructions *)

Lemma strip_app (l1 l2 : list Z) : strip (l1 ++ l2) = strip l1 ++ strip l2.
Proof. apply filter_app. Qed.

Lemma strip_rev (l : list Z) : strip (rev l) = rev (strip l).
Proof.
  induction l as [|x l IH]; [reflexivity|].
  simpl rev. rewrite strip_app, IH. simpl.
  destruct (is_instruction x); simpl; [reflexivity|apply app_nil_r].
Qed.

Lemma strip_length (l : list Z) : (length (strip l) <= length l)%nat.
Proof.
  induction l as [|x l IH]; simpl; [lia|].
  destruct (is_instruction x); simpl; lia.
Qed.

Lemma firstn_length_app {A : Type} (l1 l2 : list A) :
  firstn (length l1) (l1 ++ l2) = l1.
Proof. induction l1 as [|x l1 IH]; simpl; [now destruct l2|now rewrite IH]. Qed.

Lemma skipn_length_app {A : Type} (l1 l2 : list A) :
  skipn (length l1) (l1 ++ l2) = l2.
Proof. induction l1 as [|x l1 IH]; simpl; auto. Qed.

Lemma nth_length_app {A : Type} (d x : A) (l1 l2 : list A) :
  nth (length l1) (l1 ++ x :: l2) d = x.
Proof. induction l1 as [|y l1 IH]; simpl; auto. Qed.

(** A program cut in front of the byte at index [k]. *)
Lemma cut_at (str : list Z) (past : Z) (k : Z) :
  0 <= k < fsize str ->
  str = firstn (Z.to_nat k) str ++ str_at str past k :: skipn (Z.to_nat (k + 1)) str
  /\ length (firstn (Z.to_nat k) str) = Z.to_nat k.
Proof.
  intros Hk. rewrite <- (skipn_at str past k Hk). rewrite firstn_skipn.
  split; [reflexivity|]. rewrite length_firstn. unfold fsize in Hk. lia.
Qed.

Lemma code_index_end (str : list Z) : code_index str (fsize str) = fsize (strip str).
Proof.
  unfold code_index, fsize. now rewrite Nat2Z.id, firstn_all.
Qed.

Lemma code_index_cut (pre post : list Z) :
  code_index (pre ++ post) (Z.of_nat (length pre)) = Z.of_nat (length (strip pre)).
Proof. unfold code_index. now rewrite Nat2Z.id, firstn_length_app. Qed.

Lemma code_index_range (str : list Z) (k : Z) :
  0 <= code_index str k <= fsize (strip str).
Proof.
  unfold code_index, fsize. split; [lia|].
  rewrite <- (firstn_skipn (Z.to_nat k) str) at 2.
  rewrite strip_app, length_app. lia.
Qed.

(** Past a byte that is no instruction the stripped index stays. *)
Lemma code_index_inert (str : list Z) (past : Z) (k : Z) :
  0 <= k < fsize str -> is_instruction (str_at str past k) = false ->
  code_index str (k + 1) = code_index str k.
Proof.
  intros Hk Hx. unfold code_index.
  replace (Z.to_nat (k + 1)) with (S (Z.to_nat k)) by lia.
  destruct (cut_at str past k Hk) as [E L]. rewrite E at 1.
  rewrite <- L at 1.
  replace (S (length (firstn (Z.to_nat k) str)))
    with (length (firstn (Z.to_nat k) str ++ [str_at str past k]))
    by (rewrite length_app; simpl; lia).
  replace (firstn (Z.to_nat k) str ++ str_at str past k :: skipn (Z.to_nat (k + 1)) str)
    with ((firstn (Z.to_nat k) str ++ [str_at str past k])
            ++ skipn (Z.to_nat (k + 1)) str)
    by (now rewrite <- app_assoc).
  rewrite firstn_length_app, strip_app. simpl. rewrite Hx.
  now rewrite app_nil_r.
Qed.

(** Past an instruction it moves on by one, and the stripped program has
    that instruction there. *)
Lemma code_index_instruction (str : list Z) (past past' : Z) (k : Z) :
  0 <= k < fsize str -> is_instruction (str_at str past k) = true ->
  code_index str (k + 1) = code_index str k + 1
  /\ code_index str k < fsize (strip str)
  /\ str_at (strip str) past' (code_index str k) = str_at str past k
  /\ skipn (Z.to_nat (code_index str k + 1)) (strip str)
     = strip (skipn (Z.to_nat (k + 1)) str)
  /\ firstn (Z.to_nat (code_index str k)) (strip str)
     = strip (firstn (Z.to_nat k) str).
Proof.
  intros Hk Hx.
  destruct (cut_at str past k Hk) as [E L].
  set (pre := firstn (Z.to_nat k) str) in *.
  set (post := skipn (Z.to_nat (k + 1)) str) in *.
  set (x := str_at str past k) in *.
  assert (Es : strip str = strip pre ++ x :: strip post).
  { rewrite E at 1. rewrite strip_app. simpl. fold x. now rewrite Hx. }
  assert (Ck : code_index str k = Z.of_nat (length (strip pre))) by reflexivity.
  assert (Ck1 : code_index str (k + 1) = Z.of_nat (length (strip pre)) + 1).
  { unfold code_index. replace (Z.to_nat (k + 1)) with (S (Z.to_nat k)) by lia.
    rewrite E at 1. rewrite <- L.
    replace (S (length pre)) with (length (pre ++ [x]))
      by (rewrite length_app; simpl; lia).
    replace (pre ++ x :: post) with ((pre ++ [x]) ++ post)
      by (now rewrite <- app_assoc).
    rewrite firstn_length_app, strip_app, length_app. simpl. rewrite Hx.
    simpl. lia. }
  rewrite Ck, Ck1. repeat split.
  - unfold fsize. rewrite Es, length_app. simpl. lia.
  - unfold str_at, fsize. rewrite Es at 1. rewrite length_app. simpl length.
    destruct (Z.ltb_spec (Z.of_nat (length (strip pre)))
                (Z.of_nat (length (strip pre) + S (length (strip post)))));
      [|lia].
    rewrite Nat2Z.id, Es. apply nth_length_app.
  - replace (Z.to_nat (Z.of_nat (length (strip pre)) + 1))
      with (length (strip pre ++ [x])) by (rewrite length_app; simpl; lia).
    rewrite Es. replace (strip pre ++ x :: strip post)
      with ((strip pre ++ [x]) ++ strip post) by (now rewrite <- app_assoc).
    apply skipn_length_app.
  - rewrite Nat2Z.id, Es. apply firstn_length_app.
Qed.

Lemma is_instruction_open : is_instruction (byte "[") = true.
Proof. reflexivity. Qed.

Lemma is_instruction_close : is_instruction (byte "]") = true.
Proof. reflexivity. Qed.

Lemma inert_not_bracket (x : Z) :
  is_instruction x = false -> (x =? byte "[") = false /\ (x =? byte "]") = false.
Proof.
  unfold is_instruction. intros H.
  repeat (apply orb_false_elim in H; destruct H as [H ?]). auto.
Qed.

(** The forward scan of the spec finds, in the stripped text, the bracket
    it finds in the text, or none in both. *)
Lemma spec_forward_strip (ahead : list Z) :
  forall (pre : list Z) (n : Z),
    1 <= n ->
    match spec_forward ahead (Z.of_nat (length pre)) n with
    | Some j =>
        spec_forward (strip ahead) (Z.of_nat (length (strip pre))) n
        = Some (code_index (pre ++ ahead) j)
    | None =>
        spec_forward (strip ahead) (Z.of_nat (length (strip pre))) n = None
    end.
Proof.
  induction ahead as [|x ahead IH]; intros pre n Hn; [reflexivity|].
  assert (Hpre : Z.of_nat (length pre) + 1 = Z.of_nat (length (pre ++ [x])))
    by (rewrite length_app; simpl; lia).
  assert (Hstr : pre ++ x :: ahead = (pre ++ [x]) ++ ahead)
    by (now rewrite <- app_assoc).
  destruct (is_instruction x) eqn:Hx.
  - assert (Hs : Z.of_nat (length (strip pre)) + 1
                 = Z.of_nat (length (strip (pre ++ [x])))).
    { rewrite strip_app, length_app. simpl. rewrite Hx. simpl. lia. }
    change (strip (x :: ahead)) with (if is_instruction x then x :: strip ahead
                                      else strip ahead).
    rewrite Hx. cbn [spec_forward].
    set (n' := if x =? byte "[" then n + 1
               else if x =? byte "]" then n - 1 else n).
    assert (Hn' : 0 <= n') by (subst n'; destruct (x =? byte "["), (x =? byte "]"); lia).
    destruct (Z.eqb_spec n' 0) as [_|Nz].
    + f_equal. symmetry. apply code_index_cut.
    + rewrite Hpre, Hs, Hstr. apply IH. lia.
  - destruct (inert_not_bracket x Hx) as [Ho Hc].
    assert (Hs : Z.of_nat (length (strip pre))
                 = Z.of_nat (length (strip (pre ++ [x])))).
    { rewrite strip_app, length_app. simpl. rewrite Hx. simpl. lia. }
    change (strip (x :: ahead)) with (if is_instruction x then x :: strip ahead
                                      else strip ahead).
    rewrite Hx. cbn [spec_forward]. rewrite Ho, Hc.
    destruct (Z.eqb_spec n 0); [lia|].
    rewrite Hpre, Hs, Hstr. now apply IH.
Qed.

(** The same for the backward scan. *)
Lemma spec_backward_strip (pre : list Z) :
  forall (post : list Z) (n : Z),
    1 <= n ->
    match spec_backward (rev pre) (Z.of_nat (length pre) - 1) n with
    | Some j =>
        spec_backward (strip (rev pre)) (Z.of_nat (length (strip pre)) - 1) n
        = Some (code_index (pre ++ post) j)
    | None =>
        spec_backward (strip (rev pre)) (Z.of_nat (length (strip pre)) - 1) n = None
    end.
Proof.
  induction pre as [|x pre IH] using rev_ind; intros post n Hn; [reflexivity|].
  rewrite rev_app_distr. simpl rev. simpl app.
  assert (Hpre : Z.of_nat (length (pre ++ [x])) - 1 = Z.of_nat (length pre))
    by (rewrite length_app; simpl; lia).
  assert (Hstr : (pre ++ [x]) ++ post = pre ++ x :: post)
    by (now rewrite <- app_assoc).
  rewrite Hpre, Hstr.
  change (strip (x :: rev pre)) with (if is_instruction x then x :: strip (rev pre)
                                      else strip (rev pre)).
  destruct (is_instruction x) eqn:Hx.
  - assert (Hs : Z.of_nat (length (strip (pre ++ [x]))) - 1
                 = Z.of_nat (length (strip pre))).
    { rewrite strip_app, length_app. simpl. rewrite Hx. simpl. lia. }
    rewrite Hs. cbn [spec_backward].
    set (n' := if x =? byte "]" then n + 1
               else if x =? byte "[" then n - 1 else n).
    assert (Hn' : 0 <= n') by (subst n'; destruct (x =? byte "]"), (x =? byte "["); lia).
    destruct (Z.eqb_spec n' 0) as [_|Nz].
    + f_equal. symmetry. apply code_index_cut.
    + apply IH. lia.
  - destruct (inert_not_bracket x Hx) as [Ho Hc].
    assert (Hs : Z.of_nat (length (strip (pre ++ [x])))
                 = Z.of_nat (length (strip pre))).
    { rewrite strip_app, length_app. simpl. rewrite Hx. simpl. lia. }
    rewrite Hs. cbn [spec_backward]. rewrite Ho, Hc.
    destruct (Z.eqb_spec n 0); [lia|]. now apply IH.
Qed.

Lemma matching_close_strip (str : list Z) (past : Z) (k : Z) :
  0 <= k < fsize str -> str_at str past k = byte "[" ->
  match matching_close str k with
  | Some j => matching_close (strip str) (code_index str k) = Some (code_index str j)
  | None => matching_close (strip str) (code_index str k) = None
  end.
Proof.
  intros Hk Hat.
  assert (Hx : is_instruction (str_at str past k) = true) by now rewrite Hat.
  destruct (code_index_instruction str past past k Hk Hx) as (C1 & _ & _ & Sk & _).
  unfold matching_close. rewrite Sk, <- C1.
  pose proof (spec_forward_strip (skipn (Z.to_nat (k + 1)) str)
                (firstn (Z.to_nat (k + 1)) str) 1 (Z.le_refl 1)) as P.
  rewrite firstn_skipn in P.
  assert (L : Z.of_nat (length (firstn (Z.to_nat (k + 1)) str)) = k + 1).
  { rewrite length_firstn. unfold fsize in Hk. lia. }
  rewrite L in P. exact P.
Qed.

Lemma matching_open_strip (str : list Z) (past : Z) (k : Z) :
  0 <= k < fsize str -> str_at str past k = byte "]" ->
  match matching_open str k with
  | Some j => matching_open (strip str) (code_index str k) = Some (code_index str j)
  | None => matching_open (strip str) (code_index str k) = None
  end.
Proof.
  intros Hk Hat.
  assert (Hx : is_instruction (str_at str past k) = true) by now rewrite Hat.
  destruct (code_index_instruction str past past k Hk Hx) as (_ & _ & _ & _ & Fk).
  unfold matching_open. rewrite Fk, <- strip_rev.
  pose proof (spec_backward_strip (firstn (Z.to_nat k) str)
                (skipn (Z.to_nat k) str) 1 (Z.le_refl 1)) as P.
  rewrite firstn_skipn in P.
  assert (L : Z.of_nat (length (firstn (Z.to_nat k) str)) = k).
  { rewrite length_firstn. unfold fsize in Hk. lia. }
  rewrite L in P. exact P.
Qed.

Lemma open_unmatched_step (v : copy) (str : list Z) (past : Z) (s : state) :
  v <> brainfuck_brainfuck_c ->
  fsize str < SIZE_MAX -> 0 <= i s -> i s + 1 < fsize str ->
  str_at str past (i s) = byte "[" -> c (ptr s) = 0 ->
  matching_close str (i s) = None ->
  exists b, b <> 0 /\
    step v str past s
    = Next {| i := fsize str; bal := b; ptr := ptr s; env := env s |}.
Proof.
  intros Hv Hs H0 H1 Hat Hc M. unfold matching_close in M.
  assert (Hne : skipn (Z.to_nat (i s + 1)) str <> []).
  { intros E. apply skipn_nil_inv in E. unfold fsize in H1. lia. }
  assert (Hl := length_skipn_le str (Z.to_nat (i s + 1))).
  assert (Hbl : 1 + Z.of_nat (length (skipn (Z.to_nat (i s + 1)) str)) <= SIZE_MAX).
  { unfold fsize in Hs. lia. }
  assert (Hn : (length (skipn (Z.to_nat (i s + 1)) str) <= scan_fuel str)%nat).
  { unfold scan_fuel. lia. }
  pose proof (scan_forward_spec v str past _ (scan_fuel str) (i s) 1 []
                Hs H0 eq_refl Hne (Z.le_refl 1) Hbl Hn) as P.
  rewrite M in P. destruct (P Hv) as (b & rs & R & Hb & _).
  exists b. split; [exact Hb|].
  unfold step, switch. rewrite Hat, Hc, R. norm_bytes. simpl.
  unfold set_i. simpl. rewrite size_t_small by lia.
  now replace (fsize str - 1 + 1) with (fsize str) by lia.
Qed.

Lemma close_unmatched_step (v : copy) (str : list Z) (past : Z) (s : state) :
  fsize str < SIZE_MAX -> 0 <= i s < fsize str ->
  str_at str past (i s) = byte "]" -> c (ptr s) <> 0 ->
  matching_open str (i s) = None ->
  exists b,
    step v str past s
    = Return INT_INVL {| i := SIZE_MAX; bal := b; ptr := ptr s; env := env s |}.
Proof.
  intros Hs Hi Hat Hc M. unfold matching_open in M.
  assert (Hl := length_behind_le str (Z.to_nat (i s))).
  assert (Hbl : 1 + Z.of_nat (length (rev (firstn (Z.to_nat (i s)) str))) <= SIZE_MAX).
  { unfold fsize in Hs. lia. }
  assert (Hn : (length (rev (firstn (Z.to_nat (i s)) str)) <= scan_fuel str)%nat).
  { unfold scan_fuel. lia. }
  assert (Hi' : 0 <= i s <= fsize str) by lia.
  pose proof (scan_backward_spec v str past _ (scan_fuel str) (i s) 1
                Hs Hi' eq_refl (Z.le_refl 1) Hbl Hn) as P.
  rewrite M in P. destruct P as (b & P). exists b.
  unfold step, switch. rewrite Hat, (test_nonzero _ Hc), P. norm_bytes. reflexivity.
Qed.

(** A byte that is no instruction: the iteration only moves [i] on. *)
Lemma step_inert (v : copy) (str : list Z) (past : Z) (s : state) :
  fsize str <= SIZE_MAX -> 0 <= i s < fsize str ->
  is_instruction (str_at str past (i s)) = false ->
  step v str past s = Next (set_i (i s + 1) s).
Proof.
  intros Hs Hi Hx. unfold is_instruction in Hx.
  repeat (apply orb_false_elim in Hx; destruct Hx as [Hx ?]).
  unfold step, switch.
  repeat match goal with H : (_ =? _) = false |- _ => rewrite H; clear H end.
  now rewrite size_t_small by lia.
Qed.

Lemma last_at (l : list Z) (past : Z) (k : Z) :
  0 <= k -> k + 1 = fsize l -> last l 0 = str_at l past k.
Proof.
  intros Hk E. unfold str_at. destruct (Z.ltb_spec k (fsize l)); [|lia].
  destruct l as [|x l] using rev_ind; [unfold fsize in E; simpl in E; lia|].
  rewrite last_last. unfold fsize in E. rewrite length_app in E. simpl in E.
  replace (Z.to_nat k) with (length l) by lia. now rewrite nth_length_app.
Qed.

(** An instruction whose jump is not taken does in one program what it
    does in another. *)
Lemma switch_same_byte (v : copy) (str str2 : list Z) (past past2 : Z)
  (s s2 : state) :
  str_at str2 past2 (i s2) = str_at str past (i s) ->
  ptr s2 = ptr s -> env s2 = env s ->
  (str_at str past (i s) = byte "[" -> c (ptr s) <> 0) ->
  (str_at str past (i s) = byte "]" -> c (ptr s) = 0) ->
  match switch v str past s, switch v str2 past2 s2 with
  | Next a, Next b =>
      ptr b = ptr a /\ env b = env a
      /\ i a = i s /\ bal a = bal s /\ i b = i s2 /\ bal b = bal s2
  | Return r a, Return r2 b => r2 = r /\ ptr b = ptr a /\ env b = env a
  | _, _ => False
  end.
Proof.
  intros Hat Hp He Ho Hc. unfold switch, move_left, move_right.
  rewrite Hat, Hp, He.
  generalize (scan_forward v str past (scan_fuel str) (i s) 1 []) as fw.
  generalize (scan_backward v str past (scan_fuel str) (i s) 1) as bw.
  generalize (scan_forward v str2 past2 (scan_fuel str2) (i s2) 1 []) as fw2.
  generalize (scan_backward v str2 past2 (scan_fuel str2) (i s2) 1) as bw2.
  intros bw2 fw2 bw fw. revert Ho Hc. norm_bytes.
  destruct (Z.eqb_spec (str_at str past (i s)) 43); [simpl; auto 10|].
  destruct (Z.eqb_spec (str_at str past (i s)) 45); [simpl; auto 10|].
  destruct (Z.eqb_spec (str_at str past (i s)) 60).
  { intros _ _. destruct (prev (ptr s)); [destruct (malloc (env s))|];
      simpl; auto 10. }
  destruct (Z.eqb_spec (str_at str past (i s)) 62).
  { intros _ _. destruct (next (ptr s)); [destruct (malloc (env s))|];
      simpl; auto 10. }
  destruct (Z.eqb_spec (str_at str past (i s)) 46).
  { intros _ _. destruct (putchar (c (ptr s)) (env s)).
    destruct (checks_putchar v && (z =? EOF)); simpl; auto 10. }
  destruct (Z.eqb_spec (str_at str past (i s)) 44).
  { intros _ _. destruct (getchar (env s)). simpl. auto 10. }
  destruct (Z.eqb_spec (str_at str past (i s)) 91) as [E|_].
  { intros Ho _. rewrite (test_nonzero _ (Ho E)). auto 10. }
  destruct (Z.eqb_spec (str_at str past (i s)) 93) as [E|_].
  { intros _ Hc. rewrite (test_zero _ (Hc E)). simpl. auto 10. }
  auto 10.
Qed.

Section Stripping.

Variable v : copy.
Variable str : list Z.
Variable past : Z.
Hypothesis Hv : v <> brainfuck_brainfuck_c.
Hypothesis Hsize : fsize str < SIZE_MAX.
Hypothesis Hlast : last (strip str) 0 <> byte "[".

Lemma strip_size : fsize (strip str) < SIZE_MAX.
Proof. pose proof (strip_length str). unfold fsize in *. lia. Qed.

(** An iteration that dispatches an instruction, in the two runs. *)
Lemma step_stripped (s s' : state) :
  stripped_state str s s' -> i s < fsize str ->
  is_instruction (str_at str past (i s)) = true ->
  i s' < fsize (strip str)
  /\ match step v str past s, step v (strip str) past s' with
     | Next a, Next b => stripped_state str a b
     | Return r a, Return r2 b => r2 = r /\ ptr b = ptr a /\ env b = env a
     | _, _ => False
     end.
Proof.
  intros (Hp & He & Hi & Hr & Hb) Hlt Hx.
  assert (Hk : 0 <= i s < fsize str) by lia.
  destruct (code_index_instruction str past past (i s) Hk Hx)
    as (C1 & C2 & C3 & _ & _).
  rewrite <- Hi in C1, C2, C3.
  pose proof (code_index_range str (i s)) as Cr. rewrite <- Hi in Cr.
  pose proof strip_size as Hs'.
  split; [exact C2|].
  (* the last instruction of the program is not an opening bracket *)
  assert (Hnl : str_at str past (i s) = byte "[" ->
                i s' + 1 < fsize (strip str) /\ i s + 1 < fsize str).
  { intros E. assert (N : i s' + 1 <> fsize (strip str)).
    { intros L. apply Hlast. rewrite (last_at _ past (i s')) by lia. congruence. }
    split; [lia|].
    destruct (Z.eq_dec (i s + 1) (fsize str)) as [L|]; [|lia].
    rewrite L, code_index_end in C1. lia. }
  (* the state after a jump, in both runs *)
  assert (Hafter : forall j, 0 <= j < fsize str ->
                     is_instruction (str_at str past j) = true ->
                     stripped_state str
                       {| i := j + 1; bal := 0; ptr := ptr s; env := env s |}
                       {| i := code_index str j + 1; bal := 0; ptr := ptr s';
                          env := env s' |}).
  { intros j Hj Hxj.
    destruct (code_index_instruction str past past j Hj Hxj) as (D1 & _).
    unfold stripped_state. cbn [i bal ptr env]. repeat split; auto; lia. }
  destruct (Z.eq_dec (str_at str past (i s)) (byte "[")) as [Eo|No].
  { destruct (Z.eq_dec (c (ptr s)) 0) as [Ez|Nz].
    - destruct (Hnl Eo) as [L' L].
      assert (Eo' : str_at (strip str) past (i s') = byte "[") by congruence.
      assert (Ez' : c (ptr s') = 0) by congruence.
      pose proof (matching_close_strip str past (i s) Hk Eo) as M.
      rewrite <- Hi in M.
      destruct (matching_close str (i s)) as [j|] eqn:Mo.
      + destruct (open_jump v str past s j Hsize (proj1 Hk) L Eo Ez Mo)
          as (_ & -> & Hj & Hcj).
        destruct (open_jump v (strip str) past s' _ Hs' (proj1 Cr) L' Eo' Ez' M)
          as (_ & -> & _).
        apply Hafter; [lia|]. now rewrite Hcj.
      + destruct (open_unmatched_step v str past s Hv Hsize (proj1 Hk) L Eo Ez Mo)
          as (b & Nb & ->).
        destruct (open_unmatched_step v (strip str) past s' Hv Hs' (proj1 Cr) L'
                    Eo' Ez' M) as (b' & Nb' & ->).
        unfold stripped_state. cbn [i bal ptr env].
        rewrite code_index_end. repeat split; auto; try lia; intros; lia.
    - pose proof (switch_same_byte v str (strip str) past past s s' C3 Hp He
                    (fun _ => Nz) ltac:(rewrite Eo; norm_bytes; discriminate)) as W.
      unfold step.
      destruct (switch v str past s) as [a|r a|],
               (switch v (strip str) past s') as [b|r2 b|]; try contradiction; auto.
      destruct W as (W1 & W2 & W3 & W4 & W5 & W6).
      unfold stripped_state, set_i. cbn [i bal ptr env].
      rewrite W3, W4, W5, W6, !size_t_small by lia.
      repeat split; auto; lia. }
  destruct (Z.eq_dec (str_at str past (i s)) (byte "]")) as [Ec|Nc].
  { destruct (Z.eq_dec (c (ptr s)) 0) as [Ez|Nz].
    - pose proof (switch_same_byte v str (strip str) past past s s' C3 Hp He
                    ltac:(intros; congruence) (fun _ => Ez)) as W.
      unfold step.
      destruct (switch v str past s) as [a|r a|],
               (switch v (strip str) past s') as [b|r2 b|]; try contradiction; auto.
      destruct W as (W1 & W2 & W3 & W4 & W5 & W6).
      unfold stripped_state, set_i. cbn [i bal ptr env].
      rewrite W3, W4, W5, W6, !size_t_small by lia.
      repeat split; auto; lia.
    - assert (Ec' : str_at (strip str) past (i s') = byte "]") by congruence.
      assert (Nz' : c (ptr s') <> 0) by congruence.
      pose proof (matching_open_strip str past (i s) Hk Ec) as M.
      rewrite <- Hi in M.
      destruct (matching_open str (i s)) as [j|] eqn:Mo.
      + destruct (close_jump v str past s j Hsize Hk Ec Nz Mo)
          as (_ & -> & Hj & Hcj).
        destruct (close_jump v (strip str) past s' _ Hs' (conj (proj1 Cr) C2)
                    Ec' Nz' M) as (_ & -> & _).
        apply Hafter; [lia|]. now rewrite Hcj.
      + destruct (close_unmatched_step v str past s Hsize Hk Ec Nz Mo) as (b & ->).
        destruct (close_unmatched_step v (strip str) past s' Hs'
                    (conj (proj1 Cr) C2) Ec' Nz' M) as (b' & ->).
        cbn [ptr env]. auto. }
  pose proof (switch_same_byte v str (strip str) past past s s' C3 Hp He
                ltac:(intros; congruence) ltac:(intros; congruence)) as W.
  unfold step.
  destruct (switch v str past s) as [a|r a|],
           (switch v (strip str) past s') as [b|r2 b|]; try contradiction; auto.
  destruct W as (W1 & W2 & W3 & W4 & W5 & W6).
  unfold stripped_state, set_i. cbn [i bal ptr env].
  rewrite W3, W4, W5, W6, !size_t_small by lia.
  repeat split; auto; lia.
Qed.

(** Both runs at the end of their program. *)
Lemma exit_stripped (s s' : state) (fuel fuel' : nat) :
  stripped_state str s s' -> fsize str <= i s ->
  exists f f' r,
    loop v str past fuel s = Some (r, f)
    /\ loop v (strip str) past fuel' s' = Some (r, f')
    /\ ptr f' = ptr f /\ env f' = env f.
Proof.
  intros (Hp & He & Hi & Hr & Hb) Hge.
  assert (E : i s = fsize str) by lia.
  rewrite E, code_index_end in Hi.
  rewrite !loop_exit by lia.
  exists s, s'.
  destruct (Z.eqb_spec (bal s) 0) as [Z0|N0], (Z.eqb_spec (bal s') 0) as [Z1|N1];
    try tauto; eauto.
Qed.

(** What [str] returns, the stripped program returns, with the same
    fuel. *)
Lemma strip_down (fuel : nat) :
  forall (s s' : state) (r : INT_STAT) (f : state),
    stripped_state str s s' ->
    loop v str past fuel s = Some (r, f) ->
    exists f', loop v (strip str) past fuel s' = Some (r, f')
               /\ ptr f' = ptr f /\ env f' = env f.
Proof.
  induction fuel as [|fuel IH]; intros s s' r f R E.
  - simpl in E. destruct (Z.ltb_spec (i s) (fsize str)); [discriminate|].
    destruct (exit_stripped s s' 0 0 R ltac:(lia)) as (f0 & f' & r0 & E0 & E1 & HH).
    simpl in E0. destruct (Z.ltb_spec (i s) (fsize str)); [lia|].
    rewrite E in E0. injection E0 as <- <-. eauto.
  - destruct (Z.ltb_spec (i s) (fsize str)) as [Hlt|Hge].
    + assert (Hk : 0 <= i s < fsize str) by (destruct R as (_ & _ & _ & ? & _); lia).
      destruct (is_instruction (str_at str past (i s))) eqn:Hx.
      * destruct (step_stripped s s' R Hlt Hx) as [Hlt' W].
        simpl in E |- *.
        destruct (Z.ltb_spec (i s) (fsize str)); [|lia].
        destruct (Z.ltb_spec (i s') (fsize (strip str))); [|lia].
        destruct (step v str past s) as [a|r1 a|],
                 (step v (strip str) past s') as [b|r2 b|];
          try contradiction; try discriminate.
        -- now apply (IH a b).
        -- injection E as <- <-. destruct W as (-> & W). eauto.
      * rewrite (loop_step v str past fuel s _ (step_inert v str past s
                   ltac:(lia) Hk Hx) Hlt) in E.
        assert (R' : stripped_state str (set_i (i s + 1) s) s').
        { destruct R as (Hp & He & Hi & Hr & Hb).
          unfold stripped_state, set_i. cbn [i bal ptr env].
          rewrite (code_index_inert str past (i s) Hk Hx).
          repeat split; auto; try lia; tauto. }
        destruct (IH _ s' r f R' E) as (f' & E' & HH).
        exists f'. split; [|exact HH].
        apply (loop_more_fuel _ _ _ fuel); [exact E'|lia].
    + destruct (exit_stripped s s' (S fuel) (S fuel) R Hge)
        as (f0 & f' & r0 & E0 & E1 & HH).
      rewrite E in E0. injection E0 as <- <-. eauto.
Qed.

(** From any state of the run of [str], a few iterations over bytes that
    are no instructions lead to an instruction or to the end. *)
Lemma skip_inert (n : nat) :
  forall s s' : state,
    stripped_state str s s' -> fsize str - i s <= Z.of_nat n ->
    exists (m : nat) (s1 : state),
      (forall fuel, loop v str past (m + fuel) s = loop v str past fuel s1)
      /\ stripped_state str s1 s'
      /\ (fsize str <= i s1
          \/ (i s1 < fsize str /\ is_instruction (str_at str past (i s1)) = true)).
Proof.
  induction n as [|n IH]; intros s s' R Hn.
  - exists 0%nat, s. split; [reflexivity|]. split; [exact R|]. left. lia.
  - destruct (Z.ltb_spec (i s) (fsize str)) as [Hlt|Hge].
    + assert (Hk : 0 <= i s < fsize str) by (destruct R as (_ & _ & _ & ? & _); lia).
      destruct (is_instruction (str_at str past (i s))) eqn:Hx.
      * exists 0%nat, s. split; [reflexivity|]. split; [exact R|]. right. auto.
      * assert (R' : stripped_state str (set_i (i s + 1) s) s').
        { destruct R as (Hp & He & Hi & Hr & Hb).
          unfold stripped_state, set_i. cbn [i bal ptr env].
          rewrite (code_index_inert str past (i s) Hk Hx).
          repeat split; auto; try lia; tauto. }
        destruct (IH _ s' R') as (m & s1 & H1 & H2 & H3).
        { unfold set_i. cbn [i]. lia. }
        exists (S m), s1. split; [|auto].
        intros fuel. simpl Nat.add.
        rewrite (loop_step v str past _ s _ (step_inert v str past s
                   ltac:(lia) Hk Hx) Hlt).
        apply H1.
    + exists 0%nat, s. split; [reflexivity|]. split; [exact R|]. left. lia.
Qed.

(** What the stripped program returns, [str] returns, given fuel for
    the bytes in between. *)
Lemma strip_up (fuel : nat) :
  forall (s s' : state) (r : INT_STAT) (f' : state),
    stripped_state str s s' ->
    loop v (strip str) past fuel s' = Some (r, f') ->
    exists fuel' f, loop v str past fuel' s = Some (r, f)
                    /\ ptr f' = ptr f /\ env f' = env f.
Proof.
  induction fuel as [|fuel IH]; intros s s' r f' R E;
    (destruct (skip_inert (Z.to_nat (fsize str - i s)) s s' R ltac:(lia))
      as (m & s1 & H1 & R1 & [Hend|[Hlt Hx]]);
     [match type of E with
      | loop _ _ _ ?g _ = _ =>
          destruct (exit_stripped s1 s' 0 g R1 Hend)
            as (f0 & f1 & r0 & E0 & E1 & HH)
      end;
      rewrite E in E1; injection E1 as <- <-;
      exists (m + 0)%nat, f0; rewrite H1; auto|]).
  - (* no fuel: the stripped run is at its end, so is the other *)
    destruct (step_stripped s1 s' R1 Hlt Hx) as [Hlt' _].
    simpl in E. destruct (Z.ltb_spec (i s') (fsize (strip str))); [discriminate|lia].
  - destruct (step_stripped s1 s' R1 Hlt Hx) as [Hlt' W].
    simpl in E. destruct (Z.ltb_spec (i s') (fsize (strip str))); [|lia].
    destruct (step v str past s1) as [a|r1 a|] eqn:Sa,
             (step v (strip str) past s') as [b|r2 b|];
      try contradiction; try discriminate.
    + destruct (IH a b r f' W E) as (fuel' & f & Ef & HH).
      exists (m + S fuel')%nat, f. rewrite H1.
      now rewrite (loop_step _ _ _ _ _ _ Sa Hlt).
    + injection E as <- <-. destruct W as (-> & W).
      exists (m + 1)%nat, a. rewrite H1.
      rewrite (loop_return _ _ _ _ _ _ _ Hlt Sa). tauto.
Qed.

End Stripping.

(** X9. Bytes that are not instructions are comments.  [interpret], in
    bf.c and brainfuck.c, returns on a program what it returns on the
    program stripped of the bytes the switch has no case for: the same
    status with the same tape, input left and output written; and if one
    of the two runs never returns, neither does the other.  The program
    is shorter than [SIZE_MAX] bytes and its last instruction is not an
    opening bracket (after such a bracket the scan reads the byte that
    follows, a comment byte in one text and the byte past the buffer in
    the other). *)
Theorem stripping_comments_changes_nothing (v : copy) (str : list Z) (past : Z)
  (t : node) (w : world) (r : INT_STAT) (t' : node) (w' : world) :
  v <> brainfuck_brainfuck_c ->
  fsize str < SIZE_MAX ->
  last (strip str) 0 <> byte "[" ->
  (exists fuel f,
      interpret v str past fuel t w = Some (r, f) /\ ptr f = t' /\ env f = w')
  <-> (exists fuel f,
          interpret v (strip str) past fuel t w = Some (r, f)
          /\ ptr f = t' /\ env f = w').
Proof.
  intros Hv Hs Hl. unfold interpret.
  assert (R : stripped_state str {| i := 0; bal := 0; ptr := t; env := w |}
                {| i := 0; bal := 0; ptr := t; env := w |}).
  { unfold stripped_state. cbn [i bal ptr env].
    pose proof (fsize_nonneg str). repeat split; auto; lia. }
  split.
  - intros (fuel & f & E & <- & <-).
    destruct (strip_down v str past Hv Hs Hl fuel _ _ r f R E) as (f' & E' & H1 & H2).
    exists fuel, f'. auto.
  - intros (fuel & f' & E & <- & <-).
    destruct (strip_up v str past Hv Hs Hl fuel _ _ r f' R E)
      as (fuel' & f & E' & H1 & H2).
    exists fuel', f. auto.
Qed.

Lemma stripping_comments_changes_nothing_witness :
  exists fuel f,
    interpret bf_c (strip (bytes "add two then move: ++ >")) 0 fuel fresh (console [])
    = Some (INT_SUCC, f)
    /\ ptr f = {| prev := [2]; c := 0; next := [] |}
    /\ env f = console [].
Proof.
  apply (proj1 (stripping_comments_changes_nothing bf_c
                  (bytes "add two then move: ++ >") 0 fresh (console []) INT_SUCC
                  {| prev := [2]; c := 0; next := [] |} (console [])
                  ltac:(discriminate)
                  ltac:(unfold fsize, SIZE_MAX; simpl; lia)
                  ltac:(vm_compute; discriminate))).
  exists 30%nat. eexists. split; [vm_compute; reflexivity|]. split; reflexivity.
Defined.

(** The condition on the last instruction cannot be dropped: with a
    closing bracket in the byte past the buffer, a comment after a last
    opening bracket changes the status. *)
Example comment_after_last_open_bracket :
  interpret bf_c (bytes "[ ") (byte "]") 2 fresh (console [])
  = Some (INT_INVL, {| i := 2; bal := 1; ptr := fresh; env := console [] |})
  /\ interpret bf_c (strip (bytes "[ ")) (byte "]") 2 fresh (console [])
     = Some (INT_SUCC, {| i := 2; bal := 0; ptr := fresh; env := console [] |}).
Proof. split; reflexivity. Qed.

(** * [main] *)

Lemma printf_keeps (line : list Z) :
  forall w : world,
    heap (printf line w) = heap w /\ stdin (printf line w) = stdin w.
Proof.
  unfold printf. induction line as [|x line IH]; intros w; simpl; [auto|].
  destruct (IH (snd (putchar x w))) as [H1 H2]. rewrite H1, H2.
  unfold putchar. destruct (take (wcap w)); simpl; auto.
Qed.

Lemma release_gives (r : list Z) :
  forall w : world,
    heap (release r w) = give (heap w) (S (length r))
    /\ stdin (release r w) = stdin w /\ stdout (release r w) = stdout w
    /\ wcap (release r w) = wcap w.
Proof.
  induction r as [|x r IH]; intros w; simpl.
  - auto.
  - destruct (IH (free w)) as (H1 & H2 & H3 & H4).
    rewrite H1, H2, H3, H4. simpl. rewrite give_give. auto.
Qed.

Lemma rewind_from_nodes (l : list Z) :
  forall (x : Z) (r : list Z),
    prev (rewind_from l x r) = []
    /\ length (next (rewind_from l x r)) = (length l + length r)%nat.
Proof.
  induction l as [|y l IH]; intros x r; simpl; [auto|].
  destruct (IH y (x :: r)) as [H1 H2]. rewrite H1, H2. simpl. split; [auto|lia].
Qed.

(** The cleanup hands back one node for each node of the list. *)
Lemma cleanup_gives (t : node) (w : world) :
  heap (release (next (rewind t)) w) = give (heap w) (nodes t).
Proof.
  destruct (release_gives (next (rewind t)) w) as (H & _). rewrite H.
  unfold rewind, nodes. destruct (rewind_from_nodes (prev t) (c t) (next t)) as [_ L].
  now rewrite L.
Qed.

Lemma give_zero (q : supply) : give q 0 = q.
Proof. destruct q; simpl; [reflexivity|]. f_equal. lia. Qed.

Lemma ERROR_heap (v : copy) (a0 msg : list Z) (t : node) (w : world)
  (ret : exit_status) (w' : world) :
  Some (ERROR v a0 msg (Some t) w) = Some (Exited ret w') ->
  heap w' = give (heap w) (nodes t).
Proof.
  unfold ERROR, cleanup. intros E.
  assert (W : w' = release (next (rewind t)) (printf (error_line a0 msg) w))
    by congruence.
  rewrite W, cleanup_gives.
  now destruct (printf_keeps (error_line a0 msg) w) as [-> _].
Qed.

Lemma cleanup_heap (x : exit_status) (t : node) (w : world) (ret : exit_status)
  (w' : world) :
  Some (cleanup x (Some t) w) = Some (Exited ret w') ->
  heap w' = give (heap w) (nodes t).
Proof.
  unfold cleanup. intros E.
  assert (W : w' = release (next (rewind t)) w) by congruence.
  now rewrite W, cleanup_gives.
Qed.

Lemma printf_exit (line : list Z) (w : world) (ret ret' : exit_status)
  (w' : world) :
  Some (Exited ret (printf line w)) = Some (Exited ret' w') -> heap w' = heap w.
Proof.
  intros E. assert (W : w' = printf line w) by congruence.
  rewrite W. apply printf_keeps.
Qed.

(** X10. [main] frees every node it and [interpret] allocated: whenever
    it returns, on the success path and on every failure path, in every
    copy, [malloc] can hand out as many nodes as before the run. *)
Theorem main_frees_every_node (v : copy) (past : Z) (fuel : nat) (L : libc)
  (w : world) (ret : exit_status) (w' : world) :
  main v past fuel L w = Some (Exited ret w') ->
  heap w' = heap w.
Proof.
  unfold main.
  destruct (checks_file v && negb (setvbuf L =? 0)).
  { intros E. exact (printf_exit _ _ _ _ _ E). }
  destruct (negb (argc L =? 2)).
  { intros E. exact (printf_exit _ _ _ _ _ E). }
  destruct (negb (fopen L)).
  { intros E. exact (printf_exit _ _ _ _ _ E). }
  destruct (malloc w) as [w1|] eqn:M;
    [|unfold ERROR, cleanup; destruct (checks_file v); discriminate].
  assert (H1 : give (heap w1) (nodes fresh) = heap w).
  { unfold malloc in M. destruct (take (heap w)) as [q|] eqn:T; [|discriminate].
    injection M as <-. simpl heap. unfold nodes. simpl.
    now rewrite (give_take _ _ _ T), give_zero. }
  cbv zeta.
  assert (HE : forall msg r0 w0,
             Some (ERROR v (argv0 L) msg (Some fresh) w1) = Some (Exited r0 w0) ->
             heap w0 = heap w).
  { intros msg r0 w0 E. apply ERROR_heap in E. congruence. }
  destruct (negb (fseek_end L =? 0)); [apply HE|].
  destruct (checks_file v && (ftell L =? -1)); [apply HE|].
  destruct (negb (fseek_set L =? 0)); [apply HE|].
  destruct (checks_file v && (size_t (ftell L) >? SIZE_MAX)); [apply HE|].
  destruct (negb (buffer L)); [apply HE|].
  destruct (negb (_ =? size_t (ftell L))); [apply HE|].
  destruct (interpret v _ past fuel fresh w1) as [[r s]|] eqn:I; [|discriminate].
  unfold interpret in I. apply loop_nodes in I. destruct I as [I _].
  cbn [env ptr] in I.
  destruct r; [| | |destruct (checks_putchar v)]; intros E;
    (apply ERROR_heap in E || apply cleanup_heap in E); congruence.
Qed.

Lemma main_frees_every_node_witness :
  heap {| stdin := []; stdout := [1]; wcap := Unlimited; heap := Limited 5 |}
  = heap {| stdin := []; stdout := []; wcap := Unlimited; heap := Limited 5 |}.
Proof.
  apply (main_frees_every_node bf_c 0 4
           {| argc := 2; argv0 := bytes "bf"; setvbuf := 0; fopen := true;
              fseek_end := 0; ftell := 4; fseek_set := 0; buffer := true;
              content := bytes "<+.>" |}
           {| stdin := []; stdout := []; wcap := Unlimited; heap := Limited 5 |}
           EXIT_SUCCESS).
  reflexivity.
Defined.

Lemma rewind_from_list (l : list Z) :
  forall (x : Z) (r : list Z),
    rewind_from l x r
    = match rev l ++ x :: r with
      | [] => fresh
      | y :: q => {| prev := []; c := y; next := q |}
      end.
Proof.
  induction l as [|y l IH]; intros x r; simpl; [reflexivity|].
  now rewrite IH, <- app_assoc.
Qed.

(** X11. The code after [cleanup] frees the same nodes whichever node of
    the list it is started on: [main] holds the first node it allocated,
    [interpret] ends on another node of the same list, and rewinding from
    either reaches the same head. *)
Theorem cleanup_from_any_node (ret : exit_status) (t1 t2 : node) (w : world) :
  list_of t1 = list_of t2 ->
  cleanup ret (Some t1) w = cleanup ret (Some t2) w.
Proof.
  unfold list_of, cleanup, rewind. intros E.
  now rewrite !rewind_from_list, E.
Qed.

Lemma cleanup_from_any_node_witness :
  cleanup EXIT_SUCCESS (Some {| prev := [1]; c := 2; next := [3] |})
    {| stdin := []; stdout := []; wcap := Unlimited; heap := Limited 0 |}
  = cleanup EXIT_SUCCESS (Some {| prev := [2; 1]; c := 3; next := [] |})
      {| stdin := []; stdout := []; wcap := Unlimited; heap := Limited 0 |}.
Proof. apply cleanup_from_any_node. reflexivity. Defined.



Lemma firstn_full (n : nat) (l : list Z) :
  Z.of_nat (length (firstn n l)) = Z.of_nat n <-> (n <= length l)%nat.
Proof. rewrite length_firstn. lia. Qed.

(** X13. [main] exits with [EXIT_SUCCESS] exactly when every call of the
    C library succeeded, the file holds the [ftell] bytes, and
    [interpret] returned [INT_SUCC] on them; the environment is then the
    one [interpret] left, with every node freed.  The test for a file that
    is too large never fires, and the copies that do not look at the
    result of [putchar] never get [INT_IOERR]. *)
Theorem main_succeeds_iff (v : copy) (past : Z) (fuel : nat) (L : libc)
  (w w' : world) :
  main v past fuel L w = Some (Exited EXIT_SUCCESS w') <->
  (checks_file v = true -> setvbuf L = 0 /\ ftell L <> -1)
  /\ argc L = 2 /\ fopen L = true /\ fseek_end L = 0 /\ fseek_set L = 0
  /\ buffer L = true
  /\ (Z.to_nat (size_t (ftell L)) <= length (content L))%nat
  /\ exists (w1 : world) (s : state),
       malloc w = Some w1
       /\ interpret v (firstn (Z.to_nat (size_t (ftell L))) (content L))
            past fuel fresh w1 = Some (INT_SUCC, s)
       /\ w' = release (next (rewind (ptr s))) (env s).
Proof.
  assert (R := size_t_range (ftell L)).
  assert (B7 : checks_file v && (size_t (ftell L) >? SIZE_MAX) = false).
  { apply andb_false_iff. right. rewrite Z.gtb_ltb. apply Z.ltb_ge. lia. }
  unfold main, ERROR, cleanup. rewrite B7. cbv zeta. split.
  - destruct (checks_file v && negb (setvbuf L =? 0)) eqn:B1; [discriminate|].
    destruct (negb (argc L =? 2)) eqn:B2; [discriminate|].
    destruct (negb (fopen L)) eqn:B3; [discriminate|].
    destruct (malloc w) as [w1|] eqn:M;
      [|destruct (checks_file v); discriminate].
    destruct (negb (fseek_end L =? 0)) eqn:B4; [discriminate|].
    destruct (checks_file v && (ftell L =? -1)) eqn:B5; [discriminate|].
    destruct (negb (fseek_set L =? 0)) eqn:B6; [discriminate|].
    destruct (negb (buffer L)) eqn:B8; [discriminate|].
    destruct (negb (_ =? size_t (ftell L))) eqn:B9; [discriminate|].
    destruct (interpret v _ past fuel fresh w1) as [[r s]|] eqn:I;
      [|discriminate].
    intros E.
    apply negb_false_iff, Z.eqb_eq in B2, B4, B6, B9.
    apply negb_false_iff in B3, B8.
    assert (H : r = INT_SUCC
                /\ w' = release (next (rewind (ptr s))) (env s)).
    { destruct r; try discriminate.
      - split; congruence.
      - destruct (checks_putchar v) eqn:P; [discriminate|].
        unfold interpret in I.
        now apply (loop_never_ioerr v _ past P) in I. }
    destruct H as [-> ->].
    split; [|repeat (split; [assumption|]); split].
    + intros C. rewrite C in B1, B5. simpl in B1, B5.
      apply negb_false_iff, Z.eqb_eq in B1. apply Z.eqb_neq in B5. auto.
    + apply firstn_full. rewrite B9. lia.
    + now exists w1, s.
  - intros (H1 & H2 & H3 & H4 & H5 & H6 & H7 & w1 & s & M & I & ->).
    assert (B1 : checks_file v && negb (setvbuf L =? 0) = false
                 /\ checks_file v && (ftell L =? -1) = false).
    { destruct (checks_file v); [|auto].
      destruct (H1 eq_refl) as [-> N]. apply Z.eqb_neq in N. now rewrite N. }
    destruct B1 as [-> ->]. rewrite H2, H3, H4, H5, H6, M. simpl negb.
    cbv iota.
    apply firstn_full in H7. rewrite H7, Z2Nat.id, Z.eqb_refl by lia.
    simpl negb. cbv iota. now rewrite I.
Qed.

Lemma main_succeeds_iff_witness :
  main brainfuck_c 0 4
    {| argc := 2; argv0 := bytes "bf"; setvbuf := 0; fopen := true;
       fseek_end := 0; ftell := 4; fseek_set := 0; buffer := true;
       content := bytes "<+.>" |}
    {| stdin := []; stdout := []; wcap := Unlimited; heap := Limited 5 |}
  = Some (Exited EXIT_SUCCESS
            {| stdin := []; stdout := [1]; wcap := Unlimited;
               heap := Limited 5 |}).
Proof.
  apply main_succeeds_iff.
  split; [intros _; split; [reflexivity|discriminate]|].
  do 5 (split; [reflexivity|]).
  split; [simpl; lia|].
  exists {| stdin := []; stdout := []; wcap := Unlimited; heap := Limited 4 |},
    {| i := 4; bal := 0; ptr := {| prev := [1]; c := 0; next := [] |};
       env := {| stdin := []; stdout := [1]; wcap := Unlimited;
                 heap := Limited 3 |} |}.
  repeat split; reflexivity.
Defined.


(** ** Programs without brackets *)

Lemma str_at_in (str : list Z) (past : Z) (k : Z) :
  0 <= k < fsize str -> In (str_at str past k) str.
Proof.
  intros H. unfold str_at, fsize in *.
  destruct (Z.ltb_spec k (Z.of_nat (length str))); [|lia].
  apply nth_In. lia.
Qed.

Lemma straight_line_loop (v : copy) (str : list Z) (past : Z) :
  fsize str <= SIZE_MAX ->
  Forall (fun x => x <> byte "[" /\ x <> byte "]") str ->
  forall (n : nat) (s : state),
    0 <= i s <= fsize str -> bal s = 0 -> fsize str - i s <= Z.of_nat n ->
    exists r s',
      loop v str past n s = Some (r, s')
      /\ r <> INT_INVL /\ (r = INT_SUCC -> i s' = fsize str).
Proof.
  intros Hsize Hall. induction n as [|n IH]; intros s Hi Hb Hn.
  - exists INT_SUCC, s. rewrite loop_exit by lia. rewrite Hb.
    repeat split; [discriminate|lia].
  - destruct (Z.ltb_spec (i s) (fsize str)) as [Hlt|Hge].
    + assert (Hin := str_at_in str past (i s) ltac:(lia)).
      destruct (proj1 (Forall_forall _ _) Hall _ Hin) as [No Nc].
      assert (J := switch_without_jump v str past s
                     (fun E => False_ind _ (No E)) (fun E => False_ind _ (Nc E))).
      destruct (switch v str past s) as [s1|r s1|] eqn:Sw; [| |contradiction].
      * destruct J as [J1 J2].
        assert (St : step v str past s = Next (set_i (size_t (i s1 + 1)) s1))
          by (unfold step; now rewrite Sw).
        rewrite (loop_step _ _ _ _ _ _ St) by lia.
        apply IH; unfold set_i; cbn [i bal]; rewrite ?J1, ?size_t_small by lia;
          lia.
      * assert (St : step v str past s = Return r s1)
          by (unfold step; now rewrite Sw).
        exists r, s1. rewrite (loop_return _ _ _ _ _ _ _ Hlt St).
        split; [reflexivity|].
        destruct J as [-> | ->]; split; discriminate.
    + exists INT_SUCC, s. rewrite loop_exit by lia. rewrite Hb.
      repeat split; [discriminate|lia].
Qed.

(** X14. A program without brackets always returns: in every copy,
    whatever the tape and the environment, [interpret] is back after at
    most one iteration of the [for] loop for each byte of the program; the
    status is never the one of an invalid program, and on success [i] is
    at the end of the program. *)
Theorem program_without_brackets_returns (v : copy) (str : list Z) (past : Z)
  (t : node) (w : world) :
  fsize str <= SIZE_MAX ->
  Forall (fun x => x <> byte "[" /\ x <> byte "]") str ->
  exists r s',
    interpret v str past (length str) t w = Some (r, s')
    /\ r <> INT_INVL /\ (r = INT_SUCC -> i s' = fsize str).
Proof.
  intros Hsize Hall. unfold interpret.
  apply straight_line_loop; auto; unfold fsize; cbn [i bal]; lia.
Qed.

Lemma program_without_brackets_returns_witness :
  exists r s',
    interpret brainfuck_brainfuck_c (bytes "+>,.") 0 4 fresh (console [7])
    = Some (r, s')
    /\ r <> INT_INVL /\ (r = INT_SUCC -> i s' = fsize (bytes "+>,.")).
Proof.
  apply (program_without_brackets_returns brainfuck_brainfuck_c (bytes "+>,.")).
  - unfold fsize, SIZE_MAX. simpl. lia.
  - repeat constructor; discriminate.
Defined.

(** ** Pairs that cancel *)

Lemma uchar_up_down (x : Z) :
  0 <= x <= 255 -> uchar (uchar (x + 1) - 1) = x /\ uchar (uchar (x - 1) + 1) = x.
Proof.
  intros H. unfold uchar.
  destruct (Z.eq_dec x 255) as [->|]; [split; [reflexivity|]|].
  - reflexivity.
  - destruct (Z.eq_dec x 0) as [->|]; [split; reflexivity|].
    rewrite (Z.mod_small (x + 1)), (Z.mod_small (x - 1)) by lia.
    rewrite !Z.mod_small by lia. lia.
Qed.

Lemma set_c_same (t : node) : set_c (c t) t = t.
Proof. now destruct t. Qed.

Lemma step_plus_at (v : copy) (str : list Z) (past : Z) (s : state) :
  fsize str < SIZE_MAX -> 0 <= i s < fsize str ->
  str_at str past (i s) = byte "+" ->
  step v str past s
  = Next {| i := i s + 1; bal := bal s;
            ptr := set_c (uchar (c (ptr s) + 1)) (ptr s); env := env s |}.
Proof.
  intros Hsize Hi Hat. unfold step, switch. rewrite Hat.
  norm_bytes. cbn [Z.eqb Pos.eqb]. unfold set_i. cbn [i bal ptr env].
  now rewrite size_t_small by lia.
Qed.

Lemma step_minus_at (v : copy) (str : list Z) (past : Z) (s : state) :
  fsize str < SIZE_MAX -> 0 <= i s < fsize str ->
  str_at str past (i s) = byte "-" ->
  step v str past s
  = Next {| i := i s + 1; bal := bal s;
            ptr := set_c (uchar (c (ptr s) - 1)) (ptr s); env := env s |}.
Proof.
  intros Hsize Hi Hat. unfold step, switch. rewrite Hat.
  norm_bytes. cbn [Z.eqb Pos.eqb]. unfold set_i. cbn [i bal ptr env].
  now rewrite size_t_small by lia.
Qed.

(** X15. An increment followed by a decrement, or a decrement followed by
    an increment, leaves everything as it was: in every copy, two
    iterations after reaching the pair with a value between 0 and 255 in
    the cell (also 255 before '+' and 0 before '-', where the cell wraps),
    the function is just past the pair with the same tape, input and
    output. *)
Theorem plus_minus_cancel (v : copy) (str : list Z) (past : Z) (k b : Z)
  (t : node) (w : world) (fuel : nat) :
  fsize str < SIZE_MAX -> 0 <= k -> k + 1 < fsize str ->
  0 <= c t <= 255 ->
  (str_at str past k = byte "+" /\ str_at str past (k + 1) = byte "-")
  \/ (str_at str past k = byte "-" /\ str_at str past (k + 1) = byte "+") ->
  loop v str past (2 + fuel) {| i := k; bal := b; ptr := t; env := w |}
  = loop v str past fuel {| i := k + 2; bal := b; ptr := t; env := w |}.
Proof.
  intros Hsize Hk Hin Hc Hat.
  destruct (uchar_up_down (c t) Hc) as [U1 U2].
  change (2 + fuel)%nat with (S (S fuel)).
  destruct Hat as [[H1 H2]|[H1 H2]].
  - rewrite (loop_step _ _ _ _ _ _
               (step_plus_at v str past
                  {| i := k; bal := b; ptr := t; env := w |} Hsize
                  ltac:(cbn [i]; lia) H1)) by (cbn [i]; lia).
    cbn [i bal ptr env].
    rewrite (loop_step _ _ _ _ _ _
               (step_minus_at v str past
                  {| i := k + 1; bal := b; ptr := set_c (uchar (c t + 1)) t;
                     env := w |} Hsize
                  ltac:(cbn [i]; lia) H2)) by (cbn [i]; lia).
    unfold set_c. cbn [i bal ptr env c prev next]. rewrite U1.
    destruct t. cbn [c prev next]. do 2 f_equal. lia.
  - rewrite (loop_step _ _ _ _ _ _
               (step_minus_at v str past
                  {| i := k; bal := b; ptr := t; env := w |} Hsize
                  ltac:(cbn [i]; lia) H1)) by (cbn [i]; lia).
    cbn [i bal ptr env].
    rewrite (loop_step _ _ _ _ _ _
               (step_plus_at v str past
                  {| i := k + 1; bal := b; ptr := set_c (uchar (c t - 1)) t;
                     env := w |} Hsize
                  ltac:(cbn [i]; lia) H2)) by (cbn [i]; lia).
    unfold set_c. cbn [i bal ptr env c prev next]. rewrite U2.
    destruct t. cbn [c prev next]. do 2 f_equal. lia.
Qed.

Lemma plus_minus_cancel_witness :
  loop bf_c (bytes ",+-.") 0 (2 + 1)
    {| i := 1; bal := 0; ptr := set_c 255 fresh; env := console [] |}
  = loop bf_c (bytes ",+-.") 0 1
      {| i := 1 + 2; bal := 0; ptr := set_c 255 fresh; env := console [] |}.
Proof.
  apply plus_minus_cancel.
  - unfold fsize, SIZE_MAX. simpl. lia.
  - lia.
  - unfold fsize. simpl. lia.
  - simpl. lia.
  - left. split; reflexivity.
Defined.


Lemma step_right_at (v : copy) (str : list Z) (past : Z) (s : state) :
  str_at str past (i s) = byte ">" ->
  step v str past s
  = match move_right s with
    | Next s' => Next (set_i (size_t (i s' + 1)) s')
    | o => o
    end.
Proof.
  intros Hat. unfold step, switch. rewrite Hat. norm_bytes. reflexivity.
Qed.

Lemma step_left_at (v : copy) (str : list Z) (past : Z) (s : state) :
  str_at str past (i s) = byte "<" ->
  step v str past s
  = match move_left s with
    | Next s' => Next (set_i (size_t (i s' + 1)) s')
    | o => o
    end.
Proof.
  intros Hat. unfold step, switch. rewrite Hat. norm_bytes. reflexivity.
Qed.

(** X16. A move to the right followed by a move to the left comes back
    to the same node.  In every copy: with a node on the right already,
    two iterations later the function is just past the pair and nothing
    else has changed; on the last node, the first move allocates a node
    holding 0, which stays in the list, or, if [malloc] fails, the
    function returns the status for a bad allocation. *)
Theorem right_left_cancel (v : copy) (str : list Z) (past : Z) (k b : Z)
  (t : node) (w : world) (fuel : nat) :
  fsize str < SIZE_MAX -> 0 <= k -> k + 1 < fsize str ->
  str_at str past k = byte ">" -> str_at str past (k + 1) = byte "<" ->
  loop v str past (2 + fuel) {| i := k; bal := b; ptr := t; env := w |}
  = match next t with
    | _ :: _ =>
        loop v str past fuel {| i := k + 2; bal := b; ptr := t; env := w |}
    | [] =>
        match malloc w with
        | Some w1 =>
            loop v str past fuel
              {| i := k + 2; bal := b;
                 ptr := {| prev := prev t; c := c t; next := [0] |};
                 env := w1 |}
        | None => Some (INT_MEMERR, {| i := k; bal := b; ptr := t; env := w |})
        end
    end.
Proof.
  intros Hsize Hk Hin H1 H2.
  change (2 + fuel)%nat with (S (S fuel)).
  assert (S1 := step_right_at v str past
                  {| i := k; bal := b; ptr := t; env := w |} H1).
  unfold move_right in S1. cbn [i bal ptr env] in S1.
  destruct t as [l x r]. cbn [prev c next] in *.
  destruct r as [|y r].
  - destruct (malloc w) as [w1|].
    + rewrite (loop_step _ _ _ _ _ _ S1) by (cbn [i]; lia).
      unfold set_i. cbn [i bal ptr env]. rewrite size_t_small by lia.
      assert (S2 := step_left_at v str past
                      {| i := k + 1; bal := b;
                         ptr := {| prev := x :: l; c := 0; next := [] |};
                         env := w1 |} H2).
      unfold move_left in S2. cbn [i bal ptr env prev c next] in S2.
      rewrite (loop_step _ _ _ _ _ _ S2) by (cbn [i]; lia).
      unfold set_i. cbn [i bal ptr env]. rewrite size_t_small by lia.
      do 2 f_equal. lia.
    + apply loop_return; [cbn [i]; lia|exact S1].
  - rewrite (loop_step _ _ _ _ _ _ S1) by (cbn [i]; lia).
    unfold set_i. cbn [i bal ptr env]. rewrite size_t_small by lia.
    assert (S2 := step_left_at v str past
                    {| i := k + 1; bal := b;
                       ptr := {| prev := x :: l; c := y; next := r |};
                       env := w |} H2).
    unfold move_left in S2. cbn [i bal ptr env prev c next] in S2.
    rewrite (loop_step _ _ _ _ _ _ S2) by (cbn [i]; lia).
    unfold set_i. cbn [i bal ptr env]. rewrite size_t_small by lia.
    do 2 f_equal. lia.
Qed.

Lemma right_left_cancel_witness :
  loop brainfuck_c (bytes "+><.") 0 (2 + 1)
    {| i := 1; bal := 0; ptr := set_c 1 fresh;
       env := {| stdin := []; stdout := []; wcap := Unlimited;
                 heap := Limited 0 |} |}
  = Some (INT_MEMERR,
          {| i := 1; bal := 0; ptr := set_c 1 fresh;
             env := {| stdin := []; stdout := []; wcap := Unlimited;
                       heap := Limited 0 |} |}).
Proof.
  apply (right_left_cancel brainfuck_c (bytes "+><.") 0 1 0 (set_c 1 fresh)).
  - unfold fsize, SIZE_MAX. simpl. lia.
  - lia.
  - unfold fsize. simpl. lia.
  - reflexivity.
  - reflexivity.
Defined.

(** X17. A move to the left followed by a move to the right comes back
    to the same node, in the same way: with a node on the left already
    nothing else changes; on the first node the list gets a node holding
    0 before it, or the function returns the status for a bad
    allocation. *)
Theorem left_right_cancel (v : copy) (str : list Z) (past : Z) (k b : Z)
  (t : node) (w : world) (fuel : nat) :
  fsize str < SIZE_MAX -> 0 <= k -> k + 1 < fsize str ->
  str_at str past k = byte "<" -> str_at str past (k + 1) = byte ">" ->
  loop v str past (2 + fuel) {| i := k; bal := b; ptr := t; env := w |}
  = match prev t with
    | _ :: _ =>
        loop v str past fuel {| i := k + 2; bal := b; ptr := t; env := w |}
    | [] =>
        match malloc w with
        | Some w1 =>
            loop v str past fuel
              {| i := k + 2; bal := b;
                 ptr := {| prev := [0]; c := c t; next := next t |};
                 env := w1 |}
        | None => Some (INT_MEMERR, {| i := k; bal := b; ptr := t; env := w |})
        end
    end.
Proof.
  intros Hsize Hk Hin H1 H2.
  change (2 + fuel)%nat with (S (S fuel)).
  assert (S1 := step_left_at v str past
                  {| i := k; bal := b; ptr := t; env := w |} H1).
  unfold move_left in S1. cbn [i bal ptr env] in S1.
  destruct t as [l x r]. cbn [prev c next] in *.
  destruct l as [|y l].
  - destruct (malloc w) as [w1|].
    + rewrite (loop_step _ _ _ _ _ _ S1) by (cbn [i]; lia).
      unfold set_i. cbn [i bal ptr env]. rewrite size_t_small by lia.
      assert (S2 := step_right_at v str past
                      {| i := k + 1; bal := b;
                         ptr := {| prev := []; c := 0; next := x :: r |};
                         env := w1 |} H2).
      unfold move_right in S2. cbn [i bal ptr env prev c next] in S2.
      rewrite (loop_step _ _ _ _ _ _ S2) by (cbn [i]; lia).
      unfold set_i. cbn [i bal ptr env]. rewrite size_t_small by lia.
      do 2 f_equal. lia.
    + apply loop_return; [cbn [i]; lia|exact S1].
  - rewrite (loop_step _ _ _ _ _ _ S1) by (cbn [i]; lia).
    unfold set_i. cbn [i bal ptr env]. rewrite size_t_small by lia.
    assert (S2 := step_right_at v str past
                    {| i := k + 1; bal := b;
                       ptr := {| prev := l; c := y; next := x :: r |};
                       env := w |} H2).
    unfold move_right in S2. cbn [i bal ptr env prev c next] in S2.
    rewrite (loop_step _ _ _ _ _ _ S2) by (cbn [i]; lia).
    unfold set_i. cbn [i bal ptr env]. rewrite size_t_small by lia.
    do 2 f_equal. lia.
Qed.

Lemma left_right_cancel_witness :
  loop bf_c (bytes "<>") 0 (2 + 0)
    {| i := 0; bal := 0; ptr := {| prev := [4]; c := 5; next := [] |};
       env := console [] |}
  = loop bf_c (bytes "<>") 0 0
      {| i := 0 + 2; bal := 0; ptr := {| prev := [4]; c := 5; next := [] |};
         env := console [] |}.
Proof.
  apply (left_right_cancel bf_c (bytes "<>") 0 0 0
           {| prev := [4]; c := 5; next := [] |}).
  - unfold fsize, SIZE_MAX. simpl. lia.
  - lia.
  - unfold fsize. simpl. lia.
  - reflexivity.
  - reflexivity.
Defined.


(** ** What a program without an instruction leaves alone *)

Lemma putchar_frame (x : Z) (w : world) :
  stdin (snd (putchar x w)) = stdin w /\ heap (snd (putchar x w)) = heap w.
Proof. unfold putchar. destruct (take (wcap w)); auto. Qed.

Lemma getchar_frame (w : world) :
  stdout (snd (getchar w)) = stdout w /\ wcap (snd (getchar w)) = wcap w
  /\ heap (snd (getchar w)) = heap w.
Proof. unfold getchar. destruct (stdin w); auto. Qed.

Lemma malloc_frame (w w1 : world) :
  malloc w = Some w1 ->
  stdin w1 = stdin w /\ stdout w1 = stdout w /\ wcap w1 = wcap w.
Proof.
  unfold malloc. destruct (take (heap w)); [|discriminate].
  intros E. injection E as <-. auto.
Qed.

(** What one pass through the [switch] leaves alone, by the byte it
    dispatches on. *)
Lemma switch_frame (v : copy) (str : list Z) (past : Z) (s : state) :
  match switch v str past s with
  | Next s' =>
      (str_at str past (i s) <> byte "." ->
       stdout (env s') = stdout (env s) /\ wcap (env s') = wcap (env s))
      /\ (str_at str past (i s) <> byte "," -> stdin (env s') = stdin (env s))
      /\ (str_at str past (i s) <> byte "<" ->
          str_at str past (i s) <> byte ">" ->
          heap (env s') = heap (env s)
          /\ prev (ptr s') = prev (ptr s) /\ next (ptr s') = next (ptr s))
  | Return r s' =>
      ptr s' = ptr s /\ env s' = env s
      /\ (r = INT_IOERR -> str_at str past (i s) = byte ".")
      /\ (r = INT_MEMERR ->
          str_at str past (i s) = byte "<" \/ str_at str past (i s) = byte ">")
  | Spin => True
  end.
Proof.
  unfold switch, move_left, move_right.
  generalize (scan_forward v str past (scan_fuel str) (i s) 1 []) as fw.
  generalize (scan_backward v str past (scan_fuel str) (i s) 1) as bw.
  intros bw fw.
  destruct (putchar_frame (c (ptr s)) (env s)) as [P1 P2].
  destruct (getchar_frame (env s)) as (G1 & G2 & G3).
  destruct (Z.eqb_spec (str_at str past (i s)) (byte "+")) as [E|_].
  { rewrite E. cbn [ptr env set_c prev next]. norm_bytes.
    repeat split; intros; congruence. }
  destruct (Z.eqb_spec (str_at str past (i s)) (byte "-")) as [E|_].
  { rewrite E. cbn [ptr env set_c prev next]. norm_bytes.
    repeat split; intros; congruence. }
  destruct (Z.eqb_spec (str_at str past (i s)) (byte "<")) as [E|_].
  { rewrite E. norm_bytes.
    destruct (prev (ptr s)).
    - destruct (malloc (env s)) as [w1|] eqn:M.
      + destruct (malloc_frame _ _ M) as (M1 & M2 & M3). cbn [ptr env].
        repeat split; intros; congruence.
      + repeat split; intros; try congruence. now left.
    - cbn [ptr env]. repeat split; intros; congruence. }
  destruct (Z.eqb_spec (str_at str past (i s)) (byte ">")) as [E|_].
  { rewrite E. norm_bytes.
    destruct (next (ptr s)).
    - destruct (malloc (env s)) as [w1|] eqn:M.
      + destruct (malloc_frame _ _ M) as (M1 & M2 & M3). cbn [ptr env].
        repeat split; intros; congruence.
      + repeat split; intros; try congruence. now right.
    - cbn [ptr env]. repeat split; intros; congruence. }
  destruct (Z.eqb_spec (str_at str past (i s)) (byte ".")) as [E|_].
  { rewrite E. norm_bytes.
    destruct (putchar (c (ptr s)) (env s)) as [x w1]. cbn [snd] in P1, P2.
    destruct (checks_putchar v && (x =? EOF)); cbn [ptr env];
      repeat split; intros; congruence. }
  destruct (Z.eqb_spec (str_at str past (i s)) (byte ",")) as [E|_].
  { rewrite E. norm_bytes.
    destruct (getchar (env s)) as [x w1]. cbn [snd] in G1, G2, G3.
    cbn [ptr env set_c prev next]. repeat split; intros; congruence. }
  destruct (Z.eqb_spec (str_at str past (i s)) (byte "[")) as [E|_].
  { destruct (c (ptr s) =? 0); [destruct fw as [[[k b] rd]|]|]; cbn [ptr env];
      auto; repeat split; intros; congruence. }
  destruct (Z.eqb_spec (str_at str past (i s)) (byte "]")) as [E|_].
  { destruct (negb (c (ptr s) =? 0)); [destruct bw as [[[k b]|[k b]]|]|];
      cbn [ptr env]; auto; repeat split; intros; congruence. }
  repeat split; intros; congruence.
Qed.


(** X18. [interpret] touches only what the instructions of the program
    name.  In every copy, whatever status it returns: a program without
    '.' writes nothing and never gets the I/O status; a program without
    ',' reads nothing; a program without '<' and '>' allocates nothing,
    stays on the node it was called on and never gets the status for a
    bad allocation. *)
Theorem untouched_without_instruction (v : copy) (str : list Z) (past : Z)
  (fuel : nat) (t : node) (w : world) (r : INT_STAT) (s' : state) :
  interpret v str past fuel t w = Some (r, s') ->
  (~ In (byte ".") str ->
   stdout (env s') = stdout w /\ wcap (env s') = wcap w /\ r <> INT_IOERR)
  /\ (~ In (byte ",") str -> stdin (env s') = stdin w)
  /\ (~ In (byte "<") str -> ~ In (byte ">") str ->
      heap (env s') = heap w /\ prev (ptr s') = prev t /\ next (ptr s') = next t
      /\ r <> INT_MEMERR).
Proof.
  unfold interpret. intros E.
  set (P := fun s1 : state =>
              0 <= i s1
              /\ (~ In (byte ".") str ->
                  stdout (env s1) = stdout w /\ wcap (env s1) = wcap w)
              /\ (~ In (byte ",") str -> stdin (env s1) = stdin w)
              /\ (~ In (byte "<") str -> ~ In (byte ">") str ->
                  heap (env s1) = heap w
                  /\ prev (ptr s1) = prev t /\ next (ptr s1) = next t)).
  assert (HN : forall s0 s1, P s0 -> i s0 < fsize str ->
                             step v str past s0 = Next s1 -> P s1).
  { intros s0 s1 (Hi & Hw & Hr & Hm) Hlt St.
    assert (Hin := str_at_in str past (i s0) (conj Hi Hlt)).
    assert (F := switch_frame v str past s0). unfold step in St.
    destruct (switch v str past s0) as [s2| |]; try discriminate.
    injection St as <-. unfold set_i. cbn [i ptr env].
    destruct F as (Fw & Fr & Fm).
    split; [apply size_t_range|]. split; [|split].
    - intros N. destruct (Hw N) as [<- <-]. apply Fw. congruence.
    - intros N. rewrite <- (Hr N). apply Fr. congruence.
    - intros N1 N2. destruct (Hm N1 N2) as (<- & <- & <-).
      apply Fm; congruence. }
  assert (H0 : P {| i := 0; bal := 0; ptr := t; env := w |}).
  { unfold P. cbn [i ptr env]. repeat split; auto; lia. }
  destruct (loop_inversion v str past P HN fuel _ r s' H0 E)
    as [((_ & Hw & Hr & Hm) & _ & ->)|(s0 & (Hi & Hw & Hr & Hm) & Hlt & St)].
  - split; [|split].
    + intros N. destruct (Hw N). repeat split; auto.
      destruct (bal s' =? 0); discriminate.
    + exact Hr.
    + intros N1 N2. destruct (Hm N1 N2) as (? & ? & ?). repeat split; auto.
      destruct (bal s' =? 0); discriminate.
  - assert (Hin := str_at_in str past (i s0) (conj Hi Hlt)).
    assert (F := switch_frame v str past s0). unfold step in St.
    destruct (switch v str past s0) as [s2|r2 s2|]; try discriminate.
    injection St as <- <-. destruct F as (-> & -> & Fio & Fmem).
    split; [|split].
    + intros N. destruct (Hw N). repeat split; auto.
      intros R. apply N. rewrite <- (Fio R). exact Hin.
    + exact Hr.
    + intros N1 N2. destruct (Hm N1 N2) as (? & ? & ?). repeat split; auto.
      intros R. destruct (Fmem R) as [X|X]; [apply N1|apply N2];
        rewrite <- X; exact Hin.
Qed.

Lemma untouched_without_instruction_witness :
  (~ In (byte ".") (bytes ",[-]>+") ->
   stdout (console []) = stdout (console [3])
   /\ wcap (console []) = wcap (console [3]) /\ INT_SUCC <> INT_IOERR)
  /\ (~ In (byte ",") (bytes ",[-]>+") ->
      stdin (console []) = stdin (console [3]))
  /\ (~ In (byte "<") (bytes ",[-]>+") -> ~ In (byte ">") (bytes ",[-]>+") ->
      heap (console []) = heap (console [3])
      /\ prev {| prev := [0]; c := 1; next := [] |} = prev fresh
      /\ next {| prev := [0]; c := 1; next := [] |} = next fresh
      /\ INT_SUCC <> INT_MEMERR).
Proof.
  apply (untouched_without_instruction bf_c (bytes ",[-]>+") 0 12 fresh
           (console [3]) INT_SUCC
           {| i := 6; bal := 0; ptr := {| prev := [0]; c := 1; next := [] |};
              env := console [] |}).
  reflexivity.
Defined.
